(** * Calculus: a numerical-calculus toolkit and its terminal grapher

    A shallow embedding of [Calculus.h] (the header at the top of the
    repository, with [LARGE = 1000000.0]) and of [include/Calculus.h] (the
    header with [LARGE = 10000.0], the sign convention of
    [integral_definite] and the [Grapher] class).

    - A C++ [double] is a primitive binary64 [float]; its arithmetic is the
      IEEE-754 arithmetic of [PrimFloat], specified by [FloatAxioms].
    - [int], [long] and [unsigned] values are integers of [Z] (or [nat] where
      the code only counts down); an arithmetic overflow or a conversion that
      does not fit is undefined behaviour and is reported as [Undefined].
    - A [Func] is a total function on doubles.  Every evaluation of a
      caller-supplied [Func] is counted, so that "how often is fx
      evaluated" is a statement about the code.
    - Loops and recursions driven by a [double] need not terminate; they take
      fuel and report [OutOfFuel] when it runs out.  The recursion of
      [iterate] is not a tail recursion: its fuel is the number of stack
      frames there is room for, and running out of it is the exhaustion of
      the stack.

    The statements on rounding, on [iterate] and on the sign of
    [integral_definite] are proved from the specification of the primitive
    operations: a double is read as the real number it stands for, and every
    operation returns one of the two doubles around its exact result. *)

Set Warnings "-inexact-float".
From Stdlib Require Import ZArith Floats Lia List Bool Ascii String.
From Stdlib Require Import Reals Lra Psatz.
Import ListNotations.
Local Open Scope Z_scope.

(** ** Doubles and their conversions *)

Module Double.

(** Conversion of an integer to [double]: round to nearest, ties to even;
    exact for magnitudes up to [2^53]. *)
Definition of_Z (z : Z) : float :=
  SF2Prim (binary_normalize prec emax z 0 false).

(** Truncation toward zero, the value a floating-integral conversion
    yields when it fits the target type. *)
Definition trunc (x : float) : option Z :=
  match Prim2SF x with
  | S754_zero _ => Some 0
  | S754_finite s m e =>
      Some (cond_Zopp s (if 0 <=? e then Z.shiftl (Zpos m) e
                         else Z.shiftr (Zpos m) (- e)))
  | S754_infinity _ | S754_nan => None
  end.

Definition INT_MIN : Z := - 2 ^ 31.
Definition INT_MAX : Z := 2 ^ 31 - 1.
Definition LONG_MIN : Z := - 2 ^ 63.
Definition LONG_MAX : Z := 2 ^ 63 - 1.
Definition INT32_MAX : Z := 2147483647.

Definition fits (lo hi z : Z) : bool := (lo <=? z) && (z <=? hi).

(** [double] to [int]: undefined when the truncated value is not an [int]. *)
Definition to_int (x : float) : option Z :=
  match trunc x with
  | Some z => if fits INT_MIN INT_MAX z then Some z else None
  | None => None
  end.

(** [double] to [long]. *)
Definition to_long (x : float) : option Z :=
  match trunc x with
  | Some z => if fits LONG_MIN LONG_MAX z then Some z else None
  | None => None
  end.

(** [long] to [int]: the value modulo [2^32]. *)
Definition long_to_int (z : Z) : Z := (z + 2 ^ 31) mod 2 ^ 32 - 2 ^ 31.

(** [std::floor]: the largest integral double not above [x]; zeros,
    infinities and NaN are returned as they are. *)
Definition floor (x : float) : float :=
  match Prim2SF x with
  | S754_finite s m e =>
      if 0 <=? e then x else of_Z (Z.shiftr (cond_Zopp s (Zpos m)) (- e))
  | _ => x
  end.

(** [std::pow(10, places)] for an unsigned [places]: the double nearest to
    the power of ten (the power itself up to [10^22]). *)
Definition pow10 (places : N) : float := of_Z (10 ^ Z.of_N places).

(** The real number [floor x] of a finite double, as an integer. *)
Definition floorZ (x : float) : Z :=
  match Prim2SF x with
  | S754_finite s m e =>
      if 0 <=? e then cond_Zopp s (Z.shiftl (Zpos m) e)
      else Z.shiftr (cond_Zopp s (Zpos m)) (- e)
  | _ => 0
  end.

(** The real number [ceil x] of a finite double, as an integer. *)
Definition ceilZ (x : float) : Z :=
  match Prim2SF x with
  | S754_finite s m e =>
      if 0 <=? e then cond_Zopp s (Z.shiftl (Zpos m) e)
      else - Z.shiftr (- cond_Zopp s (Zpos m)) (- e)
  | _ => 0
  end.

End Double.

(** ** Outcomes of a computation *)

Definition Func := float -> float.

Inductive outcome (A : Type) : Type :=
| Ret (a : A) (calls : N)     (* a result, and the evaluations of [Func]s so far *)
| Undefined                   (* undefined behaviour was reached *)
| OutOfFuel.                  (* still running when the fuel ran out *)

Arguments Ret {A} a calls.
Arguments Undefined {A}.
Arguments OutOfFuel {A}.

Definition M (A : Type) : Type := N -> outcome A.

Definition ret {A} (a : A) : M A := fun c => Ret a c.

Definition bind {A B} (m : M A) (k : A -> M B) : M B :=
  fun c => match m c with
           | Ret a c' => k a c'
           | Undefined => Undefined
           | OutOfFuel => OutOfFuel
           end.

Definition undefined {A} : M A := fun _ => Undefined.
Definition out_of_fuel {A} : M A := fun _ => OutOfFuel.

Definition defined {A} (o : option A) : M A :=
  match o with Some a => ret a | None => undefined end.

(** One evaluation of a caller-supplied function. *)
Definition call (fx : Func) (x : float) : M float := fun c => Ret (fx x) (N.succ c).

Notation "x <- m ;; k" := (bind m (fun x => k))
  (at level 61, m at next level, right associativity).

(** ** The numerical engine *)

(** [round(value, places)]:
    [int prod = std::pow(10, places); return std::floor(value * prod + 0.5) / prod;] *)
Definition round (value : float) (places : N) : M float :=
  prod <- defined (Double.to_int (Double.pow10 places)) ;;
  ret (Double.floor (value * Double.of_Z prod + 0.5) / Double.of_Z prod)%float.

Section Engine.

(** The two headers differ in [LARGE]; [ACCURACY] is initialised from
    [std::log10(LARGE) - 1], converted to [int]: 5 and 3. *)
Variable LARGE : float.
Variable ACCURACY : N.

(** [std::exp], used by [lambertW] only. *)
Variable exp : float -> float.

Definition SMALL : float := (1 / LARGE)%float.

(** [derivative(fx)] is the closure
    [x -> round((fx(x+SMALL) - fx(x)) * LARGE, ACCURACY)].  The closure holds
    [fx] by reference; the embedding holds the function, and the lifetime of
    the captured object is outside it.  The two calls are counted in the
    order they are written; C++ leaves the order open. *)
Definition derivative (fx : Func) : float -> M float :=
  fun x =>
    a <- call fx (x + SMALL)%float ;;
    b <- call fx x ;;
    round ((a - b) * LARGE)%float ACCURACY.

(** [for (double i = lower; i <= bound; i += SMALL) ret += fx(i) * SMALL;] *)
Fixpoint riemann_loop (fuel : nat) (fx : Func) (i bound acc : float) : M float :=
  match fuel with
  | O => out_of_fuel
  | S fuel' =>
      if (i <=? bound)%float then
        y <- call fx i ;;
        riemann_loop fuel' fx (i + SMALL)%float bound (acc + y * SMALL)%float
      else ret acc
  end.

(** [integral_definite] of [include/Calculus.h]. *)
Definition integral_definite (fuel : nat) (fx : Func) (lower upper : float) : M float :=
  acc <- riemann_loop fuel fx lower (abs upper) 0%float ;;
  let sign : Z := if (upper <? 0)%float then -1 else 1 in
  round (acc * Double.of_Z sign)%float ACCURACY.

(** [integral_definite] of the top-level [Calculus.h]: no absolute value,
    no sign. *)
Definition integral_definite_plain (fuel : nat) (fx : Func) (lower upper : float) : M float :=
  acc <- riemann_loop fuel fx lower upper 0%float ;;
  round acc ACCURACY.

Definition integral (fuel : nat) (fx : Func) (valid_value : float) : float -> M float :=
  fun x => integral_definite fuel fx valid_value x.

Definition integral_plain (fuel : nat) (fx : Func) (valid_value : float) : float -> M float :=
  fun x => integral_definite_plain fuel fx valid_value x.

(** [roots]: the recursion is on the unsigned [iter]. *)
Fixpoint roots (fx : Func) (initial : float) (iter : nat) : M float :=
  match iter with
  | O => ret initial
  | S iter' =>
      y <- call fx initial ;;
      d <- derivative fx initial ;;
      roots fx (initial - y / d)%float iter'
  end.

Definition lambertW (value : float) : M float :=
  roots (fun x => x * exp x - value)%float value 150.

(** [iterate]: the recursion is on the double [times], and the recursive
    call is not a tail call: [fx] is applied to what it returns, so every
    step of the count holds a stack frame until the innermost call is back.
    [frames] is the number of frames of [iterate] the stack has room for; a
    call that needs more exhausts the stack and returns nothing, the outcome
    [OutOfFuel]. *)
Fixpoint iterate (frames : nat) (fx : Func) (times value : float) : M float :=
  match frames with
  | O => out_of_fuel
  | S frames' =>
      if (times <=? 0)%float then ret value
      else
        r <- iterate frames' fx (times - 1)%float value ;;
        call fx r
  end.

(** [iterated] of [include/Calculus.h]: the closure holds copies of [fx] and
    of [times] (the capture is [[=]]). *)
Definition iterated (frames : nat) (fx : Func) (times : float) : float -> M float :=
  fun x => iterate frames fx times x.

(** [iterated] of the top-level [Calculus.h]: the closure holds references
    (the capture is [[&]]) to the parameters [fx] and [times] of [iterated],
    and [times] lives in the frame that [iterated] has left when the closure
    is called: every call reads it outside its lifetime. *)
Definition iterated_plain (frames : nat) (fx : Func) (times : float) : float -> M float :=
  fun _ => undefined.

End Engine.

(** The constants of the two headers. *)
Module CalculusTop.
Definition LARGE : float := 1000000%float.
Definition ACCURACY : N := 5.
End CalculusTop.

Module CalculusInclude.
Definition LARGE : float := 10000%float.
Definition ACCURACY : N := 3.
End CalculusInclude.

(** ** The terminal grapher of [include/Calculus.h] *)

Module util.

Import Double.

Record Grapher : Type := mkGrapher {
  mFunctions : list (Func * ascii);
  mTermWidth : Z;
  mTermHeight : Z;
  mXrange : float * float;
  mYrange : float * float
}.

(** The default constructor. *)
Definition Grapher_default : Grapher :=
  {| mFunctions := [];
     mTermWidth := 80;
     mTermHeight := 24;
     mXrange := (of_Z (-10), of_Z 10);
     mYrange := (of_Z (-10), of_Z 10) |}.

Definition setOutputDimensions (g : Grapher) (width height : Z) : Grapher :=
  {| mFunctions := mFunctions g; mTermWidth := width; mTermHeight := height;
     mXrange := mXrange g; mYrange := mYrange g |}.

Definition setDomain (g : Grapher) (from to : float) : Grapher :=
  {| mFunctions := mFunctions g; mTermWidth := mTermWidth g;
     mTermHeight := mTermHeight g; mXrange := (from, to); mYrange := mYrange g |}.

Definition setRange (g : Grapher) (from to : float) : Grapher :=
  {| mFunctions := mFunctions g; mTermWidth := mTermWidth g;
     mTermHeight := mTermHeight g; mXrange := mXrange g; mYrange := (from, to) |}.

Definition addFunction (g : Grapher) (fx : Func) (funcChar : ascii) : Grapher :=
  {| mFunctions := mFunctions g ++ [(fx, funcChar)]; mTermWidth := mTermWidth g;
     mTermHeight := mTermHeight g; mXrange := mXrange g; mYrange := mYrange g |}.

Definition clearFunctions (g : Grapher) : Grapher :=
  {| mFunctions := []; mTermWidth := mTermWidth g;
     mTermHeight := mTermHeight g; mXrange := mXrange g; mYrange := mYrange g |}.

(** A [long] (an [int]) result: signed overflow is undefined. *)
Definition long (z : Z) : M Z :=
  if fits LONG_MIN LONG_MAX z then ret z else undefined.
Definition int (z : Z) : M Z :=
  if fits INT_MIN INT_MAX z then ret z else undefined.

(** [long mMap(long value, long lower, long upper, long newlower, long newupper)]:
    [(value - lower) * (newupper - newlower) / (upper - lower) + newlower]
    in [long] arithmetic; [/] truncates toward zero. *)
Definition mMap (value lower upper newlower newupper : Z) : M Z :=
  a <- long (value - lower) ;;
  b <- long (newupper - newlower) ;;
  p <- long (a * b) ;;
  d <- long (upper - lower) ;;
  q <- (if d =? 0 then undefined else long (Z.quot p d)) ;;
  long (q + newlower).

(** The three lambdas of [display].  Their [double] arguments are converted
    to the [long] parameters of [mMap], and its [long] result back. *)
Definition pixelToX (g : Grapher) (val : Z) : M float :=
  w1 <- int (mTermWidth g - 1) ;;
  x0 <- defined (to_long (fst (mXrange g))) ;;
  x1 <- defined (to_long (snd (mXrange g))) ;;
  r <- mMap val 0 w1 x0 x1 ;;
  ret (of_Z r).

Definition xToPixel (g : Grapher) (val : float) : M Z :=
  v <- defined (to_long val) ;;
  x0 <- defined (to_long (fst (mXrange g))) ;;
  x1 <- defined (to_long (snd (mXrange g))) ;;
  r <- mMap v x0 x1 0 (mTermWidth g) ;;
  ret (long_to_int r).

Definition yToPixel (g : Grapher) (val : float) : M Z :=
  v <- defined (to_long val) ;;
  y0 <- defined (to_long (fst (mYrange g))) ;;
  y1 <- defined (to_long (snd (mYrange g))) ;;
  r <- mMap v y0 y1 (mTermHeight g) 0 ;;
  ret (long_to_int r).

(** [char screen[mTermHeight][mTermWidth]], row-major. *)
Definition screen : Type := list (list ascii).

Definition blank (height width : Z) : screen :=
  repeat (repeat " "%char (Z.to_nat width)) (Z.to_nat height).

Fixpoint set_nth {A} (n : nat) (f : A -> A) (l : list A) : list A :=
  match l, n with
  | [], _ => []
  | x :: l', O => f x :: l'
  | x :: l', S n' => x :: set_nth n' f l'
  end.

(** [screen[row][col] = ch]; a store outside the array is undefined. *)
Definition poke (g : Grapher) (s : screen) (row col : Z) (ch : ascii) : M screen :=
  if fits 0 (mTermHeight g - 1) row && fits 0 (mTermWidth g - 1) col then
    ret (set_nth (Z.to_nat row) (set_nth (Z.to_nat col) (fun _ => ch)) s)
  else undefined.

(** [for (int i = 0; i < n; ++i) body], from [i] on. *)
Fixpoint for_upto {S} (n : nat) (i : Z) (body : Z -> S -> M S) (s : S) : M S :=
  match n with
  | O => ret s
  | Datatypes.S n' => s' <- body i s ;; for_upto n' (i + 1) body s'
  end.

(** [for (int j = last_pixel_y; j != pixel_y; j += step) screen[j][i] = ch;]
    with [n] the number of rows between [j] and [pixel_y]. *)
Fixpoint fill (g : Grapher) (n : nat) (j step i : Z) (ch : ascii) (s : screen) : M screen :=
  match n with
  | O => ret s
  | S n' => s' <- poke g s j i ch ;; fill g n' (j + step) step i ch s'
  end.

(** The body of the loop over the columns, for one function. *)
Definition plot_column (g : Grapher) (pair : Func * ascii) (i : Z)
    (st : screen * Z) : M (screen * Z) :=
  let '(s, last_pixel_y) := st in
  val <- pixelToX g i ;;
  result <- call (fst pair) val ;;
  if ((result <? fst (mYrange g)) || (snd (mYrange g) <? result))%float then ret st
  else
    pixel_y <- yToPixel g result ;;
    s1 <- (if ((pixel_y <? last_pixel_y) || (last_pixel_y <? pixel_y))
                && negb (last_pixel_y =? INT32_MAX)
           then fill g (Z.to_nat (Z.abs (pixel_y - last_pixel_y))) last_pixel_y
                     (if pixel_y <? last_pixel_y then -1 else 1) i (snd pair) s
           else ret s) ;;
    s2 <- poke g s1 pixel_y i (snd pair) ;;
    ret (s2, pixel_y).

Definition plot_function (g : Grapher) (s : screen) (pair : Func * ascii) : M screen :=
  st <- for_upto (Z.to_nat (mTermWidth g)) 0 (plot_column g pair) (s, INT32_MAX) ;;
  ret (fst st).

Fixpoint plot_functions (g : Grapher) (fs : list (Func * ascii)) (s : screen) : M screen :=
  match fs with
  | [] => ret s
  | p :: fs' => s' <- plot_function g s p ;; plot_functions g fs' s'
  end.

Definition serialize (s : screen) : string :=
  string_of_list_ascii
    (List.concat (map (fun row => row ++ ["010"%char]) s)).

(** [display()]: the text it sends to [std::cout].  The screen is an array
    whose bounds are [mTermHeight] and [mTermWidth] as they are when
    [display] runs; a bound that is not positive is undefined. *)
Definition display (g : Grapher) : M string :=
  s0 <- (if (mTermHeight g <=? 0) || (mTermWidth g <=? 0) then undefined
         else ret (blank (mTermHeight g) (mTermWidth g))) ;;
  xaxis <- yToPixel g (of_Z 0) ;;
  yaxis <- xToPixel g (of_Z 0) ;;
  s1 <- (if (0 <=? yaxis) && (yaxis <? mTermWidth g)
         then for_upto (Z.to_nat (mTermHeight g)) 0
                (fun i s => poke g s i yaxis "|"%char) s0
         else ret s0) ;;
  s2 <- (if (0 <=? xaxis) && (xaxis <? mTermHeight g)
         then for_upto (Z.to_nat (mTermWidth g)) 0
                (fun i s => poke g s xaxis i "-"%char) s1
         else ret s1) ;;
  s3 <- plot_functions g (mFunctions g) s2 ;;
  ret (serialize s3).

End util.

(** ** Reference functions for the statements

    The functions the statements compare the code with: each follows the
    words of the specification, as a pure function on doubles. *)

(** "Scale by [10^places], add [0.5], floor, rescale." *)
Definition round_value (value : float) (places : N) : float :=
  (Double.floor (value * Double.of_Z (10 ^ Z.of_N places) + 0.5)
   / Double.of_Z (10 ^ Z.of_N places))%float.

Section Reference.

Variable LARGE : float.
Variable ACCURACY : N.

(** The forward finite difference, scaled by [LARGE] and rounded. *)
Definition derivative_value (fx : Func) (x : float) : float :=
  round_value ((fx (x + SMALL LARGE) - fx x) * LARGE)%float ACCURACY.

(** One step of Newton's method. *)
Definition newton_step (fx : Func) (x : float) : float :=
  (x - fx x / derivative_value fx x)%float.

(** The grid from [i] up to [bound], stepping by [SMALL]. *)
Fixpoint grid (fuel : nat) (i bound : float) : option (list float) :=
  match fuel with
  | O => None
  | S fuel' =>
      if (i <=? bound)%float
      then option_map (cons i) (grid fuel' (i + SMALL LARGE)%float bound)
      else Some []
  end.

(** The sum of [fx] times [SMALL] over a grid, accumulated from the left. *)
Definition riemann_sum (fx : Func) (g : list float) : float :=
  fold_left (fun acc x => (acc + fx x * SMALL LARGE)%float) g 0%float.

End Reference.

(** ** Real values of doubles

    The real number a double stands for, and what it means for an
    operation on doubles to round. *)

(** The power of two of exponent [e]. *)
Definition bpow (e : Z) : R := powerRZ 2 e.

(** The value of the mantissa [m] at the exponent [e]. *)
Definition F2R (m e : Z) : R := (IZR m * bpow e)%R.

(** The values a double can take: an integer of at most 53 bits times a
    power of two not below the least exponent. *)
Definition fmt (a : R) : Prop :=
  exists m e, a = F2R m e /\ Z.abs m <= 2 ^ 53 /\ -1074 <= e.

(** [r] is one of the two doubles that surround [v], and [v] itself when it
    is a double. *)
Definition rounds_to (v r : R) : Prop :=
  forall a, fmt a -> ((a <= v -> a <= r) /\ (v <= a -> r <= a))%R.

(** [x] lies at or after [m * 2^e], before the next multiple of [2^e]; [l]
    tells whether it is that multiple. *)
Definition inb (m e : Z) (l : location) (x : R) : Prop :=
  match l with
  | loc_Exact => x = F2R m e
  | loc_Inexact _ => (F2R m e < x < F2R (m + 1) e)%R
  end.

(** The exponent of the doubles of a given magnitude. *)
Definition fexp64 (e : Z) : Z := Z.max (e - 53) (-1074).

(** The real value of a double; [0] for infinities and NaN. *)
Definition SF2R (x : spec_float) : R :=
  match x with
  | S754_finite s m e => F2R (cond_Zopp s (Zpos m)) e
  | _ => 0%R
  end.

(** Zeros and finite doubles, as opposed to infinities and NaN. *)
Definition SFfinite (x : spec_float) : bool :=
  match x with
  | S754_zero _ | S754_finite _ _ _ => true
  | _ => false
  end.

(** A magnitude with its sign bit. *)
Definition signed (s : bool) (r : R) : R := if s then (- r)%R else r.

(** The largest finite double. *)
Definition max_double : R := F2R (2 ^ 53 - 1) 971.

(** The real value of a primitive double. *)
Definition B2R (x : float) : R := SF2R (Prim2SF x).

(** Comparison of real numbers. *)
Definition Rcompare (x y : R) : comparison :=
  match total_order_T x y with
  | inleft (left _) => Lt
  | inleft (right _) => Eq
  | inright _ => Gt
  end.

(** ** The screen, read

    What the statements on [display] say about a screen and about the
    computations that fill it. *)

(** Every row is there, at its full width. *)
Definition well_sized (g : util.Grapher) (s : util.screen) : Prop :=
  List.length s = Z.to_nat (util.mTermHeight g)
  /\ Forall (fun row => List.length row = Z.to_nat (util.mTermWidth g)) s.

(** The character of the screen at a row and a column. *)
Definition pixel (s : util.screen) (row col : Z) : ascii :=
  nth (Z.to_nat col) (nth (Z.to_nat row) s []) " "%char.

(** A computation that returns the same result from every count of
    evaluations. *)
Definition counter_free {A} (m : M A) : Prop :=
  forall c r c', m c = Ret r c' -> forall d, m d = Ret r d.

(** ** Facts on doubles *)

Lemma to_int_pow10 (p : N) :
  (p <= 9)%N -> Double.to_int (Double.pow10 p) = Some (10 ^ Z.of_N p).
Proof.
  intros Hp.
  assert (H : (p = 0 \/ p = 1 \/ p = 2 \/ p = 3 \/ p = 4 \/ p = 5 \/ p = 6
               \/ p = 7 \/ p = 8 \/ p = 9)%N) by lia.
  repeat (destruct H as [H | H]; [subst p; vm_compute; reflexivity | ]).
  subst p; vm_compute; reflexivity.
Qed.

Lemma is_finite_spec (x : float) :
  is_finite x = match Prim2SF x with
                | S754_zero _ | S754_finite _ _ _ => true
                | _ => false
                end.
Proof.
  unfold is_finite, is_nan, is_infinity.
  rewrite !FloatAxioms.eqb_spec, abs_spec.
  change (Prim2SF infinity) with (S754_infinity false).
  destruct (Prim2SF x) as [s | s | | s m e]; try destruct s; try reflexivity;
    unfold SFeqb, SFcompare, SFabs; rewrite Z.compare_refl, Pos.compare_cont_refl;
    reflexivity.
Qed.

Lemma eqb_zero_spec (d : float) :
  (d =? 0)%float = true -> exists s, Prim2SF d = S754_zero s.
Proof.
  rewrite FloatAxioms.eqb_spec. change (Prim2SF 0) with (S754_zero false).
  destruct (Prim2SF d) as [s | s | | s m e]; try (destruct s; discriminate).
  - intros _. now exists s.
  - discriminate.
Qed.

(** Dividing by a zero never gives a finite double. *)
Lemma div_zero_not_finite (a d : float) :
  (d =? 0)%float = true -> is_finite (a / d) = false.
Proof.
  intros Hd. destruct (eqb_zero_spec d Hd) as [s Hs].
  rewrite is_finite_spec, div_spec, Hs. unfold SF64div, SFdiv.
  destruct (Prim2SF a); reflexivity.
Qed.

(** Subtracting from, or subtracting, a non-finite double gives a non-finite one. *)
Lemma sub_not_finite_l (x q : float) :
  is_finite x = false -> is_finite (x - q) = false.
Proof.
  rewrite !is_finite_spec, sub_spec. unfold SF64sub, SFsub.
  destruct (Prim2SF x) as [s | s | | s m e]; try discriminate; intros _;
    destruct (Prim2SF q) as [s' | s' | | s' m' e'];
    try destruct s; try destruct s'; reflexivity.
Qed.

Lemma sub_not_finite_r (x q : float) :
  is_finite q = false -> is_finite (x - q) = false.
Proof.
  rewrite !is_finite_spec, sub_spec. unfold SF64sub, SFsub.
  destruct (Prim2SF q) as [s' | s' | | s' m' e']; try discriminate; intros _;
    destruct (Prim2SF x) as [s | s | | s m e];
    try destruct s; try destruct s'; reflexivity.
Qed.

(** ** Powers of two *)

Lemma bpow_pos (e : Z) : (0 < bpow e)%R.
Proof. apply powerRZ_lt. lra. Qed.

Lemma bpow_add (a b : Z) : bpow (a + b) = (bpow a * bpow b)%R.
Proof. apply powerRZ_add. lra. Qed.

Lemma bpow_0 : bpow 0 = 1%R.
Proof. reflexivity. Qed.

Lemma bpow_1 : bpow 1 = 2%R.
Proof. unfold bpow. simpl. lra. Qed.

Lemma bpow_succ (e : Z) : bpow (e + 1) = (2 * bpow e)%R.
Proof. rewrite bpow_add, bpow_1. ring. Qed.

Lemma bpow_IZR (e : Z) : 0 <= e -> bpow e = IZR (2 ^ e).
Proof.
  intros He. pattern e. apply natlike_ind; [reflexivity | | exact He].
  intros k Hk IH. unfold Z.succ. rewrite bpow_succ, IH, Z.pow_add_r by lia.
  rewrite mult_IZR. change (2 ^ 1) with 2. simpl (IZR 2). ring.
Qed.

Lemma bpow_le (a b : Z) : a <= b -> (bpow a <= bpow b)%R.
Proof.
  intros H. replace b with (a + (b - a)) by ring.
  rewrite bpow_add, (bpow_IZR (b - a)) by lia.
  assert (0 < 2 ^ (b - a)) by (apply Z.pow_pos_nonneg; lia).
  assert (1 <= 2 ^ (b - a)) by lia.
  apply IZR_le in H1. pose proof (bpow_pos a). nra.
Qed.

Lemma bpow_lt (a b : Z) : a < b -> (bpow a < bpow b)%R.
Proof.
  intros H. apply Rlt_le_trans with (bpow (a + 1)).
  - rewrite bpow_succ. pose proof (bpow_pos a). lra.
  - apply bpow_le. lia.
Qed.

Lemma F2R_shift (m e k : Z) : 0 <= k -> F2R (m * 2 ^ k) e = F2R m (e + k).
Proof.
  intros Hk. unfold F2R. rewrite mult_IZR, bpow_add, (bpow_IZR k Hk). ring.
Qed.

Lemma F2R_le (m1 m2 e : Z) : m1 <= m2 -> (F2R m1 e <= F2R m2 e)%R.
Proof.
  intros H. unfold F2R. apply IZR_le in H. pose proof (bpow_pos e). nra.
Qed.

Lemma F2R_lt (m1 m2 e : Z) : m1 < m2 -> (F2R m1 e < F2R m2 e)%R.
Proof.
  intros H. unfold F2R. apply IZR_lt in H. pose proof (bpow_pos e). nra.
Qed.

Lemma F2R_lt_inv (m1 m2 e : Z) : (F2R m1 e < F2R m2 e)%R -> m1 < m2.
Proof.
  intros H. destruct (Z_lt_le_dec m1 m2) as [Hlt | Hge]; [exact Hlt | ].
  apply (F2R_le _ _ e) in Hge. lra.
Qed.

Lemma F2R_pow (e k : Z) : 0 <= k -> F2R (2 ^ k) e = bpow (e + k).
Proof.
  intros Hk. replace (2 ^ k) with (1 * 2 ^ k) by ring.
  rewrite F2R_shift by exact Hk. unfold F2R. simpl (IZR 1). ring.
Qed.

Lemma F2R_opp (m e : Z) : F2R (- m) e = (- F2R m e)%R.
Proof. unfold F2R. rewrite opp_IZR. ring. Qed.

Lemma fmt_opp (a : R) : fmt a -> fmt (- a).
Proof.
  intros (m & e & -> & Hm & He). exists (- m), e.
  rewrite F2R_opp. repeat split; [lia | exact He].
Qed.

Lemma fmt_0 : fmt 0.
Proof. exists 0, 0. unfold F2R. simpl. split; [ring | lia]. Qed.

Lemma rounds_to_refl (v : R) : rounds_to v v.
Proof. intros a _. split; trivial. Qed.

Lemma rounds_to_opp (v r : R) : rounds_to v r -> rounds_to (- v) (- r).
Proof.
  intros H a Ha. destruct (H (- a)%R (fmt_opp a Ha)) as [H1 H2].
  split; intros; [ assert (- r <= a -> a <= -r)%R by lra | ]; lra.
Qed.

Lemma rounds_to_exact (v r : R) : rounds_to v r -> fmt v -> r = v.
Proof.
  intros H Hv. destruct (H v Hv) as [H1 H2].
  apply Rle_antisym; [apply H2 | apply H1]; lra.
Qed.

Lemma Rabs_le_both (a b : R) : (Rabs a <= b -> - b <= a <= b)%R.
Proof. unfold Rabs. destruct (Rcase_abs a); lra. Qed.

(** A double below the next multiple of [2^e] is at most the previous one,
    when the multiples of [2^e] around [m] are doubles or finer than them. *)
Lemma fmt_grid (a : R) (m e : Z) :
  fmt a -> 0 <= m -> (e = -1074 \/ 2 ^ 52 <= m) ->
  ((a < F2R (m + 1) e -> a <= F2R m e) /\ (F2R m e < a -> F2R (m + 1) e <= a))%R.
Proof.
  intros (ma & ea & -> & Hma & Hea) Hm Hcases.
  destruct (Z_le_gt_dec e ea) as [Hle | Hgt].
  - (* [a] is a multiple of [2^e] *)
    replace ea with (e + (ea - e)) by ring.
    rewrite <- F2R_shift by lia.
    split; intros H; apply F2R_lt_inv in H; apply F2R_le; lia.
  - (* [a] lies below [2^52 * 2^e] *)
    destruct Hcases as [-> | Hm52]; [lia | ].
    assert (Ha : (Rabs (F2R ma ea) <= F2R m e)%R).
    { unfold F2R. rewrite Rabs_mult, (Rabs_pos_eq (bpow ea)) by (left; apply bpow_pos).
      rewrite <- abs_IZR.
      apply Rle_trans with (IZR (2 ^ 53) * bpow (e - 1))%R.
      - apply Rmult_le_compat; [apply IZR_le; lia | left; apply bpow_pos
                                | apply IZR_le; exact Hma | apply bpow_le; lia].
      - replace e with ((e - 1) + 1) at 2 by ring. rewrite bpow_succ.
        apply IZR_le in Hm52. change (2 ^ 53) with (2 * 2 ^ 52).
        rewrite mult_IZR. pose proof (bpow_pos (e - 1)).
        simpl (IZR 2). nra. }
    apply Rabs_le_both in Ha. split; intros H; lra.
Qed.

Lemma rounds_to_grid (x rho : R) (m e : Z) :
  0 <= m -> (e = -1074 \/ 2 ^ 52 <= m) ->
  (F2R m e <= x < F2R (m + 1) e)%R ->
  rho = F2R m e \/ rho = F2R (m + 1) e ->
  (x = F2R m e -> rho = x) ->
  rounds_to x rho.
Proof.
  intros Hm Hcases [Hlo Hhi] Hrho Hexact a Ha.
  destruct (fmt_grid a m e Ha Hm Hcases) as [Hdown Hup].
  assert (Hstep : (F2R m e <= F2R (m + 1) e)%R) by (apply F2R_le; lia).
  split; intros H.
  - assert (a <= F2R m e)%R by (apply Hdown; lra).
    destruct Hrho as [-> | ->]; lra.
  - destruct (Req_dec x (F2R m e)) as [Heq | Hne].
    + rewrite (Hexact Heq). exact H.
    + assert (F2R (m + 1) e <= a)%R by (apply Hup; lra).
      destruct Hrho as [-> | ->]; lra.
Qed.

(** ** Digits *)

Lemma digits2_pos_spec (p : positive) :
  2 ^ (Zpos (digits2_pos p) - 1) <= Zpos p < 2 ^ Zpos (digits2_pos p).
Proof.
  induction p as [p IH | p IH | ]; cbn [digits2_pos].
  - rewrite Pos2Z.inj_succ. unfold Z.succ.
    replace (Z.pos (digits2_pos p) + 1 - 1) with (Z.pos (digits2_pos p) - 1 + 1) by ring.
    rewrite !Z.pow_add_r by lia. change (2 ^ 1) with 2. lia.
  - rewrite Pos2Z.inj_succ. unfold Z.succ.
    replace (Z.pos (digits2_pos p) + 1 - 1) with (Z.pos (digits2_pos p) - 1 + 1) by ring.
    rewrite !Z.pow_add_r by lia. change (2 ^ 1) with 2. lia.
  - simpl. lia.
Qed.

Lemma digits_unique (m d : Z) : 2 ^ (d - 1) <= m < 2 ^ d -> 0 < m -> Zdigits2 m = d.
Proof.
  intros [Hlo Hhi] Hm. destruct m as [| p | p]; try lia.
  cbn [Zdigits2]. pose proof (digits2_pos_spec p) as [Hl Hh].
  set (d' := Z.pos (digits2_pos p)) in *.
  assert (0 < d) by (destruct d; try lia; simpl in Hhi; lia).
  destruct (Z.lt_trichotomy d' d) as [Hlt | [Heq | Hgt]]; [ | exact Heq | ].
  - assert (2 ^ d' <= 2 ^ (d - 1)) by (apply Z.pow_le_mono_r; lia). lia.
  - assert (2 ^ d <= 2 ^ (d' - 1)) by (apply Z.pow_le_mono_r; lia). lia.
Qed.

(** ** Shifting to the right *)

Lemma inb_bounds (m e : Z) (l : location) (x : R) :
  inb m e l x -> (F2R m e <= x < F2R (m + 1) e)%R.
Proof.
  assert (F2R m e < F2R (m + 1) e)%R.
  { unfold F2R. rewrite plus_IZR. pose proof (bpow_pos e). simpl (IZR 1). nra. }
  destruct l; cbn [inb]; intros; lra.
Qed.

Lemma F2R_double (m e : Z) : F2R m (e + 1) = F2R (2 * m) e.
Proof. unfold F2R. rewrite bpow_succ, mult_IZR. simpl (IZR 2). ring. Qed.

Lemma shr_1_inb (mrs : shr_record) (e : Z) (x : R) :
  0 <= shr_m mrs ->
  inb (shr_m mrs) e (loc_of_shr_record mrs) x ->
  inb (shr_m (shr_1 mrs)) (e + 1) (loc_of_shr_record (shr_1 mrs)) x
  /\ 0 <= shr_m (shr_1 mrs).
Proof.
  destruct mrs as [m r s]. cbn [shr_m]. intros Hm H.
  assert (Hb := bpow_pos e).
  destruct m as [| [p | p | ] | p]; try lia;
    destruct r, s; cbn [shr_1 shr_m loc_of_shr_record orb inb] in *;
    rewrite ?F2R_double; unfold F2R in *;
    repeat match goal with
           | |- context [IZR (Z.pos ?q + 1)] => rewrite (plus_IZR (Z.pos q) 1)
           | |- context [IZR (2 * ?q)] => rewrite (mult_IZR 2 q)
           | H : context [IZR (Z.pos ?q~1 + 1)] |- _ => rewrite (plus_IZR (Z.pos q~1) 1) in H
           | H : context [IZR (Z.pos ?q~0 + 1)] |- _ => rewrite (plus_IZR (Z.pos q~0) 1) in H
           end;
    rewrite ?(Pos2Z.inj_xI p), ?(Pos2Z.inj_xO p), ?plus_IZR, ?mult_IZR in *;
    simpl (IZR 0) in *; simpl (IZR 1) in *; simpl (IZR 2) in *;
    (split; [ | lia]); nra.
Qed.

Lemma iter_pos_shr_1_inb (p : positive) :
  forall (mrs : shr_record) (e : Z) (x : R),
    0 <= shr_m mrs ->
    inb (shr_m mrs) e (loc_of_shr_record mrs) x ->
    inb (shr_m (SpecFloat.iter_pos shr_1 p mrs)) (e + Zpos p)
        (loc_of_shr_record (SpecFloat.iter_pos shr_1 p mrs)) x
    /\ 0 <= shr_m (SpecFloat.iter_pos shr_1 p mrs).
Proof.
  induction p as [p IH | p IH | ]; intros mrs e x Hm H; cbn [SpecFloat.iter_pos].
  - destruct (shr_1_inb mrs e x Hm H) as [H1 Hm1].
    destruct (IH _ _ _ Hm1 H1) as [H2 Hm2].
    destruct (IH _ _ _ Hm2 H2) as [H3 Hm3].
    replace (e + Z.pos p~1) with (e + 1 + Z.pos p + Z.pos p) by lia.
    split; assumption.
  - destruct (IH _ _ _ Hm H) as [H2 Hm2].
    destruct (IH _ _ _ Hm2 H2) as [H3 Hm3].
    replace (e + Z.pos p~0) with (e + Z.pos p + Z.pos p) by lia.
    split; assumption.
  - exact (shr_1_inb mrs e x Hm H).
Qed.

Lemma loc_of_shr_record_of_loc (m : Z) (l : location) :
  loc_of_shr_record (shr_record_of_loc m l) = l
  /\ shr_m (shr_record_of_loc m l) = m.
Proof. destruct l as [| []]; split; reflexivity. Qed.

Lemma fexp_64 (e : Z) : fexp prec emax e = fexp64 e.
Proof. reflexivity. Qed.

Lemma shr_fexp_inb (m e : Z) (l : location) (x : R) :
  0 <= m -> inb m e l x ->
  inb (shr_m (fst (shr_fexp prec emax m e l))) (snd (shr_fexp prec emax m e l))
      (loc_of_shr_record (fst (shr_fexp prec emax m e l))) x
  /\ 0 <= shr_m (fst (shr_fexp prec emax m e l))
  /\ snd (shr_fexp prec emax m e l) = Z.max e (fexp64 (Zdigits2 m + e)).
Proof.
  intros Hm H. unfold shr_fexp, shr. rewrite fexp_64.
  destruct (loc_of_shr_record_of_loc m l) as [Hl Hr].
  destruct (fexp64 (Zdigits2 m + e) - e) as [| p | p] eqn:Hn; cbn [fst snd].
  - rewrite Hl, Hr. repeat split; [exact H | exact Hm | lia].
  - destruct (iter_pos_shr_1_inb p (shr_record_of_loc m l) e x) as [H1 H2].
    + rewrite Hr. exact Hm.
    + rewrite Hl, Hr. exact H.
    + repeat split; [exact H1 | exact H2 | lia].
  - rewrite Hl, Hr. repeat split; [exact H | exact Hm | lia].
Qed.

Lemma Zdigits2_spec (m : Z) :
  0 < m -> 2 ^ (Zdigits2 m - 1) <= m < 2 ^ Zdigits2 m /\ 0 < Zdigits2 m.
Proof.
  destruct m as [| p | p]; try lia. intros _. cbn [Zdigits2].
  split; [apply digits2_pos_spec | lia].
Qed.

Lemma F2R_lt_bpow (m e k : Z) : (F2R m e < bpow k)%R -> e <= k -> m < 2 ^ (k - e).
Proof.
  intros H Hek. apply (F2R_lt_inv _ _ e).
  rewrite F2R_pow by lia. replace (e + (k - e)) with k by ring. exact H.
Qed.

(** ** Rounding *)

Lemma F2R_cond_Zopp (s : bool) (m e : Z) : F2R (cond_Zopp s m) e = signed s (F2R m e).
Proof. destruct s; cbn [cond_Zopp signed]; [apply F2R_opp | reflexivity]. Qed.

Lemma signed_0 (s : bool) : signed s 0 = 0%R.
Proof. destruct s; cbn [signed]; ring. Qed.

Lemma round_nearest_even_cases (m : Z) (l : location) :
  (round_nearest_even m l = m \/ round_nearest_even m l = m + 1)
  /\ (l = loc_Exact -> round_nearest_even m l = m).
Proof.
  destruct l as [| []]; cbn [round_nearest_even]; try destruct (Z.even m);
    split; auto; discriminate.
Qed.

Lemma shr_fexp_exact_small (m e : Z) :
  0 <= m < 2 ^ 53 -> -1074 <= e ->
  shr_fexp prec emax m e loc_Exact = (Build_shr_record m false false, e).
Proof.
  intros [Hm0 Hm] He. unfold shr_fexp, shr. rewrite fexp_64. cbn [shr_record_of_loc].
  assert (Hn : fexp64 (Zdigits2 m + e) - e <= 0).
  { unfold fexp64. destruct (Z.eq_dec m 0) as [-> | Hne]; [cbn [Zdigits2]; lia | ].
    destruct (Zdigits2_spec m) as [[Hd1 Hd2] Hd0]; [lia | ].
    assert (Zdigits2 m - 1 < 53).
    { apply (Z.pow_lt_mono_r_iff 2); lia. }
    lia. }
  destruct (fexp64 (Zdigits2 m + e) - e) as [| p | p]; try reflexivity. lia.
Qed.

Lemma shr_fexp_exact_carry (e : Z) :
  -1074 <= e ->
  shr_fexp prec emax (2 ^ 53) e loc_Exact = (Build_shr_record (2 ^ 52) false false, e + 1).
Proof.
  intros He. unfold shr_fexp, shr. rewrite fexp_64. cbn [shr_record_of_loc].
  change (Zdigits2 (2 ^ 53)) with 54.
  replace (fexp64 (54 + e) - e) with 1 by (unfold fexp64; lia).
  reflexivity.
Qed.

Lemma bpow_lt_inv (a b : Z) : (bpow a < bpow b)%R -> a < b.
Proof.
  intros H. destruct (Z_lt_le_dec a b) as [Hlt | Hge]; [exact Hlt | ].
  apply bpow_le in Hge. lra.
Qed.

Lemma bpow_1023_le_max : (bpow 1023 <= max_double)%R.
Proof.
  unfold max_double. replace 1023 with (971 + 52) by ring.
  rewrite <- F2R_pow by lia. apply F2R_le. lia.
Qed.

Lemma max_double_lt : (max_double < bpow 1024)%R.
Proof.
  unfold max_double. replace 1024 with (971 + 53) by ring.
  rewrite <- F2R_pow by lia. apply F2R_lt. lia.
Qed.

Lemma below_max (v : R) : (v < bpow 1023 -> v <= max_double)%R.
Proof. pose proof bpow_1023_le_max. lra. Qed.

Lemma F2R_exp_le (m e1 e2 : Z) : 0 <= m -> e1 <= e2 -> (F2R m e1 <= F2R m e2)%R.
Proof.
  intros Hm He. unfold F2R. apply Rmult_le_compat_l; [apply IZR_le; exact Hm | ].
  apply bpow_le. exact He.
Qed.

Lemma binary_round_aux_faithful (s : bool) (m e : Z) (l : location) (x : R) :
  0 <= m -> inb m e l x -> e <= fexp64 (Zdigits2 m + e) -> (x <= max_double)%R ->
  valid_binary (binary_round_aux prec emax s m e l) = true
  /\ SFfinite (binary_round_aux prec emax s m e l) = true
  /\ exists rho, SF2R (binary_round_aux prec emax s m e l) = signed s rho
                 /\ rounds_to x rho.
Proof.
  intros Hm Hx He Hbig. unfold binary_round_aux.
  destruct (shr_fexp_inb m e l x Hm Hx) as (H1 & Hm1 & He1).
  destruct (shr_fexp prec emax m e l) as [mrs' e'] eqn:Hshr. cbn [fst snd] in *.
  set (m' := shr_m mrs') in *. set (l' := loc_of_shr_record mrs') in *.
  assert (He' : e' = fexp64 (Zdigits2 m + e)) by lia.
  pose proof (inb_bounds _ _ _ _ H1) as [Hlo Hhi].
  pose proof (inb_bounds _ _ _ _ Hx) as [Hlo0 Hhi0].
  assert (HP : (e' = -1074 \/ 2 ^ 52 <= m') /\ m' < 2 ^ 53).
  { destruct (Z.eq_dec m 0) as [-> | Hm0].
    - cbn [Zdigits2] in *. unfold fexp64 in *.
      assert (e' = -1074) by lia. split; [left; assumption | ].
      assert (m' < 2 ^ (e' - e')).
      { apply F2R_lt_bpow; [ | lia]. apply Rle_lt_trans with x; [exact Hlo | ].
        apply Rlt_le_trans with (F2R (0 + 1) e); [exact Hhi0 | ].
        unfold F2R. simpl (IZR (0 + 1)). rewrite Rmult_1_l. apply bpow_le. lia. }
      rewrite Z.sub_diag in H0. simpl in H0. lia.
    - destruct (Zdigits2_spec m) as [[Hd1 Hd2] Hd0]; [lia | ].
      set (d := Zdigits2 m) in *.
      assert (Hxlo : (bpow (e + (d - 1)) <= x)%R).
      { rewrite <- F2R_pow by lia. apply Rle_trans with (F2R m e); [ | exact Hlo0].
        apply F2R_le. exact Hd1. }
      assert (Hxhi : (x < bpow (e + d))%R).
      { rewrite <- F2R_pow by lia. apply Rlt_le_trans with (F2R (m + 1) e); [exact Hhi0 | ].
        apply F2R_le. lia. }
      unfold fexp64 in He'. split.
      + destruct (Z.eq_dec e' (-1074)) as [Heq | Hne]; [left; exact Heq | right].
        assert (e' = d + e - 53) by lia.
        assert (2 ^ 52 < m' + 1); [ | lia].
        apply (F2R_lt_inv _ _ e'). rewrite F2R_pow by lia.
        replace (e' + 52) with (e + (d - 1)) by lia. lra.
      + destruct (Z_le_gt_dec (e + d) e') as [Hlow | Hhigh].
        * assert (m' < 2 ^ (e' - e')).
          { apply F2R_lt_bpow; [ | lia]. pose proof (bpow_le _ _ Hlow). lra. }
          rewrite Z.sub_diag in H. simpl in H. lia.
        * assert (m' < 2 ^ (e + d - e')).
          { apply F2R_lt_bpow; [lra | lia]. }
          assert (2 ^ (e + d - e') <= 2 ^ 53) by (apply Z.pow_le_mono_r; lia).
          lia. }
  destruct HP as [HP1 HU1].
  assert (He'min : -1074 <= e') by (unfold fexp64 in He'; lia).
  assert (He'max : 2 ^ 52 <= m' -> e' <= 971).
  { intros H52. assert (e' + 52 < 1024); [ | lia].
    apply bpow_lt_inv. rewrite <- F2R_pow by lia. pose proof max_double_lt.
    apply Rle_lt_trans with (F2R m' e'); [apply F2R_le; exact H52 | lra]. }
  destruct (round_nearest_even_cases m' l') as [Hcases Hexact].
  set (m'' := round_nearest_even m' l') in *.
  assert (Hgrid : forall rho, rho = F2R m'' e' -> rounds_to x rho).
  { intros rho ->. apply (rounds_to_grid x _ m' e' Hm1 HP1); [lra | | ].
    - destruct Hcases as [-> | ->]; auto.
    - intros Heq. destruct l' eqn:Hl'.
      + rewrite (Hexact eq_refl). symmetry. exact Heq.
      + cbn [inb] in H1. lra. }
  destruct (Z_lt_le_dec m'' (2 ^ 53)) as [Hsmall | Hcarry].
  - rewrite shr_fexp_exact_small by lia. cbn [shr_m].
    destruct m'' as [| p | p] eqn:Hm''; [ | | lia].
    + cbn [valid_binary SFfinite SF2R]. repeat split. exists 0%R.
      split; [symmetry; apply signed_0 | ]. apply Hgrid. unfold F2R. simpl. ring.
    + assert (He971 : e' <= 971).
      { destruct HP1 as [-> | H52]; [lia | ]. specialize (He'max H52). lia. }
      replace (e' <=? emax - prec) with true by (symmetry; apply Z.leb_le; exact He971).
      cbn [valid_binary SFfinite SF2R]. repeat split.
      * unfold SpecFloat.bounded, SpecFloat.canonical_mantissa. rewrite fexp_64.
        apply andb_true_intro. split; [ | apply Z.leb_le; exact He971].
        apply Z.eqb_eq. unfold fexp64.
        destruct HP1 as [-> | H52].
        -- destruct (Zdigits2_spec (Z.pos p)) as [[Hd1 Hd2] Hd0]; [lia | ].
           cbn [Zdigits2] in Hd1.
           assert (Z.pos (digits2_pos p) - 1 < 53)
             by (apply (Z.pow_lt_mono_r_iff 2); lia).
           lia.
        -- assert (Zdigits2 (Z.pos p) = 53) by (apply digits_unique; lia).
           cbn [Zdigits2] in H. rewrite H. lia.
      * exists (F2R (Z.pos p) e'). split; [apply F2R_cond_Zopp | apply Hgrid; reflexivity].
  - assert (Hm''53 : m'' = 2 ^ 53) by lia.
    assert (H52 : 2 ^ 52 <= m') by lia. specialize (He'max H52).
    assert (He'970 : e' < 971).
    { destruct (Z_lt_le_dec e' 971) as [Hlt | Hge]; [exact Hlt | exfalso].
      assert (Hm'53 : m' = 2 ^ 53 - 1) by lia.
      destruct l' eqn:Hl'; [rewrite (Hexact eq_refl) in Hm''53; lia | ].
      cbn [inb] in H1. rewrite Hm'53 in H1.
      pose proof (F2R_exp_le (2 ^ 53 - 1) 971 e' ltac:(lia) Hge).
      unfold max_double in Hbig. lra. }
    rewrite Hm''53, shr_fexp_exact_carry by exact He'min. cbn [shr_m].
    change (2 ^ 52) with (Z.pos (2 ^ 52)%positive).
    replace (e' + 1 <=? emax - prec) with true
      by (symmetry; apply Z.leb_le; change (emax - prec) with 971; lia).
    cbn [valid_binary SFfinite SF2R]. repeat split.
    + unfold SpecFloat.bounded, SpecFloat.canonical_mantissa. rewrite fexp_64.
      apply andb_true_intro. split; [ | apply Z.leb_le; change (emax - prec) with 971; lia].
      apply Z.eqb_eq. change (Z.pos (digits2_pos (2 ^ 52))) with 53. unfold fexp64. lia.
    + exists (F2R (2 ^ 52) (e' + 1)). split; [apply F2R_cond_Zopp | ].
      apply Hgrid. rewrite Hm''53, F2R_double. reflexivity.
Qed.

Lemma pos_iter_xO (p k : positive) : Z.pos (Pos.iter xO p k) = Z.pos p * 2 ^ Z.pos k.
Proof.
  induction k as [| k IH] using Pos.peano_ind.
  - cbn [Pos.iter]. rewrite Pos2Z.inj_xO. change (2 ^ 1) with 2. ring.
  - rewrite Pos.iter_succ, Pos2Z.inj_xO, IH, Pos2Z.inj_succ, Z.pow_succ_r by lia. ring.
Qed.

Lemma shl_align_spec (mx : positive) (ex ex' : Z) :
  snd (shl_align mx ex ex') = Z.min ex ex'
  /\ Z.pos (fst (shl_align mx ex ex')) = Z.pos mx * 2 ^ (ex - Z.min ex ex').
Proof.
  unfold shl_align. destruct (ex' - ex) as [| d | d] eqn:Hd; cbn [fst snd].
  - replace (Z.min ex ex') with ex by lia. rewrite Z.sub_diag. simpl (2 ^ 0). lia.
  - replace (Z.min ex ex') with ex by lia. rewrite Z.sub_diag. simpl (2 ^ 0). lia.
  - replace (Z.min ex ex') with ex' by lia. split; [reflexivity | ].
    rewrite pos_iter_xO. f_equal. f_equal. lia.
Qed.

Lemma shl_align_value (mx : positive) (ex ex' : Z) :
  F2R (Z.pos (fst (shl_align mx ex ex'))) (Z.min ex ex') = F2R (Z.pos mx) ex.
Proof.
  destruct (shl_align_spec mx ex ex') as [_ ->].
  rewrite F2R_shift by lia. f_equal. lia.
Qed.

Lemma binary_round_faithful (s : bool) (p : positive) (e : Z) :
  (F2R (Z.pos p) e <= max_double)%R ->
  valid_binary (binary_round prec emax s p e) = true
  /\ SFfinite (binary_round prec emax s p e) = true
  /\ exists rho, SF2R (binary_round prec emax s p e) = signed s rho
                 /\ rounds_to (F2R (Z.pos p) e) rho.
Proof.
  intros Hbig. unfold binary_round. rewrite fexp_64.
  set (e2 := fexp64 (Z.pos (digits2_pos p) + e)).
  destruct (shl_align_spec p e e2) as [He Hm].
  pose proof (shl_align_value p e e2) as Hv.
  destruct (shl_align p e e2) as [mz ez]. cbn [fst snd] in *. subst ez.
  apply binary_round_aux_faithful; [lia | cbn [inb]; symmetry; exact Hv | | exact Hbig].
  destruct (Zdigits2_spec (Z.pos p)) as [[Hd1 Hd2] Hd0]; [lia | ].
  cbn [Zdigits2] in Hd1, Hd2, Hd0.
  set (d := Z.pos (digits2_pos p)) in *.
  assert (Hk : 0 <= e - Z.min e e2) by lia.
  assert (Hdig : Zdigits2 (Z.pos mz) = d + (e - Z.min e e2)).
  { apply digits_unique; [ | lia]. rewrite Hm.
    replace (d + (e - Z.min e e2) - 1) with ((d - 1) + (e - Z.min e e2)) by ring.
    rewrite !Z.pow_add_r by lia.
    assert (0 < 2 ^ (e - Z.min e e2)) by (apply Z.pow_pos_nonneg; lia).
    nia. }
  rewrite Hdig. replace (d + (e - Z.min e e2) + Z.min e e2) with (d + e) by ring.
  fold e2. lia.
Qed.

Lemma binary_normalize_faithful (m e : Z) (szero : bool) :
  (Rabs (F2R m e) <= max_double)%R ->
  valid_binary (binary_normalize prec emax m e szero) = true
  /\ SFfinite (binary_normalize prec emax m e szero) = true
  /\ rounds_to (F2R m e) (SF2R (binary_normalize prec emax m e szero)).
Proof.
  intros Hbig. destruct m as [| p | p]; cbn [binary_normalize].
  - split; [reflexivity | split; [reflexivity | ]].
    cbn [SF2R]. unfold F2R. simpl (IZR 0). rewrite Rmult_0_l.
    apply rounds_to_refl.
  - rewrite Rabs_pos_eq in Hbig
      by (unfold F2R; pose proof (bpow_pos e); assert (0 < IZR (Z.pos p))%R
            by (apply IZR_lt; lia); nra).
    destruct (binary_round_faithful false p e Hbig) as (Hv & Hf & rho & Hr & Hrho).
    split; [exact Hv | split; [exact Hf | ]]. rewrite Hr. exact Hrho.
  - change (Z.neg p) with (- Z.pos p) in *. rewrite F2R_opp, Rabs_Ropp in Hbig.
    rewrite Rabs_pos_eq in Hbig
      by (unfold F2R; pose proof (bpow_pos e); assert (0 < IZR (Z.pos p))%R
            by (apply IZR_lt; lia); nra).
    destruct (binary_round_faithful true p e Hbig) as (Hv & Hf & rho & Hr & Hrho).
    split; [exact Hv | split; [exact Hf | ]]. rewrite Hr, F2R_opp. cbn [signed].
    apply rounds_to_opp. exact Hrho.
Qed.

(** ** Sums and differences *)

Lemma SF2R_finite (s : bool) (m : positive) (e : Z) :
  SF2R (S754_finite s m e) = signed s (F2R (Z.pos m) e).
Proof. cbn [SF2R]. apply F2R_cond_Zopp. Qed.

Lemma F2R_plus (a b e : Z) : F2R (a + b) e = (F2R a e + F2R b e)%R.
Proof. unfold F2R. rewrite plus_IZR. ring. Qed.

Lemma F2R_minus (a b e : Z) : F2R (a - b) e = (F2R a e - F2R b e)%R.
Proof. unfold F2R. rewrite minus_IZR. ring. Qed.

Lemma aligned_value (s : bool) (m : positive) (e e' : Z) :
  F2R (cond_Zopp s (Z.pos (fst (shl_align m e (Z.min e e'))))) (Z.min e e')
  = SF2R (S754_finite s m e).
Proof.
  rewrite F2R_cond_Zopp, SF2R_finite. f_equal.
  pose proof (shl_align_value m e (Z.min e e')) as H.
  replace (Z.min e (Z.min e e')) with (Z.min e e') in H by lia. exact H.
Qed.

Lemma SFsub_faithful (x y : spec_float) :
  SFfinite x = true -> SFfinite y = true ->
  (Rabs (SF2R x - SF2R y) <= max_double)%R ->
  SFfinite (SF64sub x y) = true /\ rounds_to (SF2R x - SF2R y) (SF2R (SF64sub x y)).
Proof.
  intros Hx Hy Hbig. unfold SF64sub, SFsub.
  destruct x as [sx | sx | | sx mx ex]; try discriminate;
    destruct y as [sy | sy | | sy my ey]; try discriminate.
  - split; [destruct sx, sy; reflexivity | ].
    replace (SF2R (S754_zero sx) - SF2R (S754_zero sy))%R with 0%R by (cbn [SF2R]; ring).
    destruct sx, sy; apply rounds_to_refl.
  - split; [reflexivity | ].
    replace (SF2R (S754_zero sx) - SF2R (S754_finite sy my ey))%R
      with (SF2R (S754_finite (negb sy) my ey))
      by (rewrite !SF2R_finite; cbn [SF2R]; destruct sy; cbn [negb signed]; ring).
    apply rounds_to_refl.
  - split; [reflexivity | ].
    replace (SF2R (S754_finite sx mx ex) - SF2R (S754_zero sy))%R
      with (SF2R (S754_finite sx mx ex)) by (cbn [SF2R]; ring).
    apply rounds_to_refl.
  - set (ez := Z.min ex ey).
    assert (Hval : F2R (cond_Zopp sx (Z.pos (fst (shl_align mx ex ez)))
                        - cond_Zopp sy (Z.pos (fst (shl_align my ey ez)))) ez
                   = (SF2R (S754_finite sx mx ex) - SF2R (S754_finite sy my ey))%R).
    { rewrite F2R_minus. unfold ez. rewrite aligned_value.
      rewrite (Z.min_comm ex ey), aligned_value. reflexivity. }
    rewrite <- Hval in Hbig |- *.
    destruct (binary_normalize_faithful _ ez false Hbig) as (_ & Hf & Hr).
    split; assumption.
Qed.

Lemma SFadd_faithful (x y : spec_float) :
  SFfinite x = true -> SFfinite y = true ->
  (Rabs (SF2R x + SF2R y) <= max_double)%R ->
  SFfinite (SF64add x y) = true /\ rounds_to (SF2R x + SF2R y) (SF2R (SF64add x y)).
Proof.
  intros Hx Hy Hbig. unfold SF64add, SFadd.
  destruct x as [sx | sx | | sx mx ex]; try discriminate;
    destruct y as [sy | sy | | sy my ey]; try discriminate.
  - split; [destruct sx, sy; reflexivity | ].
    replace (SF2R (S754_zero sx) + SF2R (S754_zero sy))%R with 0%R by (cbn [SF2R]; ring).
    destruct sx, sy; apply rounds_to_refl.
  - split; [reflexivity | ].
    replace (SF2R (S754_zero sx) + SF2R (S754_finite sy my ey))%R
      with (SF2R (S754_finite sy my ey)) by (cbn [SF2R]; ring).
    apply rounds_to_refl.
  - split; [reflexivity | ].
    replace (SF2R (S754_finite sx mx ex) + SF2R (S754_zero sy))%R
      with (SF2R (S754_finite sx mx ex)) by (cbn [SF2R]; ring).
    apply rounds_to_refl.
  - set (ez := Z.min ex ey).
    assert (Hval : F2R (cond_Zopp sx (Z.pos (fst (shl_align mx ex ez)))
                        + cond_Zopp sy (Z.pos (fst (shl_align my ey ez)))) ez
                   = (SF2R (S754_finite sx mx ex) + SF2R (S754_finite sy my ey))%R).
    { rewrite F2R_plus. unfold ez. rewrite aligned_value.
      rewrite (Z.min_comm ex ey), aligned_value. reflexivity. }
    rewrite <- Hval in Hbig |- *.
    destruct (binary_normalize_faithful _ ez false Hbig) as (_ & Hf & Hr).
    split; assumption.
Qed.

(** ** Doubles as real numbers *)

Lemma is_finite_SF (x : float) : is_finite x = SFfinite (Prim2SF x).
Proof. rewrite is_finite_spec. destruct (Prim2SF x); reflexivity. Qed.

Lemma valid_finite_bounds (s : bool) (m : positive) (e : Z) :
  valid_binary (S754_finite s m e) = true ->
  Z.pos m < 2 ^ 53 /\ -1074 <= e <= 971 /\ (e = -1074 \/ 2 ^ 52 <= Z.pos m).
Proof.
  cbn [valid_binary]. unfold SpecFloat.bounded, SpecFloat.canonical_mantissa.
  rewrite fexp_64. intros H. apply andb_prop in H as [Hc He].
  apply Z.eqb_eq in Hc. apply Z.leb_le in He. change (emax - prec) with 971 in He.
  pose proof (digits2_pos_spec m) as [Hd1 Hd2].
  set (d := Z.pos (digits2_pos m)) in *. unfold fexp64 in Hc.
  assert (Hd53 : d <= 53) by lia.
  assert (2 ^ d <= 2 ^ 53) by (apply Z.pow_le_mono_r; lia).
  repeat split; try lia.
  destruct (Z.eq_dec e (-1074)) as [Heq | Hne]; [left; exact Heq | right].
  assert (d = 53) by lia. subst d. rewrite H0 in Hd1. exact Hd1.
Qed.

Lemma fmt_SF2R (x : spec_float) : valid_binary x = true -> fmt (SF2R x).
Proof.
  destruct x as [s | s | | s m e]; intros Hv; try exact fmt_0.
  destruct (valid_finite_bounds s m e Hv) as (Hm & He & _).
  exists (cond_Zopp s (Z.pos m)), e. cbn [SF2R].
  repeat split; [destruct s; cbn [cond_Zopp]; lia | lia].
Qed.

Lemma fmt_B2R (x : float) : fmt (B2R x).
Proof. apply fmt_SF2R, Prim2SF_valid. Qed.

Lemma sub_faithful (x y : float) :
  is_finite x = true -> is_finite y = true ->
  (Rabs (B2R x - B2R y) < bpow 1023)%R ->
  is_finite (x - y) = true /\ rounds_to (B2R x - B2R y) (B2R (x - y)).
Proof.
  rewrite !is_finite_SF. unfold B2R. rewrite sub_spec. intros Hx Hy Hbig.
  apply SFsub_faithful; [exact Hx | exact Hy | apply below_max; exact Hbig].
Qed.

Lemma add_faithful (x y : float) :
  is_finite x = true -> is_finite y = true ->
  (Rabs (B2R x + B2R y) < bpow 1023)%R ->
  is_finite (x + y) = true /\ rounds_to (B2R x + B2R y) (B2R (x + y)).
Proof.
  rewrite !is_finite_SF. unfold B2R. rewrite add_spec. intros Hx Hy Hbig.
  apply SFadd_faithful; [exact Hx | exact Hy | apply below_max; exact Hbig].
Qed.

(** Comparison with zero. *)
Lemma leb_zero_spec (t : float) :
  is_finite t = true ->
  (t <=? 0)%float = (if Rle_dec (B2R t) 0 then true else false).
Proof.
  rewrite is_finite_SF, FloatAxioms.leb_spec. unfold B2R.
  change (Prim2SF 0) with (S754_zero false).
  destruct (Prim2SF t) as [s | s | | s m e]; try discriminate; intros _.
  - cbn [SF2R]. destruct (Rle_dec 0 0) as [_ | H]; [reflexivity | lra].
  - rewrite SF2R_finite.
    assert (0 < F2R (Z.pos m) e)%R.
    { unfold F2R. pose proof (bpow_pos e). assert (0 < IZR (Z.pos m))%R by (apply IZR_lt; lia).
      nra. }
    destruct s; cbn [signed SFleb SFcompare];
      match goal with |- context [Rle_dec ?a ?b] => destruct (Rle_dec a b) end;
      try reflexivity; lra.
Qed.

(** [ceilZ] is the ceiling. *)
Lemma ceilZ_spec (t : float) :
  (IZR (Double.ceilZ t) - 1 < B2R t <= IZR (Double.ceilZ t))%R.
Proof.
  unfold Double.ceilZ, B2R.
  destruct (Prim2SF t) as [s | s | | s m e]; cbn [SF2R]; try (simpl; lra).
  destruct (Z.leb_spec 0 e) as [He | He].
  - rewrite Z.shiftl_mul_pow2 by exact He.
    replace (cond_Zopp s (Z.pos m * 2 ^ e)) with (cond_Zopp s (Z.pos m) * 2 ^ e)
      by (destruct s; cbn [cond_Zopp]; ring).
    unfold F2R. rewrite mult_IZR, (bpow_IZR e He). lra.
  - set (a := - cond_Zopp s (Z.pos m)).
    replace (cond_Zopp s (Z.pos m)) with (- a) by (unfold a; ring).
    rewrite Z.shiftr_div_pow2 by lia.
    assert (Hk : 0 < 2 ^ (- e)) by (apply Z.pow_pos_nonneg; lia).
    pose proof (Z.div_mod a (2 ^ (- e)) ltac:(lia)) as Hdm.
    pose proof (Z.mod_pos_bound a (2 ^ (- e)) Hk) as Hmod.
    set (q := a / 2 ^ (- e)) in *. set (r := a mod 2 ^ (- e)) in *.
    assert (Hb : (bpow e * IZR (2 ^ (- e)) = 1)%R).
    { rewrite <- (bpow_IZR (- e)) by lia. rewrite <- bpow_add.
      replace (e + - e) with 0 by ring. reflexivity. }
    unfold F2R. rewrite !opp_IZR. rewrite Hdm, plus_IZR, mult_IZR.
    assert (0 <= IZR r < IZR (2 ^ (- e)))%R by (split; [apply IZR_le | apply IZR_lt]; lia).
    pose proof (bpow_pos e).
    assert (Hr1 : (0 <= IZR r * bpow e)%R) by nra.
    assert (Hr2 : (IZR r * bpow e < 1)%R) by nra.
    replace (- (IZR (2 ^ (- e)) * IZR q + IZR r) * bpow e)%R
      with (- IZR q * (bpow e * IZR (2 ^ (- e))) - IZR r * bpow e)%R by ring.
    rewrite Hb. lra.
Qed.


(** ** Order *)

Lemma Rcompare_spec (x y : R) :
  CompareSpec (x = y) (x < y)%R (y < x)%R (Rcompare x y).
Proof.
  unfold Rcompare. destruct (total_order_T x y) as [[H | H] | H]; constructor; assumption.
Qed.

Lemma Rcompare_Lt (x y : R) : (x < y)%R -> Rcompare x y = Lt.
Proof. intros H. destruct (Rcompare_spec x y); [ | reflexivity | ]; lra. Qed.

Lemma Rcompare_Eq (x y : R) : x = y -> Rcompare x y = Eq.
Proof. intros H. destruct (Rcompare_spec x y); [reflexivity | | ]; lra. Qed.

Lemma Rcompare_Gt (x y : R) : (y < x)%R -> Rcompare x y = Gt.
Proof. intros H. destruct (Rcompare_spec x y); [ | | reflexivity]; lra. Qed.

Lemma F2R_pos (m : positive) (e : Z) : (0 < F2R (Z.pos m) e)%R.
Proof.
  unfold F2R. pose proof (bpow_pos e).
  assert (0 < IZR (Z.pos m))%R by (apply IZR_lt; lia). nra.
Qed.

(** A double with the smaller exponent is the smaller one. *)
Lemma valid_exponent_lt (s1 s2 : bool) (m1 m2 : positive) (e1 e2 : Z) :
  valid_binary (S754_finite s1 m1 e1) = true ->
  valid_binary (S754_finite s2 m2 e2) = true ->
  e1 < e2 -> (F2R (Z.pos m1) e1 < F2R (Z.pos m2) e2)%R.
Proof.
  intros H1 H2 He.
  destruct (valid_finite_bounds _ _ _ H1) as (Hm1 & He1 & _).
  destruct (valid_finite_bounds _ _ _ H2) as (Hm2 & He2 & Hn2).
  destruct Hn2 as [-> | Hn2]; [lia | ].
  apply Rlt_le_trans with (F2R (2 ^ 53) e1); [apply F2R_lt; exact Hm1 | ].
  apply Rle_trans with (F2R (2 ^ 52) e2); [ | apply F2R_le; exact Hn2].
  rewrite !F2R_pow by lia. apply bpow_le. lia.
Qed.

Lemma compare_pos_spec (s1 s2 : bool) (m1 m2 : positive) (e1 e2 : Z) :
  valid_binary (S754_finite s1 m1 e1) = true ->
  valid_binary (S754_finite s2 m2 e2) = true ->
  match e1 ?= e2 with
  | Lt => Lt
  | Gt => Gt
  | Eq => Pos.compare_cont Eq m1 m2
  end = Rcompare (F2R (Z.pos m1) e1) (F2R (Z.pos m2) e2).
Proof.
  intros H1 H2. symmetry. destruct (Z.compare_spec e1 e2) as [-> | He | He].
  - change (Pos.compare_cont Eq m1 m2) with (Pos.compare m1 m2).
    destruct (Pos.compare_spec m1 m2) as [-> | Hm | Hm].
    + apply Rcompare_Eq. reflexivity.
    + apply Rcompare_Lt, F2R_lt. lia.
    + apply Rcompare_Gt, F2R_lt. lia.
  - apply Rcompare_Lt. exact (valid_exponent_lt s1 s2 m1 m2 e1 e2 H1 H2 He).
  - apply Rcompare_Gt. exact (valid_exponent_lt s2 s1 m2 m1 e2 e1 H2 H1 He).
Qed.

Lemma SFcompare_spec (x y : spec_float) :
  valid_binary x = true -> valid_binary y = true ->
  SFfinite x = true -> SFfinite y = true ->
  SFcompare x y = Some (Rcompare (SF2R x) (SF2R y)).
Proof.
  intros Hvx Hvy Hx Hy.
  destruct x as [sx | sx | | sx mx ex]; try discriminate;
    destruct y as [sy | sy | | sy my ey]; try discriminate;
    cbn [SFcompare]; rewrite ?SF2R_finite; cbn [SF2R]; f_equal; symmetry.
  - apply Rcompare_Eq. reflexivity.
  - pose proof (F2R_pos my ey).
    destruct sy; cbn [signed]; [apply Rcompare_Gt | apply Rcompare_Lt]; lra.
  - pose proof (F2R_pos mx ex).
    destruct sx; cbn [signed]; [apply Rcompare_Lt | apply Rcompare_Gt]; lra.
  - pose proof (F2R_pos mx ex). pose proof (F2R_pos my ey).
    destruct sx, sy; cbn [signed].
    + destruct (Z.compare_spec ex ey) as [-> | He | He].
      * change (Pos.compare_cont Eq mx my) with (Pos.compare mx my).
        destruct (Pos.compare_spec mx my) as [-> | Hm | Hm]; cbn [CompOpp].
        -- apply Rcompare_Eq. reflexivity.
        -- apply Rcompare_Gt. assert (F2R (Z.pos mx) ey < F2R (Z.pos my) ey)%R
             by (apply F2R_lt; lia). lra.
        -- apply Rcompare_Lt. assert (F2R (Z.pos my) ey < F2R (Z.pos mx) ey)%R
             by (apply F2R_lt; lia). lra.
      * apply Rcompare_Gt.
        pose proof (valid_exponent_lt true true mx my ex ey Hvx Hvy He). lra.
      * apply Rcompare_Lt.
        pose proof (valid_exponent_lt true true my mx ey ex Hvy Hvx He). lra.
    + apply Rcompare_Lt; lra.
    + apply Rcompare_Gt; lra.
    + symmetry. exact (compare_pos_spec false false mx my ex ey Hvx Hvy).
Qed.

Lemma leb_spec_R (x y : float) :
  is_finite x = true -> is_finite y = true ->
  (x <=? y)%float = (if Rle_dec (B2R x) (B2R y) then true else false).
Proof.
  rewrite !is_finite_SF. intros Hx Hy.
  rewrite FloatAxioms.leb_spec. unfold SFleb, B2R.
  rewrite (SFcompare_spec _ _ (Prim2SF_valid x) (Prim2SF_valid y) Hx Hy).
  destruct (Rcompare_spec (SF2R (Prim2SF x)) (SF2R (Prim2SF y)));
    destruct (Rle_dec (SF2R (Prim2SF x)) (SF2R (Prim2SF y))); try reflexivity; lra.
Qed.

Lemma leb_true_R (x y : float) :
  is_finite x = true -> is_finite y = true ->
  (x <=? y)%float = true -> (B2R x <= B2R y)%R.
Proof.
  intros Hx Hy. rewrite (leb_spec_R x y Hx Hy).
  destruct (Rle_dec (B2R x) (B2R y)); [trivial | discriminate].
Qed.


(** ** Products *)

Lemma Zdigits2_lower (m k : Z) : 0 <= k -> 2 ^ k <= m -> k + 1 <= Zdigits2 m.
Proof.
  intros Hk Hm. assert (0 < 2 ^ k) by (apply Z.pow_pos_nonneg; lia).
  destruct (Zdigits2_spec m) as [[_ Hd] Hd0]; [lia | ].
  assert (k < Zdigits2 m); [ | lia].
  apply (Z.pow_lt_mono_r_iff 2); lia.
Qed.

Lemma SFmul_faithful (x y : spec_float) :
  valid_binary x = true -> valid_binary y = true ->
  SFfinite x = true -> SFfinite y = true ->
  (Rabs (SF2R x * SF2R y) <= max_double)%R ->
  SFfinite (SF64mul x y) = true /\ rounds_to (SF2R x * SF2R y) (SF2R (SF64mul x y)).
Proof.
  intros Hvx Hvy Hx Hy Hbig. unfold SF64mul, SFmul.
  destruct x as [sx | sx | | sx mx ex]; try discriminate;
    destruct y as [sy | sy | | sy my ey]; try discriminate;
    try (split; [reflexivity | ];
         match goal with
         | |- rounds_to ?v _ => replace v with 0%R by (cbn [SF2R]; ring)
         end; apply rounds_to_refl).
  destruct (valid_finite_bounds _ _ _ Hvx) as (Hmx & Hex & Hnx).
  destruct (valid_finite_bounds _ _ _ Hvy) as (Hmy & Hey & Hny).
  rewrite !SF2R_finite in *.
  assert (Hprod : (F2R (Z.pos mx) ex * F2R (Z.pos my) ey
                   = F2R (Z.pos (mx * my)) (ex + ey))%R).
  { unfold F2R. rewrite Pos2Z.inj_mul, mult_IZR, bpow_add. ring. }
  assert (Hsign : (signed sx (F2R (Z.pos mx) ex) * signed sy (F2R (Z.pos my) ey)
                   = signed (xorb sx sy) (F2R (Z.pos (mx * my)) (ex + ey)))%R).
  { rewrite <- Hprod. destruct sx, sy; cbn [signed xorb]; ring. }
  rewrite Hsign in *.
  pose proof (F2R_pos (mx * my) (ex + ey)) as Hpos.
  assert (Hbig' : (F2R (Z.pos (mx * my)) (ex + ey) <= max_double)%R).
  { destruct (xorb sx sy); cbn [signed] in Hbig;
      rewrite ?Rabs_Ropp, Rabs_pos_eq in Hbig by lra; exact Hbig. }
  destruct (binary_round_aux_faithful (xorb sx sy) (Z.pos (mx * my)) (ex + ey) loc_Exact
              (F2R (Z.pos (mx * my)) (ex + ey))) as (_ & Hf & rho & Hr & Hrho);
    [lia | reflexivity | | exact Hbig' | ].
  - unfold fexp64. rewrite Pos2Z.inj_mul.
    destruct Hnx as [-> | Hnx]; destruct Hny as [-> | Hny]; try lia.
    + destruct (Z_le_gt_dec ey 0); [lia | ].
      assert (52 + 1 <= Zdigits2 (Z.pos mx * Z.pos my))
        by (apply Zdigits2_lower; nia). lia.
    + destruct (Z_le_gt_dec ex 0); [lia | ].
      assert (52 + 1 <= Zdigits2 (Z.pos mx * Z.pos my))
        by (apply Zdigits2_lower; nia). lia.
    + assert (104 + 1 <= Zdigits2 (Z.pos mx * Z.pos my)).
      { apply Zdigits2_lower; [lia | ]. change (2 ^ 104) with (2 ^ 52 * 2 ^ 52). nia. }
      lia.
  - split; [exact Hf | ]. rewrite Hr.
    destruct (xorb sx sy); cbn [signed]; [apply rounds_to_opp | ]; exact Hrho.
Qed.

Lemma mul_faithful (x y : float) :
  is_finite x = true -> is_finite y = true ->
  (Rabs (B2R x * B2R y) < bpow 1023)%R ->
  is_finite (x * y) = true /\ rounds_to (B2R x * B2R y) (B2R (x * y)).
Proof.
  rewrite !is_finite_SF. unfold B2R. rewrite mul_spec. intros Hx Hy Hbig.
  apply SFmul_faithful; try apply Prim2SF_valid; try assumption.
  apply below_max; exact Hbig.
Qed.

(** ** Quotients *)

Lemma new_location_spec (n k : Z) :
  (k = 0 -> new_location n k = loc_Exact)
  /\ (k <> 0 -> exists c, new_location n k = loc_Inexact c).
Proof.
  unfold new_location.
  split; intros H.
  - subst k. destruct (Z.even n); reflexivity.
  - apply Z.eqb_neq in H.
    destruct (Z.even n); unfold new_location_even, new_location_odd; rewrite H;
      eexists; reflexivity.
Qed.

Lemma SFdiv_core_spec (m1 m2 : positive) (e1 e2 : Z) :
  let '(q, e', l) := SFdiv_core_binary prec emax (Z.pos m1) e1 (Z.pos m2) e2 in
  0 <= q
  /\ inb q e' l (F2R (Z.pos m1) e1 / F2R (Z.pos m2) e2)
  /\ e' <= fexp64 (Zdigits2 q + e').
Proof.
  unfold SFdiv_core_binary. rewrite fexp_64.
  destruct (Zdigits2_spec (Z.pos m1)) as [[Hd1 Hd1'] Hd1p]; [lia | ].
  destruct (Zdigits2_spec (Z.pos m2)) as [[Hd2 Hd2'] Hd2p]; [lia | ].
  set (d1 := Zdigits2 (Z.pos m1)) in *. set (d2 := Zdigits2 (Z.pos m2)) in *.
  set (D := d1 + e1 - (d2 + e2)).
  set (e' := Z.min (fexp64 D) (e1 - e2)).
  set (s := e1 - e2 - e').
  assert (Hs : 0 <= s) by (unfold s, e'; lia).
  set (m' := match s with
             | 0 => Z.pos m1
             | Z.pos _ => Z.shiftl (Z.pos m1) s
             | Z.neg _ => 0
             end).
  assert (Hm' : m' = Z.pos m1 * 2 ^ s).
  { unfold m'. destruct s as [| ps | ps] eqn:Hseq; [simpl; lia | | lia].
    apply Z.shiftl_mul_pow2. lia. }
  assert (H2s : 0 < 2 ^ s) by (apply Z.pow_pos_nonneg; lia).
  pose proof (Z_div_mod m' (Z.pos m2) ltac:(lia)) as Hdiv.
  destruct (Z.div_eucl m' (Z.pos m2)) as [q r]. destruct Hdiv as [Hqr Hr].
  assert (Hq : 0 <= q) by nia.
  set (v := (F2R (Z.pos m1) e1 / F2R (Z.pos m2) e2)%R).
  assert (Hm2 : (0 < IZR (Z.pos m2))%R) by (apply IZR_lt; lia).
  assert (Hv : (v * IZR (Z.pos m2) = IZR m' * bpow e')%R).
  { unfold v. replace e1 with (e' + e2 + s) by (unfold s; ring).
    rewrite <- F2R_shift by exact Hs. rewrite <- Hm'. unfold F2R.
    rewrite !bpow_add. pose proof (bpow_pos e2). field. split; lra. }
  rewrite Hqr, plus_IZR, mult_IZR in Hv.
  assert (Hrr : (0 <= IZR r < IZR (Z.pos m2))%R)
    by (split; [apply IZR_le | apply IZR_lt]; lia).
  pose proof (bpow_pos e') as Hbe.
  split; [exact Hq | split].
  - destruct (new_location_spec (Z.pos m2) r) as [Hex Hin].
    destruct (Z.eq_dec r 0) as [Hr0 | Hr0].
    + rewrite (Hex Hr0). cbn [inb]. subst r. simpl (IZR 0) in Hv. unfold F2R.
      apply (Rmult_eq_reg_r (IZR (Z.pos m2))); [ | lra]. rewrite Hv. ring.
    + destruct (Hin Hr0) as [c ->]. cbn [inb]. unfold F2R. rewrite plus_IZR.
      assert (0 < IZR r)%R by (apply IZR_lt; lia). simpl (IZR 1).
      split; apply (Rmult_lt_reg_r (IZR (Z.pos m2))); try lra; rewrite Hv; nra.
  - unfold fexp64. destruct (Z_le_gt_dec e' (-1074)) as [Hlow | Hhigh]; [lia | ].
    assert (HD : e' <= D - 53) by (unfold e', fexp64 in *; lia).
    assert (Hpow : 2 ^ (D - e' - 1) <= q).
    { assert (Hlt : 2 ^ d2 * 2 ^ (D - e' - 1) < 2 ^ d2 * (q + 1)).
      { rewrite <- Z.pow_add_r by lia.
        replace (d2 + (D - e' - 1)) with ((d1 - 1) + s) by (unfold D, s; ring).
        rewrite Z.pow_add_r by lia. nia. }
      apply Z.mul_lt_mono_pos_l in Hlt; lia. }
    assert (D - e' - 1 + 1 <= Zdigits2 q) by (apply Zdigits2_lower; lia).
    lia.
Qed.

Lemma signed_div (sx sy : bool) (a b : R) :
  b <> 0%R -> (signed sx a / signed sy b = signed (xorb sx sy) (a / b))%R.
Proof. intros Hb. destruct sx, sy; cbn [signed xorb]; field; exact Hb. Qed.

Lemma SFdiv_faithful (x : spec_float) (sy : bool) (my : positive) (ey : Z) :
  SFfinite x = true ->
  (Rabs (SF2R x / SF2R (S754_finite sy my ey)) <= max_double)%R ->
  SFfinite (SF64div x (S754_finite sy my ey)) = true
  /\ rounds_to (SF2R x / SF2R (S754_finite sy my ey))
               (SF2R (SF64div x (S754_finite sy my ey))).
Proof.
  intros Hx Hbig. unfold SF64div, SFdiv.
  pose proof (F2R_pos my ey) as Hy.
  destruct x as [sx | sx | | sx mx ex]; try discriminate.
  - split; [reflexivity | ].
    replace (SF2R (S754_zero sx) / SF2R (S754_finite sy my ey))%R with 0%R.
    + apply rounds_to_refl.
    + cbn [SF2R]. unfold Rdiv. ring.
  - rewrite !SF2R_finite in *. rewrite signed_div in * by lra.
    pose proof (SFdiv_core_spec mx my ex ey) as Hcore.
    destruct (SFdiv_core_binary prec emax (Z.pos mx) ex (Z.pos my) ey) as [[q e'] l].
    destruct Hcore as (Hq & Hinb & He').
    pose proof (inb_bounds _ _ _ _ Hinb) as [Hlo _].
    assert (Hv0 : (0 <= F2R (Z.pos mx) ex / F2R (Z.pos my) ey)%R).
    { apply Rle_trans with (F2R q e'); [ | exact Hlo].
      unfold F2R. apply IZR_le in Hq. pose proof (bpow_pos e'). nra. }
    assert (Hbig' : (F2R (Z.pos mx) ex / F2R (Z.pos my) ey <= max_double)%R).
    { destruct (xorb sx sy); cbn [signed] in Hbig;
        rewrite ?Rabs_Ropp, Rabs_pos_eq in Hbig by lra; exact Hbig. }
    destruct (binary_round_aux_faithful (xorb sx sy) q e' l _ Hq Hinb He' Hbig')
      as (_ & Hf & rho & Hr & Hrho).
    split; [exact Hf | ]. rewrite Hr.
    destruct (xorb sx sy); cbn [signed]; [apply rounds_to_opp | ]; exact Hrho.
Qed.

Lemma div_faithful (x y : float) :
  is_finite x = true -> is_finite y = true -> B2R y <> 0%R ->
  (Rabs (B2R x / B2R y) < bpow 1023)%R ->
  is_finite (x / y) = true /\ rounds_to (B2R x / B2R y) (B2R (x / y)).
Proof.
  rewrite !is_finite_SF. unfold B2R. rewrite div_spec. intros Hx Hy Hy0.
  destruct (Prim2SF y) as [sy | sy | | sy my ey]; try discriminate.
  - cbn [SF2R] in Hy0. contradiction.
  - intros Hbig. apply SFdiv_faithful; [exact Hx | apply below_max; exact Hbig].
Qed.

(** ** Integers as doubles, and floor *)

Lemma bpow_1023_gt (z : Z) : Z.abs z <= 2 ^ 54 -> (Rabs (IZR z) < bpow 1023)%R.
Proof.
  intros Hz. rewrite <- abs_IZR, (bpow_IZR 1023) by lia. apply IZR_lt.
  apply Z.le_lt_trans with (2 ^ 54); [exact Hz | apply Z.pow_lt_mono_r; lia].
Qed.

Lemma bpow_1023_big : (IZR (2 ^ 53) + 1 < bpow 1023)%R.
Proof.
  rewrite (bpow_IZR 1023) by lia. rewrite <- plus_IZR. apply IZR_lt.
  apply Z.lt_le_trans with (2 ^ 54); [ | apply Z.pow_le_mono_r; lia].
  change (2 ^ 54) with (2 * 2 ^ 53). lia.
Qed.

Lemma F2R_0 (z : Z) : F2R z 0 = IZR z.
Proof. unfold F2R. rewrite bpow_0. ring. Qed.

Lemma of_Z_exact (z : Z) :
  Z.abs z <= 2 ^ 53 ->
  Prim2SF (Double.of_Z z) = binary_normalize prec emax z 0 false
  /\ is_finite (Double.of_Z z) = true
  /\ B2R (Double.of_Z z) = IZR z.
Proof.
  intros Hz.
  destruct (binary_normalize_faithful z 0 false) as (Hv & Hf & Hr).
  { rewrite F2R_0. apply below_max, bpow_1023_gt. lia. }
  assert (Hp : Prim2SF (Double.of_Z z) = binary_normalize prec emax z 0 false)
    by (apply Prim2SF_SF2Prim; exact Hv).
  split; [exact Hp | split].
  - rewrite is_finite_SF, Hp. exact Hf.
  - unfold B2R. rewrite Hp, <- (F2R_0 z). apply (rounds_to_exact _ _ Hr).
    exists z, 0. repeat split; lia.
Qed.

(** Two valid doubles with the same non-zero value are the same double. *)
Lemma SF2R_inj (x : spec_float) (s : bool) (m : positive) (e : Z) :
  valid_binary x = true -> valid_binary (S754_finite s m e) = true ->
  SFfinite x = true -> SF2R x = SF2R (S754_finite s m e) ->
  x = S754_finite s m e.
Proof.
  intros Hvx Hvy Hx Heq. pose proof (F2R_pos m e) as Hy.
  destruct x as [sx | sx | | sx mx ex]; try discriminate; rewrite ?SF2R_finite in Heq.
  - cbn [SF2R] in Heq. destruct s; cbn [signed] in Heq; lra.
  - pose proof (F2R_pos mx ex) as Hxp.
    assert (Hs : sx = s) by (destruct sx, s; cbn [signed] in Heq; try reflexivity; lra).
    subst sx.
    assert (Hval : F2R (Z.pos mx) ex = F2R (Z.pos m) e)
      by (destruct s; cbn [signed] in Heq; lra).
    assert (He : ex = e).
    { destruct (Z.lt_trichotomy ex e) as [Hlt | [He | Hgt]]; [ | exact He | ].
      - pose proof (valid_exponent_lt s s mx m ex e Hvx Hvy Hlt). lra.
      - pose proof (valid_exponent_lt s s m mx e ex Hvy Hvx Hgt). lra. }
    subst ex.
    assert (Hm : Z.pos mx = Z.pos m).
    { destruct (Z.lt_trichotomy (Z.pos mx) (Z.pos m)) as [Hlt | [Hm | Hgt]];
        [ | exact Hm | ].
      - pose proof (F2R_lt _ _ e Hlt). lra.
      - pose proof (F2R_lt _ _ e Hgt). lra. }
    injection Hm as ->. reflexivity.
Qed.

Lemma floorZ_spec (w : float) :
  (IZR (Double.floorZ w) <= B2R w < IZR (Double.floorZ w) + 1)%R.
Proof.
  unfold Double.floorZ, B2R.
  destruct (Prim2SF w) as [s | s | | s m e]; cbn [SF2R]; try (simpl; lra).
  destruct (Z.leb_spec 0 e) as [He | He].
  - rewrite Z.shiftl_mul_pow2 by exact He.
    replace (cond_Zopp s (Z.pos m * 2 ^ e)) with (cond_Zopp s (Z.pos m) * 2 ^ e)
      by (destruct s; cbn [cond_Zopp]; ring).
    unfold F2R. rewrite mult_IZR, (bpow_IZR e He). lra.
  - set (a := cond_Zopp s (Z.pos m)).
    rewrite Z.shiftr_div_pow2 by lia.
    assert (Hk : 0 < 2 ^ (- e)) by (apply Z.pow_pos_nonneg; lia).
    pose proof (Z.div_mod a (2 ^ (- e)) ltac:(lia)) as Hdm.
    pose proof (Z.mod_pos_bound a (2 ^ (- e)) Hk) as Hmod.
    set (q := a / 2 ^ (- e)) in *. set (r := a mod 2 ^ (- e)) in *.
    assert (Hb : (bpow e * IZR (2 ^ (- e)) = 1)%R).
    { rewrite <- (bpow_IZR (- e)) by lia. rewrite <- bpow_add.
      replace (e + - e) with 0 by ring. reflexivity. }
    unfold F2R. rewrite Hdm, plus_IZR, mult_IZR.
    assert (0 <= IZR r < IZR (2 ^ (- e)))%R by (split; [apply IZR_le | apply IZR_lt]; lia).
    pose proof (bpow_pos e).
    assert (Hr1 : (0 <= IZR r * bpow e)%R) by nra.
    assert (Hr2 : (IZR r * bpow e < 1)%R) by nra.
    replace ((IZR (2 ^ (- e)) * IZR q + IZR r) * bpow e)%R
      with (IZR q * (bpow e * IZR (2 ^ (- e))) + IZR r * bpow e)%R by ring.
    rewrite Hb. lra.
Qed.

(** [floor] of a finite double that is not the negative zero is the double
    of its integer part. *)
Lemma floor_of_Z (w : float) :
  is_finite w = true -> Prim2SF w <> S754_zero true ->
  (Rabs (B2R w) <= IZR (2 ^ 53))%R ->
  Double.floor w = Double.of_Z (Double.floorZ w).
Proof.
  rewrite is_finite_SF. intros Hfin Hnz Hbound.
  pose proof (Prim2SF_valid w) as Hv.
  unfold Double.floor, Double.floorZ, B2R in *.
  destruct (Prim2SF w) as [s | s | | s m e] eqn:Hw; try discriminate.
  - destruct s; [contradiction | ].
    rewrite <- (SF2Prim_Prim2SF w), Hw. reflexivity.
  - destruct (Z.leb_spec 0 e) as [He | He]; [ | reflexivity].
    rewrite Z.shiftl_mul_pow2 by exact He.
    set (z := cond_Zopp s (Z.pos m * 2 ^ e)).
    assert (Hz : IZR z = SF2R (S754_finite s m e)).
    { unfold z. replace (cond_Zopp s (Z.pos m * 2 ^ e))
        with (cond_Zopp s (Z.pos m) * 2 ^ e) by (destruct s; cbn [cond_Zopp]; ring).
      cbn [SF2R]. unfold F2R. rewrite mult_IZR, (bpow_IZR e He). reflexivity. }
    assert (Hzb : Z.abs z <= 2 ^ 53).
    { apply le_IZR. rewrite abs_IZR, Hz. exact Hbound. }
    destruct (of_Z_exact z Hzb) as (Hp & Hf & Hr).
    unfold B2R in Hr. rewrite Hp in Hr. rewrite is_finite_SF, Hp in Hf.
    assert (Hbn : binary_normalize prec emax z 0 false = S754_finite s m e).
    { apply SF2R_inj; [ | exact Hv | exact Hf | rewrite Hr; exact Hz].
      rewrite <- Hp. apply Prim2SF_valid. }
    unfold Double.of_Z. rewrite Hbn, <- Hw. symmetry. apply SF2Prim_Prim2SF.
Qed.

Lemma B2R_abs (x : float) : B2R (abs x) = Rabs (B2R x).
Proof.
  unfold B2R. rewrite abs_spec.
  destruct (Prim2SF x) as [s | s | | s m e]; cbn [SFabs SF2R];
    try (symmetry; apply Rabs_R0).
  rewrite !F2R_cond_Zopp. pose proof (F2R_pos m e).
  destruct s; cbn [signed]; rewrite ?Rabs_Ropp; symmetry; apply Rabs_pos_eq; lra.
Qed.

Lemma is_finite_abs (x : float) : is_finite (abs x) = is_finite x.
Proof.
  rewrite !is_finite_SF, abs_spec. destruct (Prim2SF x); reflexivity.
Qed.

(** What is at most a finite double is not NaN, and not plus infinity. *)
Lemma leb_abs_finite (x c : float) :
  is_finite c = true -> (abs x <=? c)%float = true -> is_finite x = true.
Proof.
  rewrite !is_finite_SF, FloatAxioms.leb_spec, abs_spec.
  destruct (Prim2SF c) as [sc | sc | | sc mc ec]; try discriminate; intros _;
    destruct (Prim2SF x) as [s | s | | s m e]; try reflexivity; discriminate.
Qed.

Lemma B2R_half : B2R 0.5 = (1 / 2)%R.
Proof.
  unfold B2R. change (Prim2SF 0.5) with (S754_finite false (2 ^ 52) (-53)).
  rewrite SF2R_finite. cbn [signed].
  change (Z.pos (2 ^ 52)) with (2 ^ 52). rewrite F2R_pow by lia.
  change (-53 + 52) with (-1). unfold bpow. simpl. lra.
Qed.

(** ** Rounding twice *)

(** Adding [0.5] never gives the negative zero. *)
Lemma add_half_not_neg_zero (a : float) :
  is_finite a = true -> (Rabs (B2R a) <= IZR (2 ^ 53))%R ->
  Prim2SF (a + 0.5) <> S754_zero true.
Proof.
  rewrite is_finite_SF. unfold B2R. intros Hfin Hbound.
  pose proof (Prim2SF_valid a) as Hv.
  rewrite add_spec. change (Prim2SF 0.5) with (S754_finite false (2 ^ 52) (-53)).
  destruct (Prim2SF a) as [s | s | | s m e]; try discriminate.
  destruct (valid_finite_bounds s m e Hv) as (Hm & He & _).
  unfold SF64add, SFadd. set (ez := Z.min e (-53)).
  assert (Hval : F2R (cond_Zopp s (Z.pos (fst (shl_align m e ez)))
                      + cond_Zopp false (Z.pos (fst (shl_align (2 ^ 52) (-53) ez)))) ez
                 = (SF2R (S754_finite s m e) + SF2R (S754_finite false (2 ^ 52) (-53)))%R).
  { rewrite F2R_plus. unfold ez. rewrite aligned_value.
    rewrite (Z.min_comm e (-53)), aligned_value. reflexivity. }
  set (M := cond_Zopp s (Z.pos (fst (shl_align m e ez)))
            + cond_Zopp false (Z.pos (fst (shl_align (2 ^ 52) (-53) ez)))) in *.
  destruct M as [| q | q] eqn:HM; cbn [binary_normalize]; try discriminate.
  - unfold binary_round, binary_round_aux.
    destruct (shl_align q ez _) as [mz ez'].
    destruct (shr_fexp prec emax (Z.pos mz) ez' loc_Exact) as [mrs' e'].
    destruct (shr_fexp prec emax _ e' loc_Exact) as [mrs'' e''].
    destruct (shr_m mrs'') as [| r | r]; try discriminate.
    destruct (e'' <=? emax - prec); discriminate.
  - assert (Hhalf : SF2R (S754_finite false (2 ^ 52) (-53)) = (1 / 2)%R)
      by (rewrite <- B2R_half; reflexivity).
    rewrite Hhalf in Hval.
    assert (Hbig : (F2R (Z.pos q) ez < bpow 1023)%R).
    { change (Z.neg q) with (- Z.pos q) in Hval. rewrite F2R_opp in Hval.
      pose proof (bpow_1023_gt (2 ^ 54) ltac:(lia)) as Hb.
      rewrite Rabs_pos_eq in Hb by (apply IZR_le; lia).
      change (2 ^ 54) with (2 * 2 ^ 53) in Hb. rewrite mult_IZR in Hb.
      apply Rabs_le_both in Hbound. simpl (IZR 2) in Hb.
      assert (1 <= IZR (2 ^ 53))%R by (apply IZR_le; lia). lra. }
    destruct (binary_round_faithful true q ez (below_max _ Hbig))
      as (_ & _ & rho & Hr & Hrho).
    intros Heq. rewrite Heq in Hr. cbn [SF2R signed] in Hr.
    assert (Heta : fmt (F2R 1 (-1074))) by (exists 1, (-1074); repeat split; lia).
    destruct (Hrho _ Heta) as [Hle _].
    assert (F2R 1 (-1074) <= F2R (Z.pos q) ez)%R.
    { apply Rle_trans with (F2R 1 ez); [ | apply F2R_le; lia].
      unfold F2R. simpl (IZR 1). rewrite !Rmult_1_l. apply bpow_le. unfold ez. lia. }
    specialize (Hle H). pose proof (F2R_pos 1 (-1074)). lra.
Qed.

Section RoundTwice.

Variable places : N.
Hypothesis places_fit : (places <= 9)%N.

Local Abbreviation Pz := (10 ^ Z.of_N places).
Local Abbreviation P := (Double.of_Z (10 ^ Z.of_N places)).

Lemma Pz_bounds : 1 <= Pz <= 10 ^ 9.
Proof.
  split.
  - assert (0 < 10 ^ Z.of_N places) by (apply Z.pow_pos_nonneg; lia). lia.
  - apply Z.pow_le_mono_r; lia.
Qed.

Lemma P_spec : is_finite P = true /\ B2R P = IZR Pz.
Proof.
  pose proof Pz_bounds. destruct (of_Z_exact Pz) as (_ & Hf & Hr); [lia | ].
  split; assumption.
Qed.

Lemma fmt_quarters (z : Z) : Z.abs z <= 2 ^ 53 -> fmt (IZR z / 4).
Proof.
  intros Hz. exists z, (-2). repeat split; [ | exact Hz | lia].
  unfold F2R, bpow. simpl. lra.
Qed.

(** The integer [N] survives dividing by the power of ten, multiplying by
    it again, adding [0.5] and taking the floor. *)
Lemma round_trip (N : Z) :
  Z.abs N <= 2 ^ 50 ->
  Double.floor (Double.of_Z N / P * P + 0.5) = Double.of_Z N.
Proof.
  intros HN. pose proof Pz_bounds as HPz. destruct P_spec as [HPf HPr].
  destruct (of_Z_exact N) as (_ & Hnf & Hnr); [lia | ].
  assert (HPpos : (1 <= IZR Pz)%R) by (apply IZR_le; lia).
  assert (HNr : (Rabs (IZR N) <= IZR (2 ^ 50))%R)
    by (rewrite <- abs_IZR; apply IZR_le; exact HN).
  apply Rabs_le_both in HNr.
  assert (H50 : (IZR (2 ^ 50) + 1 < bpow 1023)%R).
  { pose proof bpow_1023_big. assert (IZR (2 ^ 50) <= IZR (2 ^ 53))%R
      by (apply IZR_le; lia). lra. }
  (* the quotient *)
  set (v := (IZR N / IZR Pz)%R).
  assert (Hvb : (Rabs v <= IZR (2 ^ 50))%R).
  { unfold v, Rdiv.
    assert (Hi1 : (/ IZR Pz <= 1)%R) by (rewrite <- Rinv_1; apply Rinv_le_contravar; lra).
    assert (Hi0 : (0 < / IZR Pz)%R) by (apply Rinv_0_lt_compat; lra).
    assert (0 <= IZR (2 ^ 50))%R by (apply IZR_le; lia).
    apply Rabs_le. destruct (Rle_dec 0 (IZR N)); split; nra. }
  destruct (div_faithful (Double.of_Z N) P Hnf HPf) as [Hyf Hyr].
  { rewrite HPr. lra. }
  { rewrite Hnr, HPr. fold v. lra. }
  rewrite Hnr, HPr in Hyr. fold v in Hyr.
  set (y := (Double.of_Z N / P)%float) in *.
  (* doubles within 1/(4 Pz) of the quotient *)
  set (k := Z.log2_up (4 * Pz)).
  destruct (Z.log2_up_spec (4 * Pz)) as [Hk1 Hk2]; [lia | ]. fold k in Hk1, Hk2.
  assert (Hk0 : 2 <= k).
  { unfold k. change 2 with (Z.log2_up 4). apply Z.log2_up_le_mono. lia. }
  assert (Hk33 : k <= 33).
  { unfold k. apply Z.le_trans with (Z.log2_up (2 ^ 33)).
    - apply Z.log2_up_le_mono. lia.
    - rewrite Z.log2_up_pow2; lia. }
  assert (Hk8 : 2 ^ k < 8 * Pz).
  { replace k with (Z.succ (Z.pred k)) by lia. rewrite Z.pow_succ_r by lia. lia. }
  assert (H2k : 0 < 2 ^ k) by (apply Z.pow_pos_nonneg; lia).
  assert (Hbk : (bpow (- k) * IZR (2 ^ k) = 1)%R).
  { rewrite <- (bpow_IZR k) by lia. rewrite <- bpow_add.
    replace (- k + k) with 0 by ring. reflexivity. }
  assert (Hbk4 : (bpow (- k) * IZR Pz <= 1 / 4)%R).
  { assert (4 * IZR Pz <= IZR (2 ^ k))%R
      by (rewrite <- (mult_IZR 4 Pz); apply IZR_le; exact Hk2).
    pose proof (bpow_pos (- k)). nra. }
  pose proof (Z.div_mod (N * 2 ^ k) Pz ltac:(lia)) as Hdm.
  pose proof (Z.mod_pos_bound (N * 2 ^ k) Pz ltac:(lia)) as Hmod.
  set (q := (N * 2 ^ k) / Pz) in *. set (r := (N * 2 ^ k) mod Pz) in *.
  assert (Hqb : - 2 ^ 53 <= q /\ q + 1 <= 2 ^ 53).
  { change (2 ^ 53) with (8 * 2 ^ 50). nia. }
  assert (Hlo : fmt (F2R q (- k))) by (exists q, (- k); repeat split; lia).
  assert (Hhi : fmt (F2R (q + 1) (- k))) by (exists (q + 1), (- k); repeat split; lia).
  assert (Hvq : (v * IZR Pz = IZR N)%R) by (unfold v; field; lra).
  assert (HNq : (IZR N = (IZR Pz * IZR q + IZR r) * bpow (- k))%R).
  { rewrite <- mult_IZR, <- plus_IZR, <- Hdm, mult_IZR.
    rewrite Rmult_assoc, (Rmult_comm (IZR (2 ^ k))), Hbk. ring. }
  assert (Hr : (0 <= IZR r < IZR Pz)%R) by (split; [apply IZR_le | apply IZR_lt]; lia).
  pose proof (bpow_pos (- k)) as Hbpos.
  assert (Hy1 : (F2R q (- k) <= B2R y)%R).
  { apply (proj1 (Hyr _ Hlo)). unfold F2R.
    apply (Rmult_le_reg_r (IZR Pz)); [lra | ]. rewrite Hvq, HNq. nra. }
  assert (Hy2 : (B2R y <= F2R (q + 1) (- k))%R).
  { apply (proj2 (Hyr _ Hhi)). unfold F2R. rewrite plus_IZR. simpl (IZR 1).
    apply (Rmult_le_reg_r (IZR Pz)); [lra | ]. rewrite Hvq, HNq. nra. }
  assert (Hprod : (IZR N - 1 / 4 <= B2R y * IZR Pz <= IZR N + 1 / 4)%R).
  { unfold F2R in Hy1, Hy2. rewrite plus_IZR in Hy2. simpl (IZR 1) in Hy2.
    rewrite HNq. split; nra. }
  (* the product *)
  destruct (mul_faithful y P Hyf HPf) as [Ht1f Ht1r].
  { rewrite HPr. apply Rabs_def1; lra. }
  rewrite HPr in Ht1r.
  assert (Hq1 : fmt (IZR N - 1 / 4)).
  { replace (IZR N - 1 / 4)%R with (IZR (4 * N - 1) / 4)%R
      by (rewrite minus_IZR, mult_IZR; simpl; lra).
    apply fmt_quarters. lia. }
  assert (Hq2 : fmt (IZR N + 1 / 4)).
  { replace (IZR N + 1 / 4)%R with (IZR (4 * N + 1) / 4)%R
      by (rewrite plus_IZR, mult_IZR; simpl; lra).
    apply fmt_quarters. lia. }
  assert (Ht1 : (IZR N - 1 / 4 <= B2R (y * P) <= IZR N + 1 / 4)%R).
  { split; [apply (proj1 (Ht1r _ Hq1)) | apply (proj2 (Ht1r _ Hq2))]; lra. }
  (* the sum *)
  destruct (add_faithful (y * P) 0.5 Ht1f eq_refl) as [Ht2f Ht2r].
  { rewrite B2R_half. apply Rabs_def1; lra. }
  rewrite B2R_half in Ht2r.
  assert (Hq3 : fmt (IZR N + 3 / 4)).
  { replace (IZR N + 3 / 4)%R with (IZR (4 * N + 3) / 4)%R
      by (rewrite plus_IZR, mult_IZR; simpl; lra).
    apply fmt_quarters. lia. }
  assert (Ht2 : (IZR N + 1 / 4 <= B2R (y * P + 0.5) <= IZR N + 3 / 4)%R).
  { split; [apply (proj1 (Ht2r _ Hq2)) | apply (proj2 (Ht2r _ Hq3))]; lra. }
  (* the floor *)
  pose proof (floorZ_spec (y * P + 0.5)) as [Hf1 Hf2].
  assert (HfN : Double.floorZ (y * P + 0.5) = N).
  { assert (Double.floorZ (y * P + 0.5) < N + 1)
      by (apply lt_IZR; rewrite plus_IZR; simpl (IZR 1); lra).
    assert (N - 1 < Double.floorZ (y * P + 0.5))
      by (apply lt_IZR; rewrite minus_IZR; simpl (IZR 1); lra).
    lia. }
  rewrite floor_of_Z, HfN; [reflexivity | exact Ht2f | | ].
  - intros Hz. unfold B2R in Ht2. rewrite Hz in Ht2. cbn [SF2R] in Ht2.
    assert (IZR N < 0)%R by lra. assert (-1 < IZR N)%R by lra.
    apply lt_IZR in H. apply lt_IZR in H0. lia.
  - assert (IZR (2 ^ 50) + 1 <= IZR (2 ^ 53))%R
      by (rewrite <- plus_IZR; apply IZR_le; lia).
    apply Rabs_le. lra.
Qed.

(** The first rounding produces an integer of at most [2^50]. *)
Lemma first_floor (x : float) :
  (abs (x * P) <=? 0x1p50)%float = true ->
  exists N, Z.abs N <= 2 ^ 50 /\ Double.floor (x * P + 0.5) = Double.of_Z N.
Proof.
  intros H.
  assert (Hs1f : is_finite (x * P) = true) by (apply (leb_abs_finite _ 0x1p50 eq_refl H)).
  assert (Hs1 : (Rabs (B2R (x * P)) <= IZR (2 ^ 50))%R).
  { rewrite <- B2R_abs.
    replace (IZR (2 ^ 50)) with (B2R 0x1p50).
    - apply leb_true_R; [rewrite is_finite_abs; exact Hs1f | reflexivity | exact H].
    - unfold B2R. change (Prim2SF 0x1p50) with (S754_finite false (2 ^ 52) (-2)).
      rewrite SF2R_finite. cbn [signed]. change (Z.pos (2 ^ 52)) with (2 ^ 52).
      rewrite F2R_pow by lia. rewrite bpow_IZR by lia. reflexivity. }
  apply Rabs_le_both in Hs1.
  assert (H50 : (IZR (2 ^ 50) + 1 < bpow 1023)%R).
  { pose proof bpow_1023_big. assert (IZR (2 ^ 50) <= IZR (2 ^ 53))%R
      by (apply IZR_le; lia). lra. }
  destruct (add_faithful (x * P) 0.5 Hs1f eq_refl) as [Hs2f Hs2r].
  { rewrite B2R_half. apply Rabs_def1; lra. }
  rewrite B2R_half in Hs2r.
  assert (Hlo : fmt (- IZR (2 ^ 50) + 1 / 2)).
  { exists (- 2 ^ 51 + 1), (-1). repeat split; [ | lia | lia].
    unfold F2R, bpow. rewrite plus_IZR, opp_IZR. change (2 ^ 51) with (2 * 2 ^ 50).
    rewrite mult_IZR. simpl. lra. }
  assert (Hhi : fmt (IZR (2 ^ 50) + 1 / 2)).
  { exists (2 ^ 51 + 1), (-1). repeat split; [ | lia | lia].
    unfold F2R, bpow. rewrite plus_IZR. change (2 ^ 51) with (2 * 2 ^ 50).
    rewrite mult_IZR. simpl. lra. }
  assert (Hs2 : (- IZR (2 ^ 50) + 1 / 2 <= B2R (x * P + 0.5) <= IZR (2 ^ 50) + 1 / 2)%R).
  { split; [apply (proj1 (Hs2r _ Hlo)) | apply (proj2 (Hs2r _ Hhi))]; lra. }
  assert (H5053 : (IZR (2 ^ 50) + 1 <= IZR (2 ^ 53))%R)
    by (rewrite <- plus_IZR; apply IZR_le; lia).
  pose proof (floorZ_spec (x * P + 0.5)) as [Hf1 Hf2].
  exists (Double.floorZ (x * P + 0.5)). split.
  - assert (Double.floorZ (x * P + 0.5) < 2 ^ 50 + 1)
      by (apply lt_IZR; rewrite plus_IZR; simpl (IZR 1); lra).
    assert (- 2 ^ 50 - 1 < Double.floorZ (x * P + 0.5))
      by (apply lt_IZR; rewrite minus_IZR, opp_IZR; simpl (IZR 1); lra).
    lia.
  - apply floor_of_Z; [exact Hs2f | | apply Rabs_le; lra].
    apply add_half_not_neg_zero; [exact Hs1f | apply Rabs_le; lra].
Qed.

Lemma round_value_idempotent (x : float) :
  (abs (x * P) <=? 0x1p50)%float = true ->
  round_value (round_value x places) places = round_value x places.
Proof.
  intros H. unfold round_value.
  destruct (first_floor x H) as (N & HN & ->).
  rewrite (round_trip N HN). reflexivity.
Qed.

(** The quotient of such an integer by the power of ten is finite. *)
Lemma quotient_finite (N : Z) :
  Z.abs N <= 2 ^ 50 -> is_finite (Double.of_Z N / P) = true.
Proof.
  intros HN. pose proof Pz_bounds as HPz. destruct P_spec as [HPf HPr].
  destruct (of_Z_exact N) as (_ & Hnf & Hnr); [lia | ].
  assert (HPpos : (1 <= IZR Pz)%R) by (apply IZR_le; lia).
  assert (HNr : (Rabs (IZR N) <= IZR (2 ^ 50))%R)
    by (rewrite <- abs_IZR; apply IZR_le; exact HN).
  apply Rabs_le_both in HNr.
  apply (div_faithful (Double.of_Z N) P Hnf HPf).
  - rewrite HPr. lra.
  - rewrite Hnr, HPr. unfold Rdiv.
    assert (Hi1 : (/ IZR Pz <= 1)%R) by (rewrite <- Rinv_1; apply Rinv_le_contravar; lra).
    assert (Hi0 : (0 < / IZR Pz)%R) by (apply Rinv_0_lt_compat; lra).
    assert (0 <= IZR (2 ^ 50))%R by (apply IZR_le; lia).
    pose proof bpow_1023_big.
    assert (IZR (2 ^ 50) <= IZR (2 ^ 53))%R by (apply IZR_le; lia).
    apply Rabs_def1; destruct (Rle_dec 0 (IZR N)); nra.
Qed.

Lemma round_value_finite (x : float) :
  (abs (x * P) <=? 0x1p50)%float = true ->
  is_finite (round_value x places) = true.
Proof.
  intros H. unfold round_value.
  destruct (first_floor x H) as (N & HN & ->).
  apply quotient_finite. exact HN.
Qed.

End RoundTwice.

(** ** Multiplying by the sign *)

Lemma valid_le_max (s : bool) (m : positive) (e : Z) :
  valid_binary (S754_finite s m e) = true -> (F2R (Z.pos m) e <= max_double)%R.
Proof.
  intros Hv. destruct (valid_finite_bounds s m e Hv) as (Hm & He & _).
  apply Rle_trans with (F2R (2 ^ 53 - 1) e); [apply F2R_le; lia | ].
  apply F2R_exp_le; lia.
Qed.

(** Multiplying by [1] leaves every double as it is, and multiplying by
    [-1] negates it. *)
Lemma mul_sign (a : float) (negative : bool) :
  (a * Double.of_Z (if negative then -1 else 1))%float
  = if negative then (- a)%float else a.
Proof.
  apply Prim2SF_inj.
  assert (Hgoal : Prim2SF (a * Double.of_Z (if negative then -1 else 1))
                  = if negative then SFopp (Prim2SF a) else Prim2SF a).
  { rewrite mul_spec.
    replace (Prim2SF (Double.of_Z (if negative then -1 else 1)))
      with (S754_finite negative (2 ^ 52) (-52)) by (destruct negative; reflexivity).
    pose proof (Prim2SF_valid a) as Hv.
    assert (Hvo : valid_binary (SFopp (Prim2SF a)) = true)
      by (rewrite <- opp_spec; apply Prim2SF_valid).
    assert (Hone : F2R (Z.pos (2 ^ 52)) (-52) = 1%R).
    { change (Z.pos (2 ^ 52)) with (2 ^ 52). rewrite F2R_pow by lia. reflexivity. }
    destruct (Prim2SF a) as [s | s | | s m e] eqn:Ha.
    - destruct negative, s; reflexivity.
    - destruct negative, s; reflexivity.
    - destruct negative; reflexivity.
    - pose proof (valid_le_max s m e Hv) as Hmax. pose proof (F2R_pos m e) as Hpos.
      destruct (SFmul_faithful (S754_finite s m e) (S754_finite negative (2 ^ 52) (-52)))
        as [Hf Hr]; [exact Hv | destruct negative; reflexivity | reflexivity | reflexivity | | ].
      + rewrite !SF2R_finite, Hone.
        destruct s, negative; cbn [signed];
          rewrite ?Rmult_1_r, <- ?Ropp_mult_distr_r, ?Rmult_1_r, ?Rabs_Ropp, ?Ropp_involutive,
            ?Rabs_Ropp, Rabs_pos_eq by lra; exact Hmax.
      + assert (Hval : (SF2R (S754_finite s m e)
                        * SF2R (S754_finite negative (2 ^ 52) (-52)))%R
                       = SF2R (S754_finite (xorb s negative) m e)).
        { rewrite !SF2R_finite, Hone. destruct s, negative; cbn [signed xorb]; ring. }
        rewrite Hval in Hr.
        assert (Hvx : valid_binary (S754_finite (xorb s negative) m e) = true) by exact Hv.
        pose proof (rounds_to_exact _ _ Hr (fmt_SF2R _ Hvx)) as Heq.
        assert (Hres : SF64mul (S754_finite s m e) (S754_finite negative (2 ^ 52) (-52))
                       = S754_finite (xorb s negative) m e).
        { apply SF2R_inj; [ | exact Hvx | exact Hf | exact Heq].
          rewrite <- Ha.
          replace (S754_finite negative (2 ^ 52) (-52))
            with (Prim2SF (Double.of_Z (if negative then -1 else 1)))
            by (destruct negative; reflexivity).
          unfold SF64mul. rewrite <- mul_spec. apply Prim2SF_valid. }
        rewrite Hres.
        destruct negative, s; reflexivity. }
  rewrite Hgoal. destruct negative; [symmetry; apply opp_spec | reflexivity].
Qed.

(** ** The engine, run *)

Lemma round_run (value : float) (places : N) (c : N) :
  (places <= 9)%N -> round value places c = Ret (round_value value places) c.
Proof.
  intros Hp. unfold round, bind. rewrite (to_int_pow10 _ Hp). reflexivity.
Qed.

Section EngineFacts.

Variable LARGE : float.
Variable ACCURACY : N.
Hypothesis ACCURACY_fits : (ACCURACY <= 9)%N.

Lemma derivative_run (fx : Func) (x : float) (c : N) :
  derivative LARGE ACCURACY fx x c
  = Ret (derivative_value LARGE ACCURACY fx x) (2 + c).
Proof.
  unfold derivative, bind, call. rewrite round_run by exact ACCURACY_fits.
  f_equal. lia.
Qed.

Lemma roots_run (fx : Func) (iter : nat) :
  forall (initial : float) (c : N),
    roots LARGE ACCURACY fx initial iter c
    = Ret (Nat.iter iter (newton_step LARGE ACCURACY fx) initial)
          (3 * N.of_nat iter + c).
Proof.
  induction iter as [| n IH]; intros initial c.
  - reflexivity.
  - cbn [roots]. unfold bind at 1. unfold call at 1. unfold bind at 1.
    rewrite derivative_run, IH.
    rewrite Nat.iter_succ_r. f_equal. lia.
Qed.

Lemma newton_not_finite (fx : Func) (n : nat) :
  forall x, is_finite x = false ->
            is_finite (Nat.iter n (newton_step LARGE ACCURACY fx) x) = false.
Proof.
  induction n as [| n IH]; intros x Hx.
  - exact Hx.
  - rewrite Nat.iter_succ_r. apply IH. unfold newton_step.
    now apply sub_not_finite_l.
Qed.

End EngineFacts.

(** ** The Riemann loop and the grid *)

Section LoopFacts.

Variable LARGE : float.
Variable ACCURACY : N.

Lemma riemann_loop_grid (fx : Func) (bound : float) (fuel : nat) :
  forall (i acc : float) (c : N),
    riemann_loop LARGE fuel fx i bound acc c
    = match grid LARGE fuel i bound with
      | Some g =>
          Ret (fold_left (fun a x => (a + fx x * SMALL LARGE)%float) g acc)
              (N.of_nat (List.length g) + c)
      | None => OutOfFuel
      end.
Proof.
  induction fuel as [| fuel IH]; intros i acc c; cbn [riemann_loop grid].
  - reflexivity.
  - destruct (i <=? bound)%float.
    + unfold bind at 1. unfold call at 1. rewrite IH.
      destruct (grid LARGE fuel (i + SMALL LARGE) bound) as [g |];
        cbn [option_map List.length].
      * f_equal. lia.
      * reflexivity.
    + reflexivity.
Qed.

Lemma integral_definite_grid (fuel : nat) (fx : Func) (lower upper : float) (c : N) :
  integral_definite LARGE ACCURACY fuel fx lower upper c
  = match grid LARGE fuel lower (abs upper) with
    | Some g =>
        round (riemann_sum LARGE fx g
               * Double.of_Z (if (upper <? 0)%float then -1 else 1))%float
              ACCURACY (N.of_nat (List.length g) + c)%N
    | None => OutOfFuel
    end.
Proof.
  unfold integral_definite, bind at 1. rewrite riemann_loop_grid.
  destruct (grid LARGE fuel lower (abs upper)); reflexivity.
Qed.

Lemma integral_definite_plain_grid (fuel : nat) (fx : Func) (lower upper : float) (c : N) :
  integral_definite_plain LARGE ACCURACY fuel fx lower upper c
  = match grid LARGE fuel lower upper with
    | Some g => round (riemann_sum LARGE fx g) ACCURACY (N.of_nat (List.length g) + c)%N
    | None => OutOfFuel
    end.
Proof.
  unfold integral_definite_plain, bind at 1. rewrite riemann_loop_grid.
  destruct (grid LARGE fuel lower upper); reflexivity.
Qed.

End LoopFacts.

(** Comparisons with a bound that is not negative. *)
Lemma nonneg_cases (v : float) :
  (0 <=? v)%float = true ->
  (exists s, Prim2SF v = S754_zero s)
  \/ (exists m e, Prim2SF v = S754_finite false m e)
  \/ Prim2SF v = S754_infinity false.
Proof.
  rewrite FloatAxioms.leb_spec. change (Prim2SF 0) with (S754_zero false).
  destruct (Prim2SF v) as [s | s | | s m e]; try destruct s; try discriminate; intros _.
  - left. now eexists.
  - left. now eexists.
  - right. now right.
  - right. left. now do 2 eexists.
Qed.

Lemma leb_abs_nonneg (w v : float) :
  (0 <=? v)%float = true -> (w <=? abs v)%float = (w <=? v)%float.
Proof.
  intros Hv. rewrite !FloatAxioms.leb_spec, abs_spec.
  destruct (nonneg_cases v Hv) as [[s H] | [[m [e H]] | H]]; rewrite H; try reflexivity;
    destruct (Prim2SF w) as [s' | s' | | s' m' e']; try destruct s'; reflexivity.
Qed.

Lemma leb_refl_nonneg (v : float) :
  (0 <=? v)%float = true -> (v <=? v)%float = true.
Proof.
  intros Hv. rewrite FloatAxioms.leb_spec.
  destruct (nonneg_cases v Hv) as [[s H] | [[m [e H]] | H]]; rewrite H; try reflexivity.
  unfold SFleb, SFcompare. rewrite Z.compare_refl, Pos.compare_cont_refl. reflexivity.
Qed.

Lemma ltb_zero_nonneg (v : float) :
  (0 <=? v)%float = true -> (v <? 0)%float = false.
Proof.
  intros Hv. rewrite FloatAxioms.ltb_spec. change (Prim2SF 0) with (S754_zero false).
  destruct (nonneg_cases v Hv) as [[s H] | [[m [e H]] | H]]; rewrite H; reflexivity.
Qed.

(** ** The recursion of iterate *)

Lemma B2R_one : B2R 1 = 1%R.
Proof.
  unfold B2R. change (Prim2SF 1) with (S754_finite false (2 ^ 52) (-52)).
  rewrite SF2R_finite. cbn [signed].
  change (Z.pos (2 ^ 52)) with (2 ^ 52). rewrite F2R_pow by lia. reflexivity.
Qed.

Lemma B2R_pow53 : B2R 0x1p53 = IZR (2 ^ 53).
Proof.
  unfold B2R. change (Prim2SF 0x1p53) with (S754_finite false (2 ^ 52) 1).
  rewrite SF2R_finite. cbn [signed].
  change (Z.pos (2 ^ 52)) with (2 ^ 52). rewrite F2R_pow by lia.
  rewrite bpow_IZR by lia. reflexivity.
Qed.

(** A double that is at least [1] and at most [2^53] has a double one below it. *)
Lemma fmt_pred (t : float) :
  (1 <= B2R t <= IZR (2 ^ 53))%R -> fmt (B2R t - 1).
Proof.
  intros [Hlo Hhi]. unfold B2R in *.
  pose proof (Prim2SF_valid t) as Hv.
  destruct (Prim2SF t) as [s | s | | s m e]; cbn [SF2R] in *; try lra.
  destruct (valid_finite_bounds s m e Hv) as (Hm & He & _).
  rewrite F2R_cond_Zopp in *. pose proof (F2R_pos m e).
  destruct s; cbn [signed] in *; [lra | ].
  destruct (Z_le_gt_dec 0 e) as [He0 | He0].
  - exists (Z.pos m * 2 ^ e - 1), 0.
    assert (Hval : F2R (Z.pos m) e = IZR (Z.pos m * 2 ^ e)).
    { unfold F2R. rewrite mult_IZR, bpow_IZR by exact He0. reflexivity. }
    rewrite Hval in *. apply le_IZR in Hhi.
    assert (1 <= Z.pos m * 2 ^ e) by (apply le_IZR; exact Hlo).
    repeat split; [ | lia | lia].
    unfold F2R. rewrite minus_IZR, bpow_0. simpl (IZR 1). ring.
  - exists (Z.pos m - 2 ^ (- e)), e.
    assert (Hone : F2R (2 ^ (- e)) e = 1%R).
    { rewrite F2R_pow by lia. replace (e + - e) with 0 by ring. reflexivity. }
    assert (Hk : 0 < 2 ^ (- e)) by (apply Z.pow_pos_nonneg; lia).
    assert (2 ^ (- e) <= Z.pos m).
    { destruct (Z_le_gt_dec (2 ^ (- e)) (Z.pos m)) as [Hle | Hgt]; [exact Hle | ].
      assert (F2R (Z.pos m) e < F2R (2 ^ (- e)) e)%R by (apply F2R_lt; lia). lra. }
    repeat split; [ | lia | lia].
    rewrite F2R_minus, Hone. reflexivity.
Qed.

Lemma iterate_run (fx : Func) (value : float) (k : nat) :
  forall (times : float) (fuel : nat) (c : N),
    is_finite times = true ->
    (B2R times <= IZR (2 ^ 53))%R ->
    Z.max 0 (Double.ceilZ times) = Z.of_nat k ->
    iterate (S k + fuel) fx times value c = Ret (Nat.iter k fx value) (N.of_nat k + c).
Proof.
  induction k as [| k IH]; intros times fuel c Hfin Hbound Hceil.
  - cbn [Nat.add iterate]. rewrite (leb_zero_spec times Hfin).
    pose proof (ceilZ_spec times) as [_ Hc].
    assert (IZR (Double.ceilZ times) <= 0)%R by (apply IZR_le; lia).
    destruct (Rle_dec (B2R times) 0); [reflexivity | lra].
  - pose proof (ceilZ_spec times) as [Hc1 Hc2].
    assert (Hceil' : Double.ceilZ times = Z.of_nat (S k)) by lia.
    assert (Hpos : (0 < B2R times)%R).
    { assert (1 <= IZR (Double.ceilZ times))%R by (apply IZR_le; lia). lra. }
    destruct (sub_faithful times 1 Hfin eq_refl) as [Hfin' Hround].
    { rewrite B2R_one. pose proof bpow_1023_big. apply Rabs_def1; lra. }
    rewrite B2R_one in Hround.
    assert (Hbound' : (B2R (times - 1) <= IZR (2 ^ 53))%R).
    { assert (Hf : fmt (IZR (2 ^ 53))).
      { exists (2 ^ 53), 0. unfold F2R. rewrite bpow_0. repeat split; [ring | lia | lia]. }
      destruct (Hround _ Hf) as [_ H]. apply H. lra. }
    assert (Hceil'' : Z.max 0 (Double.ceilZ (times - 1)) = Z.of_nat k).
    { pose proof (ceilZ_spec (times - 1)) as [Hd1 Hd2].
      destruct (Rle_dec 1 (B2R times)) as [Hge | Hlt].
      - rewrite (rounds_to_exact _ _ Hround (fmt_pred times (conj Hge Hbound))) in Hd1, Hd2.
        assert (Double.ceilZ (times - 1) = Double.ceilZ times - 1).
        { assert (Double.ceilZ (times - 1) - 1 < Double.ceilZ times - 1)
            by (apply lt_IZR; rewrite !minus_IZR; simpl (IZR 1); lra).
          assert (Double.ceilZ times - 2 < Double.ceilZ (times - 1))
            by (apply lt_IZR; rewrite !minus_IZR; simpl (IZR 2); lra).
          lia. }
        lia.
      - assert (Double.ceilZ times - 1 < 1)
          by (apply lt_IZR; rewrite minus_IZR; simpl (IZR 1); lra).
        destruct (Hround 0%R fmt_0) as [_ H0]. specialize (H0 ltac:(lra)).
        assert (Double.ceilZ (times - 1) - 1 < 0)
          by (apply lt_IZR; rewrite minus_IZR; simpl (IZR 1); lra).
        lia. }
    change (S (S k) + fuel)%nat with (S (S k + fuel)). cbn [iterate].
    rewrite (leb_zero_spec times Hfin).
    destruct (Rle_dec (B2R times) 0); [lra | ].
    unfold bind. rewrite (IH (times - 1)%float fuel c Hfin' Hbound' Hceil'').
    unfold call. cbn [Nat.iter nat_rect]. f_equal. lia.
Qed.

(** With [times = 2^53 + 4] the decrement is absorbed: [times - 1] is [times]. *)
Lemma iterate_absorbed (fx : Func) (value : float) (fuel : nat) :
  forall c, iterate fuel fx 9007199254740996 value c = OutOfFuel.
Proof.
  induction fuel as [| fuel IH]; intros c; cbn [iterate].
  - reflexivity.
  - change (9007199254740996 <=? 0)%float with false.
    change (9007199254740996 - 1)%float with 9007199254740996%float.
    unfold bind. rewrite IH. reflexivity.
Qed.

(** ** Integers too large for an int *)

(** Above the largest exponent the rounding overflows to an infinity. *)
Lemma binary_round_aux_overflow (m e : Z) (l : location) (x : R) :
  0 < m -> inb m e l x -> e <= fexp64 (Zdigits2 m + e) ->
  972 <= fexp64 (Zdigits2 m + e) ->
  binary_round_aux prec emax false m e l = S754_infinity false.
Proof.
  intros Hm Hx He Hbig. unfold binary_round_aux.
  destruct (shr_fexp_inb m e l x ltac:(lia) Hx) as (H1 & Hm1 & He1).
  destruct (shr_fexp prec emax m e l) as [mrs' e'] eqn:Hshr. cbn [fst snd] in *.
  set (m' := shr_m mrs') in *. set (l' := loc_of_shr_record mrs') in *.
  assert (He' : e' = fexp64 (Zdigits2 m + e)) by lia.
  pose proof (inb_bounds _ _ _ _ H1) as [Hlo Hhi].
  pose proof (inb_bounds _ _ _ _ Hx) as [Hlo0 Hhi0].
  destruct (Zdigits2_spec m Hm) as [[Hd1 Hd2] Hd0].
  set (d := Zdigits2 m) in *.
  assert (Hxlo : (bpow (e + (d - 1)) <= x)%R).
  { rewrite <- F2R_pow by lia. apply Rle_trans with (F2R m e); [ | exact Hlo0].
    apply F2R_le. exact Hd1. }
  assert (Hxhi : (x < bpow (e + d))%R).
  { rewrite <- F2R_pow by lia. apply Rlt_le_trans with (F2R (m + 1) e); [exact Hhi0 | ].
    apply F2R_le. lia. }
  assert (Hed : e' = d + e - 53) by (unfold fexp64 in *; lia).
  assert (H52 : 2 ^ 52 <= m').
  { assert (2 ^ 52 < m' + 1); [ | lia].
    apply (F2R_lt_inv _ _ e'). rewrite F2R_pow by lia.
    replace (e' + 52) with (e + (d - 1)) by lia. lra. }
  assert (H53 : m' < 2 ^ 53).
  { assert (m' < 2 ^ (e + d - e')) by (apply F2R_lt_bpow; [lra | lia]).
    replace (e + d - e') with 53 in H by lia. exact H. }
  destruct (round_nearest_even_cases m' l') as [Hcases _].
  set (m'' := round_nearest_even m' l') in *.
  destruct (Z_lt_le_dec m'' (2 ^ 53)) as [Hsmall | Hcarry].
  - rewrite shr_fexp_exact_small by lia. cbn [shr_m].
    destruct m'' as [| p | p]; [lia | | lia].
    replace (e' <=? emax - prec) with false
      by (symmetry; apply Z.leb_gt; change (emax - prec) with 971; lia).
    reflexivity.
  - assert (Hm''53 : m'' = 2 ^ 53) by lia.
    rewrite Hm''53, shr_fexp_exact_carry by lia. cbn [shr_m].
    change (2 ^ 52) with (Z.pos (2 ^ 52)%positive).
    replace (e' + 1 <=? emax - prec) with false
      by (symmetry; apply Z.leb_gt; change (emax - prec) with 971; lia).
    reflexivity.
Qed.

Lemma binary_normalize_overflow (z : Z) :
  2 ^ 1024 <= z -> binary_normalize prec emax z 0 false = S754_infinity false.
Proof.
  intros Hz. assert (H0 : 0 < 2 ^ 1024) by (apply Z.pow_pos_nonneg; lia).
  destruct z as [| p | p]; [lia | | lia]. cbn [binary_normalize].
  unfold binary_round. rewrite fexp_64.
  pose proof (Zdigits2_lower (Z.pos p) 1024 ltac:(lia) Hz) as Hd.
  cbn [Zdigits2] in Hd.
  set (e2 := fexp64 (Z.pos (digits2_pos p) + 0)).
  assert (He2 : 972 <= e2) by (unfold e2, fexp64; lia).
  destruct (shl_align_spec p 0 e2) as [He Hm].
  destruct (shl_align p 0 e2) as [mz ez]. cbn [fst snd] in *. subst ez.
  replace (Z.min 0 e2) with 0 in * by lia.
  rewrite Z.sub_0_r, Z.pow_0_r, Z.mul_1_r in Hm. injection Hm as ->.
  apply (binary_round_aux_overflow _ _ _ (F2R (Z.pos p) 0));
    [lia | reflexivity | | ]; cbn [Zdigits2]; fold e2; lia.
Qed.

Lemma trunc_positive (w : float) (m : positive) (e : Z) :
  Prim2SF w = S754_finite false m e -> Double.trunc w = Some (Double.floorZ w).
Proof.
  intros H. unfold Double.trunc, Double.floorZ. rewrite H.
  destruct (0 <=? e); reflexivity.
Qed.

Lemma max_double_IZR : max_double = IZR ((2 ^ 53 - 1) * 2 ^ 971).
Proof.
  unfold max_double, F2R. rewrite bpow_IZR by lia. rewrite <- mult_IZR. reflexivity.
Qed.

(** An integer from [2^31] up to the largest double becomes a double that
    is not an [int]. *)
Lemma to_int_of_Z_big (z : Z) :
  2 ^ 31 <= z <= (2 ^ 53 - 1) * 2 ^ 971 -> Double.to_int (Double.of_Z z) = None.
Proof.
  intros [Hlo Hhi].
  assert (H31 : 0 < 2 ^ 31) by (apply Z.pow_pos_nonneg; lia).
  destruct (binary_normalize_faithful z 0 false) as (Hv & Hf & Hr).
  { rewrite F2R_0, Rabs_pos_eq by (apply IZR_le; lia).
    rewrite max_double_IZR. apply IZR_le. exact Hhi. }
  rewrite F2R_0 in Hr.
  assert (HP : Prim2SF (Double.of_Z z) = binary_normalize prec emax z 0 false)
    by (unfold Double.of_Z; apply Prim2SF_SF2Prim; exact Hv).
  assert (Hge : (IZR (2 ^ 31) <= B2R (Double.of_Z z))%R).
  { unfold B2R. rewrite HP. apply (proj1 (Hr (IZR (2 ^ 31)) ltac:(exists (2 ^ 31), 0;
      rewrite F2R_0; repeat split; lia))). apply IZR_le. exact Hlo. }
  assert (0 < IZR (2 ^ 31))%R by (apply IZR_lt; lia).
  assert (Hpos : exists m e, Prim2SF (Double.of_Z z) = S754_finite false m e).
  { unfold B2R in Hge. rewrite HP in *.
    destruct (binary_normalize prec emax z 0 false) as [s | s | | s m e];
      cbn [SF2R SFfinite] in *; try discriminate; try lra.
    destruct s; [ | now exists m, e].
    rewrite F2R_cond_Zopp in Hge. cbn [signed] in Hge. pose proof (F2R_pos m e). lra. }
  destruct Hpos as (m & e & Hfin).
  unfold Double.to_int. rewrite (trunc_positive _ m e Hfin).
  pose proof (floorZ_spec (Double.of_Z z)) as [_ Hfl].
  assert (2 ^ 31 < Double.floorZ (Double.of_Z z) + 1)
    by (apply lt_IZR; rewrite plus_IZR; simpl (IZR 1); lra).
  unfold Double.fits, Double.INT_MAX.
  replace (Double.floorZ (Double.of_Z z) <=? 2 ^ 31 - 1) with false
    by (symmetry; apply Z.leb_gt; lia).
  rewrite andb_false_r. reflexivity.
Qed.

(** An integer from [2^1024] on becomes the infinity. *)
Lemma to_int_of_Z_huge (z : Z) : 2 ^ 1024 <= z -> Double.to_int (Double.of_Z z) = None.
Proof.
  intros Hz. unfold Double.of_Z. rewrite (binary_normalize_overflow z Hz). reflexivity.
Qed.

(** From ten places on, the power of ten is not an [int]. *)
Lemma to_int_pow10_overflow (p : N) :
  (10 <= p)%N -> Double.to_int (Double.pow10 p) = None.
Proof.
  intros Hp. unfold Double.pow10.
  destruct (N.le_gt_cases p 308) as [Hle | Hgt].
  - apply to_int_of_Z_big. split.
    + apply Z.le_trans with (10 ^ 10); [apply Z.leb_le; vm_compute; reflexivity | ].
      apply Z.pow_le_mono_r; lia.
    + apply Z.le_trans with (10 ^ 308); [apply Z.pow_le_mono_r; lia | ].
      apply Z.leb_le. vm_compute. reflexivity.
  - apply to_int_of_Z_huge.
    apply Z.le_trans with (10 ^ 309); [apply Z.leb_le; vm_compute; reflexivity | ].
    apply Z.pow_le_mono_r; lia.
Qed.

(** ** NaN through a Newton step *)

Lemma is_nan_spec (x : float) : is_nan x = true -> Prim2SF x = S754_nan.
Proof.
  unfold is_nan. rewrite FloatAxioms.eqb_spec.
  destruct (Prim2SF x) as [s | s | | s m e]; try destruct s; try reflexivity;
    try discriminate;
    unfold SFeqb, SFcompare; rewrite Z.compare_refl, Pos.compare_cont_refl;
    discriminate.
Qed.

Lemma sub_nan (x q : float) : is_nan x = true -> (x - q)%float = x.
Proof.
  intros H. apply is_nan_spec in H. apply Prim2SF_inj. rewrite sub_spec, H.
  reflexivity.
Qed.

Lemma newton_iter_nan (LARGE : float) (ACCURACY : N) (fx : Func) (x : float) (n : nat) :
  is_nan x = true -> Nat.iter n (newton_step LARGE ACCURACY fx) x = x.
Proof.
  intros H. induction n as [| n IH]; [reflexivity | ].
  cbn [Nat.iter nat_rect]. fold (Nat.iter n (newton_step LARGE ACCURACY fx) x).
  rewrite IH. unfold newton_step. apply sub_nan. exact H.
Qed.

(** ** The stack of iterate *)

Lemma iterate_never_undefined (fx : Func) (value : float) (frames : nat) :
  forall times c, iterate frames fx times value c <> Undefined.
Proof.
  induction frames as [| frames IH]; intros times c; cbn [iterate].
  - discriminate.
  - destruct (times <=? 0)%float; [discriminate | ].
    unfold bind. specialize (IH (times - 1)%float c).
    destruct (iterate frames fx (times - 1) value c); [discriminate | contradiction | discriminate].
Qed.

(** A call that returns with some room on the stack returns the same with
    more. *)
Lemma iterate_more_frames (fx : Func) (value : float) (frames : nat) :
  forall times c r c',
    iterate frames fx times value c = Ret r c' ->
    forall more, iterate (more + frames) fx times value c = Ret r c'.
Proof.
  induction frames as [| frames IH]; intros times c r c' H more; cbn [iterate] in H.
  - discriminate.
  - rewrite Nat.add_succ_r. cbn [iterate].
    destruct (times <=? 0)%float; [exact H | ].
    unfold bind in *.
    destruct (iterate frames fx (times - 1) value c) as [r1 c1 | |] eqn:E;
      try discriminate.
    rewrite (IH _ _ _ _ E more). exact H.
Qed.

(** A call that returns has evaluated [fx] fewer times than the stack has
    frames. *)
Lemma iterate_calls_below_frames (fx : Func) (value : float) (frames : nat) :
  forall times c r c',
    iterate frames fx times value c = Ret r c' -> (c' < c + N.of_nat frames)%N.
Proof.
  induction frames as [| frames IH]; intros times c r c' H; cbn [iterate] in H.
  - discriminate.
  - destruct (times <=? 0)%float.
    + unfold ret in H. injection H as _ <-. lia.
    + unfold bind in H.
      destruct (iterate frames fx (times - 1) value c) as [r1 c1 | |] eqn:E;
        try discriminate.
      apply IH in E. unfold call in H. injection H as _ <-. lia.
Qed.

(** With no more frames than steps, the stack is exhausted. *)
Lemma iterate_exhausts (fx : Func) (times value : float) (frames : nat) (c : N) :
  is_finite times = true -> (B2R times <= IZR (2 ^ 53))%R ->
  (frames <= Z.to_nat (Z.max 0 (Double.ceilZ times)))%nat ->
  iterate frames fx times value c = OutOfFuel.
Proof.
  intros Hfin Hbound Hframes.
  set (n := Z.to_nat (Z.max 0 (Double.ceilZ times))) in *.
  assert (Hrun : iterate (S n + 0) fx times value c
                 = Ret (Nat.iter n fx value) (N.of_nat n + c)%N)
    by (apply iterate_run; [exact Hfin | exact Hbound | unfold n; lia]).
  destruct (iterate frames fx times value c) as [r c' | |] eqn:E.
  - exfalso. pose proof (iterate_calls_below_frames _ _ _ _ _ _ _ E) as Hcalls.
    pose proof (iterate_more_frames _ _ _ _ _ _ _ E (S n - frames)) as Hmore.
    replace (S n - frames + frames)%nat with (S n + 0)%nat in Hmore by lia.
    rewrite Hrun in Hmore. injection Hmore as _ Hc. lia.
  - exfalso. exact (iterate_never_undefined fx value frames times c E).
  - reflexivity.
Qed.

(** ** The statements *)

Import util.

(** *** round *)

(** C3: [round] keeps the power of ten in an [int]
    ([int prod = std::pow(10, places)]).  Up to nine places the power is an
    [int] and [round(value, places)] is
    [floor(value * 10^places + 0.5) / 10^places] in double arithmetic, with
    no evaluation of a [Func]; in particular [round(2.345, 2) == 2.35].  From
    ten places on the power is not an [int] and its conversion is undefined,
    for every value: [round(2.345, 10)] has no defined result, where the
    formula of the claim, with the power kept in a double, gives [2.345].
    With [INT_MIN] in [prod], the value the conversion instruction of x86-64
    leaves there, the return statement gives [2.345000000204891] for
    [2.345], and [1] for [1]. *)
Theorem round_power_overflows_int :
  (forall (value : float) (places c : N),
      (places <= 9)%N ->
      round value places c
      = Ret (Double.floor (value * Double.of_Z (10 ^ Z.of_N places) + 0.5)
             / Double.of_Z (10 ^ Z.of_N places))%float c)
  /\ round 2.345 2 0%N = Ret 2.35%float 0%N
  /\ (forall (value : float) (places c : N),
         (10 <= places)%N -> round value places c = Undefined)
  /\ round 2.345 10 0%N = Undefined
  /\ Double.INT_MAX < 10 ^ 10
  /\ round_value 2.345 10 = 2.345%float
  /\ (Double.floor (2.345 * Double.of_Z Double.INT_MIN + 0.5)
      / Double.of_Z Double.INT_MIN)%float = 2.345000000204891%float
  /\ (2.345000000204891 =? 2.345)%float = false
  /\ (Double.floor (1 * Double.of_Z Double.INT_MIN + 0.5)
      / Double.of_Z Double.INT_MIN)%float = 1%float.
Proof.
  assert (Hover : forall (value : float) (places c : N),
             (10 <= places)%N -> round value places c = Undefined).
  { intros value places c Hp. unfold round, bind.
    rewrite (to_int_pow10_overflow places Hp). reflexivity. }
  split; [ | split; [ | split; [ | split; [ | split; [ | split; [ | split; [ | split]]]]]]].
  - intros value places c Hp. exact (round_run value places c Hp).
  - rewrite round_run by lia. f_equal.
  - exact Hover.
  - apply Hover. lia.
  - vm_compute. reflexivity.
  - vm_compute. reflexivity.
  - vm_compute. reflexivity.
  - vm_compute. reflexivity.
  - vm_compute. reflexivity.
Qed.

Lemma round_power_overflows_int_witness :
  (2 <= 9)%N /\ (10 <= 10)%N
  /\ round 2.345 2 0%N
     = Ret (Double.floor (2.345 * Double.of_Z (10 ^ Z.of_N 2) + 0.5)
            / Double.of_Z (10 ^ Z.of_N 2))%float 0%N
  /\ round 1 10 7%N = Undefined.
Proof.
  destruct round_power_overflows_int as (Hlow & _ & Hhigh & _).
  split; [lia | ]. split; [lia | ].
  split; [apply (Hlow 2.345%float 2%N 0%N); lia | apply (Hhigh 1%float 10%N 7%N); lia].
Defined.

(** C4, counterexample: with three places, [4500000000000.4] rounds to
    [4500000000000.401], and that rounds to [4500000000000.402]. *)
Lemma round_not_idempotent :
  round 4500000000000.4 3 0%N = Ret 4500000000000.401%float 0%N
  /\ round 4500000000000.401 3 0%N = Ret 4500000000000.402%float 0%N
  /\ (4500000000000.402 =? 4500000000000.401)%float = false.
Proof. repeat split; vm_compute; reflexivity. Qed.

(** C4, as amended: for [places <= 9] and a value whose product with
    [10^places], as [round] computes it, is at most [2^50] in magnitude,
    [round] returns a finite double that [round] returns unchanged:
    [round(round(x, p), p) == round(x, p)]. *)
Theorem round_idempotent_bounded (x : float) (places : N) (c : N)
    (Hplaces : (places <= 9)%N)
    (Hbound : (abs (x * Double.of_Z (10 ^ Z.of_N places)) <=? 0x1p50)%float = true) :
  exists y, round x places c = Ret y c /\ round y places c = Ret y c
            /\ is_finite y = true.
Proof.
  exists (round_value x places). rewrite !round_run by exact Hplaces.
  split; [reflexivity | split].
  - f_equal. apply round_value_idempotent; assumption.
  - apply round_value_finite; assumption.
Qed.

Lemma round_idempotent_bounded_witness :
  (2 <= 9)%N
  /\ (abs (2.345 * Double.of_Z (10 ^ Z.of_N 2)) <=? 0x1p50)%float = true
  /\ exists y, round 2.345 2 0%N = Ret y 0%N /\ round y 2 0%N = Ret y 0%N
               /\ is_finite y = true.
Proof.
  split; [lia | ].
  split; [vm_compute; reflexivity | ].
  apply (round_idempotent_bounded 2.345 2 0%N); [lia | vm_compute; reflexivity].
Defined.

(** *** derivative *)

(** C5: [derivative(fx)] applied to [x] is
    [round((fx(x + SMALL) - fx(x)) * LARGE, ACCURACY)], and evaluating it
    evaluates [fx] exactly twice. *)
Theorem derivative_forward_difference (LARGE : float) (ACCURACY : N) (fx : Func)
    (x : float) (c : N) (HACC : (ACCURACY <= 9)%N) :
  derivative LARGE ACCURACY fx x c
  = round ((fx (x + SMALL LARGE) - fx x) * LARGE)%float ACCURACY (2 + c)%N
  /\ derivative LARGE ACCURACY fx x c
     = Ret (round_value ((fx (x + SMALL LARGE) - fx x) * LARGE)%float ACCURACY) (2 + c)%N.
Proof.
  split.
  - replace (2 + c)%N with (N.succ (N.succ c)) by lia. reflexivity.
  - exact (derivative_run LARGE ACCURACY HACC fx x c).
Qed.

Lemma derivative_forward_difference_witness :
  (CalculusInclude.ACCURACY <= 9)%N
  /\ derivative CalculusInclude.LARGE CalculusInclude.ACCURACY
                (fun x => x * x)%float 3 0%N = Ret 6%float 2%N.
Proof.
  split; [unfold CalculusInclude.ACCURACY; lia | ].
  destruct (derivative_forward_difference CalculusInclude.LARGE CalculusInclude.ACCURACY
              (fun x => x * x)%float 3 0%N) as [_ H];
    [unfold CalculusInclude.ACCURACY; lia | ].
  rewrite H. vm_compute. reflexivity.
Defined.

(** *** roots *)

(** C6: [roots(fx, initial, iter)] returns the [iter]-th Newton iterate
    [x_{n+1} = x_n - fx(x_n) / derivative(fx)(x_n)] of [initial], whatever
    the iterates are; it evaluates [fx] three times per iteration, [3 * iter]
    times in all, so no iteration is skipped; with [iter == 0] it returns
    [initial] as it is. *)
Theorem roots_fixed_iterations (LARGE : float) (ACCURACY : N) (fx : Func)
    (initial : float) (iter : nat) (c : N) (HACC : (ACCURACY <= 9)%N) :
  roots LARGE ACCURACY fx initial iter c
  = Ret (Nat.iter iter (fun x => x - fx x / derivative_value LARGE ACCURACY fx x)%float
           initial)
        (3 * N.of_nat iter + c)%N
  /\ (forall x c', derivative LARGE ACCURACY fx x c'
                   = Ret (derivative_value LARGE ACCURACY fx x) (2 + c')%N)
  /\ roots LARGE ACCURACY fx initial 0%nat c = Ret initial c.
Proof.
  split; [ | split].
  - exact (roots_run LARGE ACCURACY HACC fx iter initial c).
  - intros x c'. exact (derivative_run LARGE ACCURACY HACC fx x c').
  - reflexivity.
Qed.

Lemma roots_fixed_iterations_witness :
  (CalculusInclude.ACCURACY <= 9)%N
  /\ roots CalculusInclude.LARGE CalculusInclude.ACCURACY
           (fun x => x - 5)%float 0 10%nat 0%N = Ret 5%float 30%N.
Proof.
  split; [unfold CalculusInclude.ACCURACY; lia | ].
  destruct (roots_fixed_iterations CalculusInclude.LARGE CalculusInclude.ACCURACY
              (fun x => x - 5)%float 0 10%nat 0%N) as [H _];
    [unfold CalculusInclude.ACCURACY; lia | ].
  rewrite H. vm_compute. reflexivity.
Defined.

(** C7: when [roots] has reached the iterate [xk] after [k] iterations and
    [derivative(fx)(xk)] is a zero [d], the quotient [fx(xk) / d] of the
    Newton step is not finite; the next iterate, which is what [roots]
    returns after [k + 1] iterations, is [xk - fx(xk) / d] and is not
    finite; and with any larger number [j] of iterations [roots] returns,
    after all its [3 * j] evaluations of [fx] and with no error, the result
    of the remaining [j - k - 1] Newton steps on that iterate, which is
    infinite or NaN.  When that iterate is NaN, it is the value returned. *)
Theorem roots_zero_derivative_not_finite (LARGE : float) (ACCURACY : N) (fx : Func)
    (initial : float) (k : nat) (xk d : float) (ck cd : N)
    (HACC : (ACCURACY <= 9)%N)
    (Hk : roots LARGE ACCURACY fx initial k 0%N = Ret xk ck)
    (Hd : derivative LARGE ACCURACY fx xk 0%N = Ret d cd)
    (Hzero : (d =? 0)%float = true) :
  is_finite (fx xk / d) = false
  /\ is_finite (xk - fx xk / d) = false
  /\ (forall c : N,
         roots LARGE ACCURACY fx initial (S k) c
         = Ret (xk - fx xk / d)%float (3 * N.of_nat (S k) + c)%N)
  /\ (forall (j : nat) (c : N), (k < j)%nat ->
        roots LARGE ACCURACY fx initial j c
        = Ret (Nat.iter (j - S k)
                 (fun x => x - fx x / derivative_value LARGE ACCURACY fx x)%float
                 (xk - fx xk / d)%float)
              (3 * N.of_nat j + c)%N
        /\ is_finite (Nat.iter (j - S k)
                        (fun x => x - fx x / derivative_value LARGE ACCURACY fx x)%float
                        (xk - fx xk / d)%float) = false)
  /\ (is_nan (xk - fx xk / d) = true ->
      forall (j : nat) (c : N), (k < j)%nat ->
        roots LARGE ACCURACY fx initial j c
        = Ret (xk - fx xk / d)%float (3 * N.of_nat j + c)%N).
Proof.
  rewrite roots_run in Hk by exact HACC. injection Hk as Hxk _.
  rewrite derivative_run in Hd by exact HACC. injection Hd as Hdv _.
  assert (Hq : is_finite (fx xk / d) = false)
    by (apply div_zero_not_finite; exact Hzero).
  assert (Hnext : is_finite (xk - fx xk / d) = false)
    by (apply sub_not_finite_r; exact Hq).
  assert (Hstep : newton_step LARGE ACCURACY fx xk = (xk - fx xk / d)%float)
    by (unfold newton_step; rewrite Hdv; reflexivity).
  assert (Hrun : forall (j : nat) (c : N), (k < j)%nat ->
             roots LARGE ACCURACY fx initial j c
             = Ret (Nat.iter (j - S k) (newton_step LARGE ACCURACY fx)
                      (xk - fx xk / d)%float)
                   (3 * N.of_nat j + c)%N).
  { intros j c Hj. rewrite roots_run by exact HACC. f_equal.
    remember (j - S k)%nat as i eqn:Hi.
    replace j with (i + S k)%nat by lia.
    rewrite Nat.iter_add, Nat.iter_succ, Hxk, Hstep. reflexivity. }
  split; [exact Hq | split; [exact Hnext | split; [ | split]]].
  - intros c. rewrite (Hrun (S k) c) by lia. rewrite Nat.sub_diag. reflexivity.
  - intros j c Hj. split; [exact (Hrun j c Hj) | ].
    apply (newton_not_finite LARGE ACCURACY fx). exact Hnext.
  - intros Hnan j c Hj. rewrite (Hrun j c Hj). f_equal.
    apply newton_iter_nan. exact Hnan.
Qed.

Lemma roots_zero_derivative_not_finite_witness :
  (CalculusInclude.ACCURACY <= 9)%N
  /\ roots CalculusInclude.LARGE CalculusInclude.ACCURACY (fun _ => 1%float) 0 0%nat 0%N
     = Ret 0%float 0%N
  /\ derivative CalculusInclude.LARGE CalculusInclude.ACCURACY (fun _ => 1%float) 0 0%N
     = Ret 0%float 2%N
  /\ (0 =? 0)%float = true
  /\ (1 / 0)%float = infinity
  /\ roots CalculusInclude.LARGE CalculusInclude.ACCURACY (fun _ => 1%float) 0 1%nat 0%N
     = Ret neg_infinity 3%N
  /\ roots CalculusInclude.LARGE CalculusInclude.ACCURACY (fun _ => 1%float) 0 3%nat 0%N
     = Ret neg_infinity 9%N.
Proof.
  split; [unfold CalculusInclude.ACCURACY; lia | ].
  split; [vm_compute; reflexivity | ].
  split; [vm_compute; reflexivity | ].
  split; [vm_compute; reflexivity | ].
  split; [vm_compute; reflexivity | ].
  destruct (roots_zero_derivative_not_finite CalculusInclude.LARGE
              CalculusInclude.ACCURACY (fun _ => 1%float) 0%float 0%nat 0%float 0%float
              0%N 2%N) as (_ & _ & H1 & H & _).
  - unfold CalculusInclude.ACCURACY; lia.
  - vm_compute; reflexivity.
  - vm_compute; reflexivity.
  - vm_compute; reflexivity.
  - split.
    + rewrite (H1 0%N). vm_compute. reflexivity.
    + rewrite (proj1 (H 3%nat 0%N ltac:(lia))). vm_compute. reflexivity.
Defined.

(** *** integral_definite *)

(** C1, counterexample: the [integral_definite] of the top-level
    [Calculus.h] compares with [upper] itself and applies no sign; for
    [fx(x) = x] from [0] to [-4] the loop body never runs and the result is
    [0], not [-8]. *)
Lemma integral_definite_plain_negative_upper :
  integral_definite_plain CalculusTop.LARGE CalculusTop.ACCURACY 1
    (fun x => x) 0 (-4) 0%N = Ret 0%float 0%N
  /\ (0 =? -8)%float = false.
Proof. split; vm_compute; reflexivity. Qed.

(** C1, as amended: the [integral_definite] of [include/Calculus.h] sums
    [fx] times [SMALL] over the grid from [lower] up to [|upper|], stepping
    by [SMALL], negates the sum when [upper] is negative and leaves it as it
    is otherwise (the product with [-1] or [1]), and rounds to [ACCURACY]
    digits, evaluating [fx] once per grid point; it does not return when the
    grid does not end.  For [fx(x) = x] it returns [-8] from [0] to [-4].
    The [integral_definite] of the top-level [Calculus.h] sums over the grid
    from [lower] up to [upper] and rounds, with no sign. *)
Theorem integral_definite_sign_convention :
  (forall (LARGE : float) (ACCURACY : N) (fuel : nat) (fx : Func)
          (lower upper : float) (c : N),
      integral_definite LARGE ACCURACY fuel fx lower upper c
      = match grid LARGE fuel lower (abs upper) with
        | Some g =>
            round (if (upper <? 0)%float then (- riemann_sum LARGE fx g)%float
                   else riemann_sum LARGE fx g)
                  ACCURACY (N.of_nat (List.length g) + c)%N
        | None => OutOfFuel
        end)
  /\ integral_definite CalculusInclude.LARGE CalculusInclude.ACCURACY
       (N.to_nat 40001) (fun x => x) 0 (-4) 0%N
     = Ret (-8)%float 40000%N
  /\ (forall (LARGE : float) (ACCURACY : N) (fuel : nat) (fx : Func)
             (lower upper : float) (c : N),
         integral_definite_plain LARGE ACCURACY fuel fx lower upper c
         = match grid LARGE fuel lower upper with
           | Some g => round (riemann_sum LARGE fx g) ACCURACY (N.of_nat (List.length g) + c)%N
           | None => OutOfFuel
           end).
Proof.
  split; [| split].
  - intros. rewrite integral_definite_grid.
    destruct (grid LARGE fuel lower (abs upper)); [ | reflexivity].
    rewrite mul_sign. reflexivity.
  - vm_compute. reflexivity.
  - intros. apply integral_definite_plain_grid.
Qed.

(** C2, counterexample: the antiderivative of the constant function [10]
    anchored at [0], evaluated at [0], is [0.001]: the loop runs once, for
    the grid point [0]. *)
Lemma integral_at_anchor_not_zero :
  integral CalculusInclude.LARGE CalculusInclude.ACCURACY 2 (fun _ => 10%float) 0 0 0%N
  = Ret 0.001%float 1%N
  /\ (0.001 =? 0)%float = false.
Proof. split; vm_compute; reflexivity. Qed.

(** C2, as amended: when [lower == upper] is a value [v >= 0] that adding
    [SMALL] increases, the grid is the single point [v]: [fx] is evaluated
    once and [integral_definite(fx, v, v)], which is [integral(fx, v)] at
    [v], is [fx(v) * SMALL] added to [0], rounded to [ACCURACY] digits, in
    both headers. *)
Theorem integral_definite_equal_bounds (LARGE : float) (ACCURACY : N) (fuel : nat)
    (fx : Func) (v : float) (c : N)
    (Hv : (0 <=? v)%float = true)
    (Hstep : (v + SMALL LARGE <=? v)%float = false) :
  integral_definite LARGE ACCURACY (2 + fuel) fx v v c
  = round (0 + fx v * SMALL LARGE)%float ACCURACY (1 + c)%N
  /\ integral LARGE ACCURACY (2 + fuel) fx v v
     = integral_definite LARGE ACCURACY (2 + fuel) fx v v
  /\ integral_definite_plain LARGE ACCURACY (2 + fuel) fx v v c
     = round (0 + fx v * SMALL LARGE)%float ACCURACY (1 + c)%N.
Proof.
  replace (1 + c)%N with (N.succ c) by lia.
  split; [| split; [reflexivity | ]].
  - unfold integral_definite. cbn [Nat.add riemann_loop].
    rewrite !leb_abs_nonneg by exact Hv.
    rewrite (leb_refl_nonneg v Hv), Hstep, (ltb_zero_nonneg v Hv).
    unfold bind, call, ret. rewrite (mul_sign _ false). reflexivity.
  - unfold integral_definite_plain. cbn [Nat.add riemann_loop].
    rewrite (leb_refl_nonneg v Hv), Hstep. reflexivity.
Qed.

Lemma integral_definite_equal_bounds_witness :
  (0 <=? 0)%float = true
  /\ (0 + SMALL CalculusInclude.LARGE <=? 0)%float = false
  /\ integral_definite CalculusInclude.LARGE CalculusInclude.ACCURACY (2 + 0)
       (fun _ => 10%float) 0 0 0%N
     = round (0 + 10 * SMALL CalculusInclude.LARGE)%float
             CalculusInclude.ACCURACY (1 + 0)%N.
Proof.
  split; [vm_compute; reflexivity | ].
  split; [vm_compute; reflexivity | ].
  apply (integral_definite_equal_bounds CalculusInclude.LARGE CalculusInclude.ACCURACY
           0 (fun _ => 10%float) 0%float 0%N); vm_compute; reflexivity.
Defined.

(** *** The grapher *)

(** C8: with the default configuration (80 columns, 24 rows, domain and
    range [[-10, 10]]) [pixelToX] sends column [0] and column [1] both to
    [-10], column [4] to [-9] and column [79] to [10]: [mMap] computes in
    [long], so the quotient is truncated, and the map is not the affine map
    [x_min + i * (x_max - x_min) / (width - 1)] over the reals, which is
    injective and is not [-10] at column [1].  [yToPixel] truncates in the same way: it sends [10] to row
    [0], and [0] and [0.9] both to row [12]. *)
Theorem pixelToX_truncates :
  pixelToX Grapher_default 0 0%N = Ret (-10)%float 0%N
  /\ pixelToX Grapher_default 1 0%N = Ret (-10)%float 0%N
  /\ pixelToX Grapher_default 4 0%N = Ret (-9)%float 0%N
  /\ pixelToX Grapher_default 79 0%N = Ret 10%float 0%N
  /\ (-10 =? -10 + 1 * (10 - -10) / (80 - 1))%float = false
  /\ yToPixel Grapher_default 10 0%N = Ret 0 0%N
  /\ yToPixel Grapher_default 0 0%N = Ret 12 0%N
  /\ yToPixel Grapher_default 0.9 0%N = Ret 12 0%N.
Proof. repeat split; vm_compute; reflexivity. Qed.

(** C9: with the default configuration (24 rows, range [[-10, 10]]) a
    sample equal to [y_min = -10] is inside the range, [yToPixel] maps it to
    row [24], one past the last row [23]; the store into that row is outside
    the buffer, and [display] of the constant function [-10] reaches it,
    in the first column it plots. *)
Theorem yToPixel_of_y_min_out_of_bounds :
  yToPixel Grapher_default (-10) 0%N = Ret 24 0%N
  /\ mTermHeight Grapher_default = 24
  /\ ((-10 <? fst (mYrange Grapher_default))
      || (snd (mYrange Grapher_default) <? -10))%float = false
  /\ (forall (s : screen) (col : Z) (ch : ascii) (c : N),
         poke Grapher_default s 24 col ch c = Undefined)
  /\ plot_column Grapher_default (fun _ => (-10)%float, "#"%char) 0
       (blank 24 80, Double.INT32_MAX) 0%N = Undefined
  /\ display (addFunction Grapher_default (fun _ => (-10)%float) "#"%char) 0%N
     = Undefined.
Proof.
  repeat split; try (vm_compute; reflexivity).
Qed.

(** *** iterate *)

(** C10, counterexample: [iterate] does not return for every finite
    [times].  Each step of the count is a nested call: with [times = 100000]
    and a stack that holds 100000 frames of [iterate], the stack is
    exhausted.  And with [times = 2^53 + 4] the recursion never reaches its
    base case: no stack, however deep, gives a result. *)
Lemma iterate_does_not_terminate :
  is_finite 100000 = true
  /\ iterate (N.to_nat 100000) (fun x => x) 100000 0 0%N = OutOfFuel
  /\ is_finite 9007199254740996 = true
  /\ ~ exists frames r c, iterate frames (fun x => x) 9007199254740996 0 0%N = Ret r c.
Proof.
  split; [vm_compute; reflexivity | split; [ | split; [vm_compute; reflexivity | ]]].
  - apply iterate_exhausts.
    + vm_compute; reflexivity.
    + rewrite <- B2R_pow53. apply leb_true_R; vm_compute; reflexivity.
    + apply Nat.leb_le. vm_compute. reflexivity.
  - intros (frames & r & c & H). rewrite iterate_absorbed in H. discriminate.
Qed.

(** C10, as amended: for every [fx], every starting value and every finite
    [times] up to [2^53], [iterate] makes [n = max(0, ceil(times))] nested
    calls below the outermost one.  On a stack with room for more than [n]
    frames of [iterate] it returns: the result is [fx] applied [n] times to
    the value, and [fx] is evaluated exactly [n] times.  On a stack with
    room for [n] frames or fewer it exhausts the stack and returns nothing.
    [ceilZ times] is the ceiling of the real value of [times]. *)
Theorem iterate_terminates (fx : Func) (times value : float) (c : N)
    (Hfinite : is_finite times = true)
    (Hbound : (times <=? 0x1p53)%float = true) :
  let n := Z.to_nat (Z.max 0 (Double.ceilZ times)) in
  (forall frames : nat, (n < frames)%nat ->
     iterate frames fx times value c = Ret (Nat.iter n fx value) (N.of_nat n + c)%N)
  /\ (forall frames : nat, (frames <= n)%nat ->
        iterate frames fx times value c = OutOfFuel)
  /\ (IZR (Double.ceilZ times) - 1 < B2R times <= IZR (Double.ceilZ times))%R.
Proof.
  intros n.
  assert (HboundR : (B2R times <= IZR (2 ^ 53))%R).
  { rewrite <- B2R_pow53. apply leb_true_R; [exact Hfinite | reflexivity | exact Hbound]. }
  split; [ | split; [ | apply ceilZ_spec]].
  - intros frames Hframes.
    replace frames with (S n + (frames - S n))%nat by lia.
    apply iterate_run; [exact Hfinite | exact HboundR | unfold n; lia].
  - intros frames Hframes. apply iterate_exhausts; assumption.
Qed.

Lemma iterate_terminates_witness :
  is_finite 2.5 = true
  /\ (2.5 <=? 0x1p53)%float = true
  /\ iterate 4 (fun x => x + 1)%float 2.5 0 0%N = Ret 3%float 3%N
  /\ iterate 3 (fun x => x + 1)%float 2.5 0 0%N = OutOfFuel.
Proof.
  split; [vm_compute; reflexivity | ].
  split; [vm_compute; reflexivity | ].
  destruct (iterate_terminates (fun x => x + 1)%float 2.5 0 0%N eq_refl eq_refl)
    as (Hret & Hout & _).
  split; [apply (Hret 4%nat); vm_compute; lia | apply (Hout 3%nat); vm_compute; lia].
Defined.

(** ** More facts

    What the further statements below are proved from. *)

(** ** Zeros, infinities and NaN through the operations *)

Lemma zero_cases (z : float) (s : bool) :
  Prim2SF z = S754_zero s -> z = (if s then (-0)%float else 0%float).
Proof.
  intros H. apply Prim2SF_inj. rewrite H. destruct s; reflexivity.
Qed.

Lemma sub_self (k : float) : is_finite k = true -> (k - k)%float = 0%float.
Proof.
  intros Hk. apply Prim2SF_inj. rewrite sub_spec. rewrite is_finite_SF in Hk.
  change (Prim2SF 0) with (S754_zero false).
  destruct (Prim2SF k) as [s | s | | s m e]; try discriminate.
  - destruct s; reflexivity.
  - unfold SF64sub. cbn [SFsub].
    set (a := cond_Zopp s _).
    assert (H : a - a = 0) by apply Z.sub_diag.
    rewrite H. reflexivity.
Qed.

Lemma zero_mul_finite (z L : float) :
  (z =? 0)%float = true -> is_finite L = true -> ((z * L) =? 0)%float = true.
Proof.
  intros Hz HL. destruct (eqb_zero_spec z Hz) as [s Hs].
  rewrite is_finite_SF in HL.
  rewrite FloatAxioms.eqb_spec, mul_spec, Hs.
  destruct (Prim2SF L) as [s' | s' | | s' m e]; try discriminate;
    destruct s, s'; reflexivity.
Qed.

Lemma zero_add_zero (z : float) : (z =? 0)%float = true -> (0 + z)%float = 0%float.
Proof.
  intros Hz. destruct (eqb_zero_spec z Hz) as [s Hs].
  rewrite (zero_cases z s Hs). destruct s; reflexivity.
Qed.

Lemma round_value_zero (z : float) (p : N) :
  (p <= 9)%N -> (z =? 0)%float = true -> round_value z p = 0%float.
Proof.
  intros Hp Hz. destruct (eqb_zero_spec z Hz) as [s Hs].
  rewrite (zero_cases z s Hs).
  assert (H : (p = 0 \/ p = 1 \/ p = 2 \/ p = 3 \/ p = 4 \/ p = 5 \/ p = 6
               \/ p = 7 \/ p = 8 \/ p = 9)%N) by lia.
  repeat (destruct H as [H | H]; [subst p; destruct s; vm_compute; reflexivity | ]).
  subst p; destruct s; vm_compute; reflexivity.
Qed.

Lemma not_finite_cases (x : float) :
  is_finite x = false -> x = infinity \/ x = neg_infinity \/ x = nan.
Proof.
  intros H. rewrite is_finite_SF in H.
  destruct (Prim2SF x) as [s | s | | s m e] eqn:E; try discriminate.
  - destruct s; [right; left | left]; apply Prim2SF_inj; rewrite E; reflexivity.
  - right; right. apply Prim2SF_inj; rewrite E; reflexivity.
Qed.

Lemma round_value_not_finite (x : float) (p : N) :
  (p <= 9)%N -> is_finite x = false -> round_value x p = x.
Proof.
  intros Hp Hx.
  assert (H : (p = 0 \/ p = 1 \/ p = 2 \/ p = 3 \/ p = 4 \/ p = 5 \/ p = 6
               \/ p = 7 \/ p = 8 \/ p = 9)%N) by lia.
  destruct (not_finite_cases x Hx) as [-> | [-> | ->]];
    repeat (destruct H as [H | H]; [subst p; vm_compute; reflexivity | ]);
    subst p; vm_compute; reflexivity.
Qed.

Lemma zero_div (z d : float) :
  (z =? 0)%float = true -> (d =? 0)%float = false -> (d =? d)%float = true ->
  ((z / d) =? 0)%float = true.
Proof.
  intros Hz Hd Hn. destruct (eqb_zero_spec z Hz) as [s Hs].
  rewrite FloatAxioms.eqb_spec in *. rewrite div_spec, Hs.
  change (Prim2SF 0) with (S754_zero false) in *.
  destruct (Prim2SF d) as [s' | s' | | s' m e]; try destruct s'; try discriminate;
    destruct s; reflexivity.
Qed.

Lemma sub_zero (x z : float) :
  (z =? 0)%float = true -> (x =? 0)%float = false \/ x = 0%float ->
  (x - z)%float = x.
Proof.
  intros Hz Hx. destruct (eqb_zero_spec z Hz) as [s Hs].
  apply Prim2SF_inj. rewrite sub_spec, Hs.
  destruct Hx as [Hx | ->].
  - rewrite FloatAxioms.eqb_spec in Hx. change (Prim2SF 0) with (S754_zero false) in Hx.
    destruct (Prim2SF x) as [s' | s' | | s' m e]; try destruct s'; try discriminate;
      reflexivity.
  - destruct s; reflexivity.
Qed.

(** ** Newton's method at a root, and on a constant *)

Section NewtonFacts.

Variable LARGE : float.
Variable ACCURACY : N.
Hypothesis ACCURACY_fits : (ACCURACY <= 9)%N.

Lemma derivative_value_constant (k x : float) :
  is_finite k = true -> is_finite LARGE = true ->
  derivative_value LARGE ACCURACY (fun _ => k) x = 0%float.
Proof.
  intros Hk HL. unfold derivative_value. rewrite (sub_self k Hk).
  apply round_value_zero; [exact ACCURACY_fits | ].
  apply zero_mul_finite; [reflexivity | exact HL].
Qed.

Lemma newton_step_at_root (fx : Func) (x : float) :
  (fx x =? 0)%float = true ->
  (derivative_value LARGE ACCURACY fx x =? 0)%float = false ->
  (derivative_value LARGE ACCURACY fx x =? derivative_value LARGE ACCURACY fx x)%float = true ->
  (x =? 0)%float = false \/ x = 0%float ->
  newton_step LARGE ACCURACY fx x = x.
Proof.
  intros Hroot Hd Hn Hx. unfold newton_step.
  apply sub_zero; [ | exact Hx]. apply zero_div; assumption.
Qed.

Lemma newton_iter_at_root (fx : Func) (x : float) (n : nat) :
  newton_step LARGE ACCURACY fx x = x ->
  Nat.iter n (newton_step LARGE ACCURACY fx) x = x.
Proof.
  intros H. induction n as [| n IH]; [reflexivity | ].
  cbn [Nat.iter nat_rect]. fold (Nat.iter n (newton_step LARGE ACCURACY fx) x).
  rewrite IH. exact H.
Qed.

Lemma newton_step_constant (k x : float) :
  is_finite k = true -> is_finite LARGE = true ->
  is_finite (newton_step LARGE ACCURACY (fun _ => k) x) = false.
Proof.
  intros Hk HL. unfold newton_step. rewrite (derivative_value_constant k x Hk HL).
  apply sub_not_finite_r. apply div_zero_not_finite. reflexivity.
Qed.

End NewtonFacts.

(** ** Grids that are empty, and grids that do not end *)

Lemma grid_absorbed (LARGE : float) (i bound : float) (fuel : nat) :
  (i <=? bound)%float = true -> (i + SMALL LARGE)%float = i ->
  grid LARGE fuel i bound = None.
Proof.
  intros Hin Habs. induction fuel as [| fuel IH]; cbn [grid]; [reflexivity | ].
  rewrite Hin, Habs, IH. reflexivity.
Qed.

Lemma riemann_sum_of_zero (LARGE : float) (fx : Func) (g : list float) :
  is_finite (SMALL LARGE) = true -> (forall x, (fx x =? 0)%float = true) ->
  riemann_sum LARGE fx g = 0%float.
Proof.
  intros HS Hfx. unfold riemann_sum.
  induction g as [| x g IH]; cbn [fold_left]; [reflexivity | ].
  rewrite zero_add_zero; [exact IH | ].
  apply zero_mul_finite; [apply Hfx | exact HS].
Qed.

Lemma round_signed_zero (a : float) (negative : bool) (p c : N) :
  (p <= 9)%N -> (a =? 0)%float = true ->
  round (a * Double.of_Z (if negative then -1 else 1))%float p c = Ret 0%float c.
Proof.
  intros Hp Ha. rewrite round_run by exact Hp. f_equal.
  apply round_value_zero; [exact Hp | ].
  apply zero_mul_finite; [exact Ha | ]. destruct negative; reflexivity.
Qed.

(** ** The recursion of iterate, when the count is not finite *)

Lemma sub_one_not_finite (t : float) : is_finite t = false -> (t - 1)%float = t.
Proof.
  intros H. destruct (not_finite_cases t H) as [-> | [-> | ->]]; reflexivity.
Qed.

Lemma iterate_stuck (fx : Func) (times value : float) (fuel : nat) :
  (times <=? 0)%float = false -> (times - 1)%float = times ->
  forall c, iterate fuel fx times value c = OutOfFuel.
Proof.
  intros Hpos Habs. induction fuel as [| fuel IH]; intros c; cbn [iterate].
  - reflexivity.
  - rewrite Hpos, Habs. unfold bind. rewrite IH. reflexivity.
Qed.

Lemma ceilZ_unique (t : float) (k : Z) :
  (IZR k - 1 < B2R t <= IZR k)%R -> Double.ceilZ t = k.
Proof.
  intros [H1 H2]. pose proof (ceilZ_spec t) as [H3 H4].
  assert (k - 1 < Double.ceilZ t) by (apply lt_IZR; rewrite minus_IZR; simpl (IZR 1); lra).
  assert (Double.ceilZ t - 1 < k) by (apply lt_IZR; rewrite minus_IZR; simpl (IZR 1); lra).
  lia.
Qed.

Lemma ceilZ_of_Z (k : Z) : Z.abs k <= 2 ^ 53 -> Double.ceilZ (Double.of_Z k) = k.
Proof.
  intros Hk. destruct (of_Z_exact k Hk) as (_ & _ & HR).
  apply ceilZ_unique. rewrite HR. lra.
Qed.

(** ** Counts of iterations *)

Lemma zero_sub_zero (z : float) : (z =? 0)%float = true -> ((z - 0) =? 0)%float = true.
Proof.
  intros Hz. destruct (eqb_zero_spec z Hz) as [s Hs].
  rewrite (zero_cases z s Hs). destruct s; reflexivity.
Qed.

Lemma iterate_whole (fx : Func) (times value : float) (fuel : nat) (c : N) :
  is_finite times = true -> (times <=? 0x1p53)%float = true ->
  let n := Z.to_nat (Z.max 0 (Double.ceilZ times)) in
  iterate (S n + fuel) fx times value c = Ret (Nat.iter n fx value) (N.of_nat n + c)%N.
Proof.
  intros Hfinite Hbound n. apply iterate_run.
  - exact Hfinite.
  - rewrite <- B2R_pow53. apply leb_true_R; [exact Hfinite | reflexivity | exact Hbound].
  - unfold n. lia.
Qed.

Lemma ceilZ_le_pow53 (t : float) :
  is_finite t = true -> (t <=? 0x1p53)%float = true -> Double.ceilZ t <= 2 ^ 53.
Proof.
  intros Hfinite Hbound.
  assert (H : (B2R t <= IZR (2 ^ 53))%R).
  { rewrite <- B2R_pow53. apply leb_true_R; [exact Hfinite | reflexivity | exact Hbound]. }
  pose proof (ceilZ_spec t) as [H1 _].
  assert (Double.ceilZ t - 1 < 2 ^ 53) by (apply lt_IZR; rewrite minus_IZR; simpl (IZR 1); lra).
  lia.
Qed.

(** ** Rounding a whole number *)

(** Two finite doubles with the same value, which is not zero, are the same. *)
Lemma B2R_inj_nonzero (x y : float) :
  is_finite x = true -> B2R x = B2R y -> B2R y <> 0%R -> x = y.
Proof.
  rewrite is_finite_SF. unfold B2R. intros Hx Heq Hy.
  apply Prim2SF_inj.
  pose proof (Prim2SF_valid x) as Hvx. pose proof (Prim2SF_valid y) as Hvy.
  destruct (Prim2SF y) as [s | s | | s m e]; cbn [SF2R] in Hy; try contradiction.
  apply SF2R_inj; assumption.
Qed.

Lemma floorZ_unique (t : float) (k : Z) :
  (IZR k <= B2R t < IZR k + 1)%R -> Double.floorZ t = k.
Proof.
  intros [H1 H2]. pose proof (floorZ_spec t) as [H3 H4].
  assert (k < Double.floorZ t + 1) by (apply lt_IZR; rewrite plus_IZR; simpl (IZR 1); lra).
  assert (Double.floorZ t < k + 1) by (apply lt_IZR; rewrite plus_IZR; simpl (IZR 1); lra).
  lia.
Qed.

Lemma round_value_whole (n : Z) (places : N) :
  (places <= 9)%N -> Z.abs n * 10 ^ Z.of_N places <= 2 ^ 50 ->
  round_value (Double.of_Z n) places = Double.of_Z n.
Proof.
  intros Hp Hb.
  destruct (Z.eq_dec n 0) as [-> | Hn0].
  { apply round_value_zero; [exact Hp | reflexivity]. }
  pose proof (Pz_bounds places Hp) as HPz.
  destruct (P_spec places Hp) as [HPf HPr].
  set (Pz := 10 ^ Z.of_N places) in *.
  set (P := Double.of_Z Pz) in *.
  assert (Hn : Z.abs n <= 2 ^ 50) by nia.
  destruct (of_Z_exact n) as (_ & Hnf & Hnr); [lia | ].
  assert (Hprod : Z.abs (n * Pz) <= 2 ^ 50) by (rewrite Z.abs_mul; lia).
  assert (HprodR : (Rabs (IZR (n * Pz)) <= IZR (2 ^ 50))%R)
    by (rewrite <- abs_IZR; apply IZR_le; exact Hprod).
  apply Rabs_le_both in HprodR.
  assert (H50 : (IZR (2 ^ 50) + 1 < bpow 1023)%R).
  { pose proof bpow_1023_big. assert (IZR (2 ^ 50) <= IZR (2 ^ 53))%R
      by (apply IZR_le; lia). lra. }
  (* the product *)
  destruct (mul_faithful (Double.of_Z n) P Hnf HPf) as [Hs1f Hs1r].
  { rewrite Hnr, HPr, <- mult_IZR. apply Rabs_def1; lra. }
  rewrite Hnr, HPr, <- mult_IZR in Hs1r.
  assert (Hs1 : B2R (Double.of_Z n * P) = IZR (n * Pz)).
  { apply (rounds_to_exact _ _ Hs1r). exists (n * Pz), 0.
    rewrite F2R_0. repeat split; lia. }
  (* the sum *)
  destruct (add_faithful (Double.of_Z n * P) 0.5 Hs1f eq_refl) as [Hs2f Hs2r].
  { rewrite Hs1, B2R_half. apply Rabs_def1; lra. }
  rewrite Hs1, B2R_half in Hs2r.
  assert (Hs2 : B2R (Double.of_Z n * P + 0.5) = (IZR (n * Pz) + 1 / 2)%R).
  { apply (rounds_to_exact _ _ Hs2r). exists (2 * (n * Pz) + 1), (-1).
    repeat split; [ | lia | lia].
    unfold F2R, bpow. rewrite plus_IZR, (mult_IZR 2).
    change (powerRZ 2 (-1)) with (/ (2 * 1))%R. lra. }
  (* the floor *)
  assert (Hfl : Double.floor (Double.of_Z n * P + 0.5) = Double.of_Z (n * Pz)).
  { rewrite floor_of_Z.
    - f_equal. apply floorZ_unique. rewrite Hs2. lra.
    - exact Hs2f.
    - apply add_half_not_neg_zero; [exact Hs1f | ].
      rewrite Hs1. assert (IZR (2 ^ 50) <= IZR (2 ^ 53))%R by (apply IZR_le; lia).
      apply Rabs_le. lra.
    - rewrite Hs2. assert (IZR (2 ^ 50) + 1 <= IZR (2 ^ 53))%R
        by (rewrite <- plus_IZR; apply IZR_le; lia).
      apply Rabs_le. lra. }
  unfold round_value. fold Pz. fold P. rewrite Hfl.
  (* the quotient *)
  destruct (of_Z_exact (n * Pz)) as (_ & Hqf & Hqr); [lia | ].
  assert (HPpos : (1 <= IZR Pz)%R) by (apply IZR_le; lia).
  assert (Hquot : (IZR (n * Pz) / IZR Pz = IZR n)%R)
    by (rewrite mult_IZR; field; lra).
  assert (HnR : (Rabs (IZR n) <= IZR (2 ^ 50))%R)
    by (rewrite <- abs_IZR; apply IZR_le; exact Hn).
  apply Rabs_le_both in HnR.
  destruct (div_faithful (Double.of_Z (n * Pz)) P Hqf HPf) as [Hdf Hdr].
  { rewrite HPr. lra. }
  { rewrite Hqr, HPr, Hquot. apply Rabs_def1; lra. }
  rewrite Hqr, HPr, Hquot in Hdr.
  apply B2R_inj_nonzero; [exact Hdf | | ].
  - rewrite Hnr. apply (rounds_to_exact _ _ Hdr). exists n, 0.
    rewrite F2R_0. repeat split; lia.
  - rewrite Hnr. intros H0. apply eq_IZR in H0. contradiction.
Qed.

Lemma grid_abs (LARGE : float) (bound : float) (fuel : nat) :
  (0 <=? bound)%float = true ->
  forall i, grid LARGE fuel i (abs bound) = grid LARGE fuel i bound.
Proof.
  intros Hb. induction fuel as [| fuel IH]; intros i; cbn [grid]; [reflexivity | ].
  rewrite (leb_abs_nonneg i bound Hb), IH. reflexivity.
Qed.

(** ** The arithmetic of mMap *)

Lemma long_fits (z : Z) (c : N) : Z.abs z <= 2 ^ 62 + 2 ^ 30 -> long z c = Ret z c.
Proof.
  intros H. unfold long, Double.fits, Double.LONG_MIN, Double.LONG_MAX.
  replace (- 2 ^ 63 <=? z) with true by (symmetry; apply Z.leb_le; lia).
  replace (z <=? 2 ^ 63 - 1) with true by (symmetry; apply Z.leb_le; lia).
  reflexivity.
Qed.

Lemma long_cases (z : Z) (c : N) : long z c = Ret z c \/ long z c = Undefined.
Proof. unfold long. destruct (Double.fits _ _ z); [left | right]; reflexivity. Qed.

Lemma quot_abs_le (p d : Z) : d <> 0 -> Z.abs (Z.quot p d) <= Z.abs p.
Proof.
  intros Hd. rewrite <- Z.quot_abs by exact Hd.
  rewrite Z.quot_div_nonneg by lia.
  apply Z.div_le_upper_bound; [lia | ]. nia.
Qed.

Lemma mMap_run (value lower upper newlower newupper : Z) (c : N) :
  Z.abs value <= 2 ^ 30 -> Z.abs lower <= 2 ^ 30 -> Z.abs upper <= 2 ^ 30 ->
  Z.abs newlower <= 2 ^ 30 -> Z.abs newupper <= 2 ^ 30 -> upper <> lower ->
  mMap value lower upper newlower newupper c
  = Ret (Z.quot ((value - lower) * (newupper - newlower)) (upper - lower) + newlower) c.
Proof.
  intros Hv Hl Hu Hnl Hnu Hne.
  assert (Hp : Z.abs ((value - lower) * (newupper - newlower)) <= 2 ^ 62).
  { rewrite Z.abs_mul. change (2 ^ 62) with (2 ^ 31 * 2 ^ 31).
    apply Z.mul_le_mono_nonneg; lia. }
  assert (Hq := quot_abs_le ((value - lower) * (newupper - newlower)) (upper - lower)
                  ltac:(lia)).
  unfold mMap, bind.
  rewrite (long_fits (value - lower)) by lia.
  rewrite (long_fits (newupper - newlower)) by lia.
  rewrite (long_fits _ c) by lia.
  rewrite (long_fits (upper - lower)) by lia.
  destruct (Z.eqb_spec (upper - lower) 0) as [E | _]; [lia | ].
  rewrite (long_fits _ c) by lia.
  apply long_fits. lia.
Qed.

Lemma mMap_degenerate (value lower newlower newupper : Z) (c : N) :
  mMap value lower lower newlower newupper c = Undefined.
Proof.
  unfold mMap, bind.
  destruct (long_cases (value - lower) c) as [-> | ->]; [ | reflexivity].
  destruct (long_cases (newupper - newlower) c) as [-> | ->]; [ | reflexivity].
  destruct (long_cases ((value - lower) * (newupper - newlower)) c) as [-> | ->];
    [ | reflexivity].
  rewrite Z.sub_diag. reflexivity.
Qed.

Lemma quot_scale_range (a b d : Z) :
  0 <= a <= d -> 0 < d ->
  Z.min 0 b <= Z.quot (a * b) d <= Z.max 0 b.
Proof.
  intros Ha Hd. destruct (Z_le_gt_dec 0 b) as [Hb | Hb].
  - rewrite Z.quot_div_nonneg by nia.
    assert (0 <= a * b / d) by (apply Z.div_pos; nia).
    assert (a * b / d <= b) by (apply Z.div_le_upper_bound; nia).
    lia.
  - replace (a * b) with (- (a * - b)) by ring.
    rewrite Z.quot_opp_l by lia. rewrite Z.quot_div_nonneg by nia.
    assert (0 <= a * - b / d) by (apply Z.div_pos; nia).
    assert (a * - b / d <= - b) by (apply Z.div_le_upper_bound; nia).
    lia.
Qed.

Lemma long_to_int_small (z : Z) : - 2 ^ 31 <= z < 2 ^ 31 -> Double.long_to_int z = z.
Proof.
  intros H. unfold Double.long_to_int. rewrite Z.mod_small by lia. ring.
Qed.

(** ** The screen and its size *)

Lemma set_nth_length {A} (f : A -> A) (l : list A) :
  forall n, List.length (set_nth n f l) = List.length l.
Proof.
  induction l as [| x l IH]; intros [| n]; cbn [set_nth List.length];
    try reflexivity. rewrite IH. reflexivity.
Qed.

Lemma set_nth_Forall {A} (P : A -> Prop) (f : A -> A) (l : list A) :
  (forall x, P x -> P (f x)) -> Forall P l -> forall n, Forall P (set_nth n f l).
Proof.
  intros Hf Hl. induction Hl as [| x l Hx Hl IH]; intros [| n]; cbn [set_nth];
    constructor; auto.
Qed.

Lemma blank_well_sized (g : Grapher) : well_sized g (blank (mTermHeight g) (mTermWidth g)).
Proof.
  unfold well_sized, blank. split.
  - apply repeat_length.
  - apply Forall_forall. intros row Hrow. apply repeat_spec in Hrow. subst row.
    apply repeat_length.
Qed.

Lemma poke_ret (g : Grapher) (s s' : screen) (row col : Z) (ch : ascii) (c c' : N) :
  poke g s row col ch c = Ret s' c' ->
  c' = c /\ s' = set_nth (Z.to_nat row) (set_nth (Z.to_nat col) (fun _ => ch)) s.
Proof.
  unfold poke. destruct (_ && _); [ | discriminate].
  unfold ret. intros H. injection H as <- <-. split; reflexivity.
Qed.

Lemma poke_well_sized (g : Grapher) (s s' : screen) (row col : Z) (ch : ascii) (c c' : N) :
  poke g s row col ch c = Ret s' c' -> well_sized g s -> well_sized g s' /\ c' = c.
Proof.
  intros H [Hlen Hrows]. apply poke_ret in H as [-> ->].
  split; [ | reflexivity]. split.
  - rewrite set_nth_length. exact Hlen.
  - apply set_nth_Forall; [ | exact Hrows].
    intros x Hx. rewrite set_nth_length. exact Hx.
Qed.

Lemma poke_in_bounds (g : Grapher) (s : screen) (row col : Z) (ch : ascii) (c : N) :
  0 <= row < mTermHeight g -> 0 <= col < mTermWidth g ->
  poke g s row col ch c
  = Ret (set_nth (Z.to_nat row) (set_nth (Z.to_nat col) (fun _ => ch)) s) c.
Proof.
  intros Hr Hc. unfold poke, Double.fits.
  replace (0 <=? row) with true by (symmetry; apply Z.leb_le; lia).
  replace (row <=? mTermHeight g - 1) with true by (symmetry; apply Z.leb_le; lia).
  replace (0 <=? col) with true by (symmetry; apply Z.leb_le; lia).
  replace (col <=? mTermWidth g - 1) with true by (symmetry; apply Z.leb_le; lia).
  reflexivity.
Qed.

(** A loop whose body keeps an invariant and evaluates [k] functions keeps
    the invariant and evaluates [k] functions per turn. *)
Lemma for_upto_invariant {S} (I : S -> Prop) (k : N) (body : Z -> S -> M S) :
  (forall i s c s' c', body i s c = Ret s' c' -> I s -> I s' /\ c' = (c + k)%N) ->
  forall n i s c s' c',
    for_upto n i body s c = Ret s' c' -> I s -> I s' /\ c' = (c + N.of_nat n * k)%N.
Proof.
  intros Hbody. induction n as [| n IH]; intros i s c s' c' H Hs; cbn [for_upto] in H.
  - unfold ret in H. injection H as <- <-. split; [exact Hs | lia].
  - unfold bind in H. destruct (body i s c) as [s1 c1 | |] eqn:E; try discriminate.
    destruct (Hbody _ _ _ _ _ E Hs) as [Hs1 ->].
    destruct (IH _ _ _ _ _ H Hs1) as [Hs' ->]. split; [exact Hs' | lia].
Qed.

Lemma fill_well_sized (g : Grapher) (step i : Z) (ch : ascii) (n : nat) :
  forall j s c s' c',
    fill g n j step i ch s c = Ret s' c' -> well_sized g s -> well_sized g s' /\ c' = c.
Proof.
  induction n as [| n IH]; intros j s c s' c' H Hs; cbn [fill] in H.
  - unfold ret in H. injection H as <- <-. split; [exact Hs | reflexivity].
  - unfold bind in H. destruct (poke g s j i ch c) as [s1 c1 | |] eqn:E; try discriminate.
    destruct (poke_well_sized _ _ _ _ _ _ _ _ E Hs) as [Hs1 ->].
    exact (IH _ _ _ _ _ H Hs1).
Qed.

(** The conversions and [mMap] evaluate no function. *)
Lemma long_ret (z r : Z) (c c' : N) : long z c = Ret r c' -> r = z /\ c' = c.
Proof.
  unfold long. destruct (Double.fits _ _ z); [ | discriminate].
  unfold ret. intros H. injection H as <- <-. split; reflexivity.
Qed.

Lemma int_ret (z r : Z) (c c' : N) : int z c = Ret r c' -> r = z /\ c' = c.
Proof.
  unfold int. destruct (Double.fits _ _ z); [ | discriminate].
  unfold ret. intros H. injection H as <- <-. split; reflexivity.
Qed.

Lemma defined_ret {A} (o : option A) (r : A) (c c' : N) :
  defined o c = Ret r c' -> o = Some r /\ c' = c.
Proof.
  destruct o as [a |]; cbn [defined]; [ | discriminate].
  unfold ret. intros H. injection H as <- <-. split; reflexivity.
Qed.

Lemma bind_ret {A B} (m : M A) (k : A -> M B) (c c' : N) (b : B) :
  bind m k c = Ret b c' -> exists a c1, m c = Ret a c1 /\ k a c1 = Ret b c'.
Proof.
  unfold bind. destruct (m c) as [a c1 | |]; try discriminate.
  intros H. exists a, c1. split; [reflexivity | exact H].
Qed.

Lemma mMap_calls (value lower upper newlower newupper r : Z) (c c' : N) :
  mMap value lower upper newlower newupper c = Ret r c' -> c' = c.
Proof.
  unfold mMap. intros H.
  apply bind_ret in H as (a & c1 & Ha & H). apply long_ret in Ha as [_ ->].
  apply bind_ret in H as (b & c2 & Hb & H). apply long_ret in Hb as [_ ->].
  apply bind_ret in H as (p & c3 & Hp & H). apply long_ret in Hp as [_ ->].
  apply bind_ret in H as (d & c4 & Hd & H). apply long_ret in Hd as [_ ->].
  apply bind_ret in H as (q & c5 & Hq & H).
  destruct (d =? 0); [discriminate | ]. apply long_ret in Hq as [_ ->].
  apply long_ret in H as [_ ->]. reflexivity.
Qed.

Lemma pixelToX_calls (g : Grapher) (i : Z) (x : float) (c c' : N) :
  pixelToX g i c = Ret x c' -> c' = c.
Proof.
  unfold pixelToX. intros H.
  apply bind_ret in H as (a & c1 & Ha & H). apply int_ret in Ha as [_ ->].
  apply bind_ret in H as (b & c2 & Hb & H). apply defined_ret in Hb as [_ ->].
  apply bind_ret in H as (p & c3 & Hp & H). apply defined_ret in Hp as [_ ->].
  apply bind_ret in H as (d & c4 & Hd & H). apply mMap_calls in Hd as ->.
  unfold ret in H. injection H as _ <-. reflexivity.
Qed.

Lemma yToPixel_calls (g : Grapher) (v : float) (r : Z) (c c' : N) :
  yToPixel g v c = Ret r c' -> c' = c.
Proof.
  unfold yToPixel. intros H.
  apply bind_ret in H as (a & c1 & Ha & H). apply defined_ret in Ha as [_ ->].
  apply bind_ret in H as (b & c2 & Hb & H). apply defined_ret in Hb as [_ ->].
  apply bind_ret in H as (p & c3 & Hp & H). apply defined_ret in Hp as [_ ->].
  apply bind_ret in H as (d & c4 & Hd & H). apply mMap_calls in Hd as ->.
  unfold ret in H. injection H as _ <-. reflexivity.
Qed.

Lemma xToPixel_calls (g : Grapher) (v : float) (r : Z) (c c' : N) :
  xToPixel g v c = Ret r c' -> c' = c.
Proof.
  unfold xToPixel. intros H.
  apply bind_ret in H as (a & c1 & Ha & H). apply defined_ret in Ha as [_ ->].
  apply bind_ret in H as (b & c2 & Hb & H). apply defined_ret in Hb as [_ ->].
  apply bind_ret in H as (p & c3 & Hp & H). apply defined_ret in Hp as [_ ->].
  apply bind_ret in H as (d & c4 & Hd & H). apply mMap_calls in Hd as ->.
  unfold ret in H. injection H as _ <-. reflexivity.
Qed.

(** One column of one function: the screen keeps its size, and the function
    is evaluated once. *)
Lemma plot_column_well_sized (g : Grapher) (p : Func * ascii) (i : Z)
    (st st' : screen * Z) (c c' : N) :
  plot_column g p i st c = Ret st' c' ->
  well_sized g (fst st) -> well_sized g (fst st') /\ c' = (c + 1)%N.
Proof.
  destruct st as [s last]. unfold plot_column. intros H Hs. cbn [fst] in Hs.
  apply bind_ret in H as (x & c1 & Hx & H). apply pixelToX_calls in Hx as ->.
  apply bind_ret in H as (y & c2 & Hy & H).
  unfold call in Hy. injection Hy as <- <-.
  destruct (_ || _)%float.
  - unfold ret in H. injection H as <- <-. split; [exact Hs | lia].
  - apply bind_ret in H as (py & c3 & Hpy & H). apply yToPixel_calls in Hpy as ->.
    apply bind_ret in H as (s1 & c4 & Hs1 & H).
    assert (H1 : well_sized g s1 /\ c4 = N.succ c).
    { destruct (_ && _).
      - exact (fill_well_sized _ _ _ _ _ _ _ _ _ _ Hs1 Hs).
      - unfold ret in Hs1. injection Hs1 as <- <-. split; [exact Hs | reflexivity]. }
    destruct H1 as [Hs1' ->].
    apply bind_ret in H as (s2 & c5 & Hs2 & H).
    destruct (poke_well_sized _ _ _ _ _ _ _ _ Hs2 Hs1') as [Hs2' ->].
    unfold ret in H. injection H as <- <-. split; [exact Hs2' | lia].
Qed.

Lemma plot_function_well_sized (g : Grapher) (p : Func * ascii) (s s' : screen) (c c' : N) :
  plot_function g s p c = Ret s' c' ->
  well_sized g s -> well_sized g s' /\ c' = (c + Z.to_N (mTermWidth g))%N.
Proof.
  unfold plot_function. intros H Hs.
  apply bind_ret in H as (st & c1 & Hst & H).
  apply (for_upto_invariant (fun st => well_sized g (fst st)) 1) in Hst.
  - destruct Hst as [Hs' ->]. unfold ret in H. injection H as <- <-.
    split; [exact Hs' | lia].
  - intros i st0 c0 st1 c2. apply plot_column_well_sized.
  - exact Hs.
Qed.

Lemma plot_functions_well_sized (g : Grapher) (fs : list (Func * ascii)) :
  forall s s' c c',
    plot_functions g fs s c = Ret s' c' ->
    well_sized g s ->
    well_sized g s'
    /\ c' = (c + N.of_nat (List.length fs) * Z.to_N (mTermWidth g))%N.
Proof.
  induction fs as [| p fs IH]; intros s s' c c' H Hs; cbn [plot_functions] in H.
  - unfold ret in H. injection H as <- <-. split; [exact Hs | cbn [List.length]; lia].
  - apply bind_ret in H as (s1 & c1 & Hs1 & H).
    destruct (plot_function_well_sized _ _ _ _ _ _ Hs1 Hs) as [Hs1' ->].
    destruct (IH _ _ _ _ H Hs1') as [Hs' ->].
    split; [exact Hs' | cbn [List.length]; lia].
Qed.

Lemma string_of_list_ascii_length (l : list ascii) :
  String.length (string_of_list_ascii l) = List.length l.
Proof.
  induction l as [| a l IH]; cbn [string_of_list_ascii String.length List.length];
    [reflexivity | rewrite IH; reflexivity].
Qed.

Lemma serialize_length (g : Grapher) (s : screen) :
  well_sized g s ->
  String.length (serialize s)
  = (Z.to_nat (mTermHeight g) * (Z.to_nat (mTermWidth g) + 1))%nat.
Proof.
  intros [Hlen Hrows]. unfold serialize. rewrite string_of_list_ascii_length.
  rewrite <- Hlen. clear Hlen.
  induction Hrows as [| row s Hrow Hrows IH]; cbn [map List.concat List.length].
  - reflexivity.
  - rewrite length_app, length_app, IH, Hrow. cbn [List.length]. lia.
Qed.

Lemma int_fits (z : Z) (c : N) : - 2 ^ 31 <= z < 2 ^ 31 -> int z c = Ret z c.
Proof.
  intros H. unfold int, Double.fits, Double.INT_MIN, Double.INT_MAX.
  replace (- 2 ^ 31 <=? z) with true by (symmetry; apply Z.leb_le; lia).
  replace (z <=? 2 ^ 31 - 1) with true by (symmetry; apply Z.leb_le; lia).
  reflexivity.
Qed.

Lemma plot_column_out_of_range (g : Grapher) (p : Func * ascii) (i : Z)
    (st st' : screen * Z) (c c' : N) :
  (forall x, ((fst p x <? fst (mYrange g)) || (snd (mYrange g) <? fst p x))%float = true) ->
  plot_column g p i st c = Ret st' c' -> st' = st.
Proof.
  intros Hout. destruct st as [s last]. unfold plot_column. intros H.
  apply bind_ret in H as (x & c1 & Hx & H).
  apply bind_ret in H as (y & c2 & Hy & H).
  unfold call in Hy. injection Hy as <- <-. rewrite Hout in H.
  unfold ret in H. injection H as <- _. reflexivity.
Qed.

Lemma for_upto_unchanged {S} (body : Z -> S -> M S) :
  (forall i s c s' c', body i s c = Ret s' c' -> s' = s) ->
  forall n i s c s' c', for_upto n i body s c = Ret s' c' -> s' = s.
Proof.
  intros Hbody. induction n as [| n IH]; intros i s c s' c' H; cbn [for_upto] in H.
  - unfold ret in H. injection H as <- _. reflexivity.
  - apply bind_ret in H as (s1 & c1 & H1 & H).
    apply Hbody in H1. subst s1. exact (IH _ _ _ _ _ H).
Qed.

Lemma plot_function_out_of_range (g : Grapher) (p : Func * ascii) (s s' : screen)
    (c c' : N) :
  (forall x, ((fst p x <? fst (mYrange g)) || (snd (mYrange g) <? fst p x))%float = true) ->
  plot_function g s p c = Ret s' c' -> s' = s.
Proof.
  intros Hout. unfold plot_function. intros H.
  apply bind_ret in H as (st & c1 & Hst & H).
  apply for_upto_unchanged in Hst.
  - subst st. unfold ret in H. injection H as <- _. reflexivity.
  - intros i st0 c0 st1 c2. apply plot_column_out_of_range. exact Hout.
Qed.

Lemma plot_functions_out_of_range (g : Grapher) (fs : list (Func * ascii)) :
  (forall p, In p fs -> forall x,
      ((fst p x <? fst (mYrange g)) || (snd (mYrange g) <? fst p x))%float = true) ->
  forall s s' c c', plot_functions g fs s c = Ret s' c' -> s' = s.
Proof.
  induction fs as [| p fs IH]; intros Hout s s' c c' H; cbn [plot_functions] in H.
  - unfold ret in H. injection H as <- _. reflexivity.
  - apply bind_ret in H as (s1 & c1 & H1 & H).
    apply plot_function_out_of_range in H1; [ | apply Hout; left; reflexivity].
    subst s1. apply (IH (fun q Hq => Hout q (or_intror Hq)) _ _ _ _ H).
Qed.

Lemma nth_set_nth {A} (f : A -> A) (d : A) (l : list A) :
  forall n k, (n < List.length l)%nat ->
    nth k (set_nth n f l) d = if (k =? n)%nat then f (nth k l d) else nth k l d.
Proof.
  induction l as [| x l IH]; intros n k Hn; cbn [List.length] in Hn; [lia | ].
  destruct n as [| n], k as [| k]; cbn [set_nth nth Nat.eqb]; try reflexivity.
  apply IH. lia.
Qed.

Lemma pixel_blank (height width r k : Z) : pixel (blank height width) r k = " "%char.
Proof.
  unfold pixel, blank.
  destruct (nth_in_or_default (Z.to_nat r)
              (repeat (repeat " "%char (Z.to_nat width)) (Z.to_nat height)) [])
    as [Hin | ->].
  - apply repeat_spec in Hin. rewrite Hin. apply nth_repeat.
  - destruct (Z.to_nat k); reflexivity.
Qed.

Lemma well_sized_row (g : Grapher) (s : screen) (r : nat) :
  well_sized g s -> (r < Z.to_nat (mTermHeight g))%nat ->
  List.length (nth r s []) = Z.to_nat (mTermWidth g).
Proof.
  intros [Hlen Hrows] Hr. rewrite Forall_forall in Hrows. apply Hrows.
  apply nth_In. lia.
Qed.

Lemma pixel_poke (g : Grapher) (s : screen) (row col r k : Z) (ch : ascii) :
  well_sized g s -> 0 <= row < mTermHeight g -> 0 <= col < mTermWidth g ->
  0 <= r -> 0 <= k ->
  pixel (set_nth (Z.to_nat row) (set_nth (Z.to_nat col) (fun _ => ch)) s) r k
  = if (r =? row) && (k =? col) then ch else pixel s r k.
Proof.
  intros Hs Hrow Hcol Hr Hk. unfold pixel.
  rewrite nth_set_nth by (destruct Hs as [-> _]; lia).
  destruct (Z.eqb_spec r row) as [-> | Hne].
  - rewrite Nat.eqb_refl. cbn [andb].
    rewrite nth_set_nth by (rewrite (well_sized_row g s _ Hs); lia).
    destruct (Z.eqb_spec k col) as [-> | Hne'].
    + rewrite Nat.eqb_refl. reflexivity.
    + replace (Z.to_nat k =? Z.to_nat col)%nat with false; [reflexivity | ].
      symmetry. apply Nat.eqb_neq. lia.
  - replace (Z.to_nat r =? Z.to_nat row)%nat with false; [reflexivity | ].
    symmetry. apply Nat.eqb_neq. lia.
Qed.

(** The loop that draws the y axis: one column, every row. *)
Lemma for_upto_rows (g : Grapher) (col : Z) (ch : ascii) (n : nat) :
  0 <= col < mTermWidth g ->
  forall i s c, 0 <= i -> i + Z.of_nat n <= mTermHeight g -> well_sized g s ->
    exists s', for_upto n i (fun i s => poke g s i col ch) s c = Ret s' c
               /\ well_sized g s'
               /\ forall r k, 0 <= r -> 0 <= k ->
                    pixel s' r k
                    = if (i <=? r) && (r <? i + Z.of_nat n) && (k =? col) then ch
                      else pixel s r k.
Proof.
  intros Hcol. induction n as [| n IH]; intros i s c Hi Hn Hs; cbn [for_upto].
  - exists s. split; [reflexivity | split; [exact Hs | ]]. intros r k _ _.
    replace ((i <=? r) && (r <? i + Z.of_nat 0)) with false; [reflexivity | ].
    symmetry. apply andb_false_iff.
    destruct (Z.leb_spec i r); [right; apply Z.ltb_ge; lia | left; reflexivity].
  - unfold bind. rewrite poke_in_bounds by lia.
    assert (Hs1 : well_sized g (set_nth (Z.to_nat i)
                                  (set_nth (Z.to_nat col) (fun _ => ch)) s)).
    { apply (poke_well_sized g s _ i col ch c c); [ | exact Hs].
      apply poke_in_bounds; lia. }
    destruct (IH (i + 1) _ c ltac:(lia) ltac:(lia) Hs1) as (s' & Hrun & Hs' & Hpix).
    exists s'. split; [exact Hrun | split; [exact Hs' | ]]. intros r k Hr Hk.
    rewrite (Hpix r k Hr Hk), (pixel_poke g s i col r k ch Hs) by lia.
    destruct (Z.eqb_spec k col) as [-> | Hne]; rewrite ?andb_false_r; [ | reflexivity].
    rewrite !andb_true_r.
    destruct (Z.leb_spec (i + 1) r), (Z.ltb_spec r (i + 1 + Z.of_nat n)),
      (Z.leb_spec i r), (Z.ltb_spec r (i + Z.of_nat (S n))), (Z.eqb_spec r i);
      cbn [andb]; try reflexivity; lia.
Qed.

(** The loop that draws the x axis: one row, every column. *)
Lemma for_upto_columns (g : Grapher) (row : Z) (ch : ascii) (n : nat) :
  0 <= row < mTermHeight g ->
  forall i s c, 0 <= i -> i + Z.of_nat n <= mTermWidth g -> well_sized g s ->
    exists s', for_upto n i (fun i s => poke g s row i ch) s c = Ret s' c
               /\ well_sized g s'
               /\ forall r k, 0 <= r -> 0 <= k ->
                    pixel s' r k
                    = if (r =? row) && ((i <=? k) && (k <? i + Z.of_nat n)) then ch
                      else pixel s r k.
Proof.
  intros Hrow. induction n as [| n IH]; intros i s c Hi Hn Hs; cbn [for_upto].
  - exists s. split; [reflexivity | split; [exact Hs | ]]. intros r k _ _.
    replace ((i <=? k) && (k <? i + Z.of_nat 0)) with false;
      [rewrite andb_false_r; reflexivity | ].
    symmetry. apply andb_false_iff.
    destruct (Z.leb_spec i k); [right; apply Z.ltb_ge; lia | left; reflexivity].
  - unfold bind. rewrite poke_in_bounds by lia.
    assert (Hs1 : well_sized g (set_nth (Z.to_nat row)
                                  (set_nth (Z.to_nat i) (fun _ => ch)) s)).
    { apply (poke_well_sized g s _ row i ch c c); [ | exact Hs].
      apply poke_in_bounds; lia. }
    destruct (IH (i + 1) _ c ltac:(lia) ltac:(lia) Hs1) as (s' & Hrun & Hs' & Hpix).
    exists s'. split; [exact Hrun | split; [exact Hs' | ]]. intros r k Hr Hk.
    rewrite (Hpix r k Hr Hk), (pixel_poke g s row i r k ch Hs) by lia.
    destruct (Z.eqb_spec r row) as [-> | Hne]; cbn [andb]; [ | reflexivity].
    destruct (Z.leb_spec (i + 1) k), (Z.ltb_spec k (i + 1 + Z.of_nat n)),
      (Z.leb_spec i k), (Z.ltb_spec k (i + Z.of_nat (S n))), (Z.eqb_spec k i);
      cbn [andb]; try reflexivity; lia.
Qed.

(** [display] up to the axes: the screen the functions are drawn on. *)
Lemma display_after_axes (g : Grapher) (xaxis yaxis : Z) (c : N) :
  0 < mTermWidth g -> 0 < mTermHeight g ->
  yToPixel g (Double.of_Z 0) c = Ret xaxis c ->
  xToPixel g (Double.of_Z 0) c = Ret yaxis c ->
  exists s2 : screen,
    well_sized g s2
    /\ (forall r k, 0 <= r < mTermHeight g -> 0 <= k < mTermWidth g ->
          pixel s2 r k
          = if r =? xaxis then "-"%char
            else if k =? yaxis then "|"%char else " "%char)
    /\ display g c
       = (s3 <- plot_functions g (mFunctions g) s2 ;; ret (serialize s3)) c.
Proof.
  intros Hwidth Hheight Hxaxis Hyaxis. unfold display.
  replace (mTermHeight g <=? 0) with false by (symmetry; apply Z.leb_gt; lia).
  replace (mTermWidth g <=? 0) with false by (symmetry; apply Z.leb_gt; lia).
  cbn [orb]. unfold bind at 1. unfold ret at 1.
  unfold bind at 1. rewrite Hxaxis. unfold bind at 1. rewrite Hyaxis.
  set (s0 := blank _ _).
  assert (Hs0 : well_sized g s0) by apply blank_well_sized.
  assert (H1 : exists s1,
             (if (0 <=? yaxis) && (yaxis <? mTermWidth g)
              then for_upto (Z.to_nat (mTermHeight g)) 0
                     (fun i s => poke g s i yaxis "|"%char) s0
              else ret s0) c = Ret s1 c
             /\ well_sized g s1
             /\ forall r k, 0 <= r < mTermHeight g -> 0 <= k < mTermWidth g ->
                  pixel s1 r k = if k =? yaxis then "|"%char else " "%char).
  { destruct ((0 <=? yaxis) && (yaxis <? mTermWidth g)) eqn:E.
    - apply andb_prop in E as [E1 E2]. apply Z.leb_le in E1. apply Z.ltb_lt in E2.
      destruct (for_upto_rows g yaxis "|"%char (Z.to_nat (mTermHeight g))
                  ltac:(lia) 0 s0 c ltac:(lia) ltac:(lia) Hs0) as (s1 & Hrun & Hs1 & Hpix).
      exists s1. split; [exact Hrun | split; [exact Hs1 | ]]. intros r k Hr Hk.
      rewrite Hpix by lia. unfold s0. rewrite pixel_blank.
      replace (0 <=? r) with true by (symmetry; apply Z.leb_le; lia).
      replace (r <? 0 + Z.of_nat (Z.to_nat (mTermHeight g))) with true
        by (symmetry; apply Z.ltb_lt; lia).
      reflexivity.
    - exists s0. split; [reflexivity | split; [exact Hs0 | ]]. intros r k Hr Hk.
      unfold s0. rewrite pixel_blank.
      destruct (Z.eqb_spec k yaxis) as [-> | _]; [ | reflexivity].
      apply andb_false_iff in E as [E | E];
        [apply Z.leb_gt in E | apply Z.ltb_ge in E]; lia. }
  destruct H1 as (s1 & Hrun1 & Hs1 & Hpix1).
  unfold bind at 1. rewrite Hrun1.
  assert (H2 : exists s2,
             (if (0 <=? xaxis) && (xaxis <? mTermHeight g)
              then for_upto (Z.to_nat (mTermWidth g)) 0
                     (fun i s => poke g s xaxis i "-"%char) s1
              else ret s1) c = Ret s2 c
             /\ well_sized g s2
             /\ forall r k, 0 <= r < mTermHeight g -> 0 <= k < mTermWidth g ->
                  pixel s2 r k
                  = if r =? xaxis then "-"%char
                    else if k =? yaxis then "|"%char else " "%char).
  { destruct ((0 <=? xaxis) && (xaxis <? mTermHeight g)) eqn:E.
    - apply andb_prop in E as [E1 E2]. apply Z.leb_le in E1. apply Z.ltb_lt in E2.
      destruct (for_upto_columns g xaxis "-"%char (Z.to_nat (mTermWidth g))
                  ltac:(lia) 0 s1 c ltac:(lia) ltac:(lia) Hs1) as (s2 & Hrun & Hs2 & Hpix).
      exists s2. split; [exact Hrun | split; [exact Hs2 | ]]. intros r k Hr Hk.
      rewrite Hpix by lia. rewrite Hpix1 by lia.
      replace (0 <=? k) with true by (symmetry; apply Z.leb_le; lia).
      replace (k <? 0 + Z.of_nat (Z.to_nat (mTermWidth g))) with true
        by (symmetry; apply Z.ltb_lt; lia).
      rewrite andb_true_r. reflexivity.
    - exists s1. split; [reflexivity | split; [exact Hs1 | ]].
      intros r k Hr Hk. rewrite Hpix1 by lia.
      destruct (Z.eqb_spec r xaxis) as [-> | _]; [ | reflexivity].
      apply andb_false_iff in E as [E | E];
        [apply Z.leb_gt in E | apply Z.ltb_ge in E]; lia. }
  destruct H2 as (s2 & Hrun2 & Hs2 & Hpix2).
  unfold bind at 1. rewrite Hrun2.
  exists s2. split; [exact Hs2 | split; [exact Hpix2 | reflexivity]].
Qed.

Lemma counter_free_ret {A} (a : A) : counter_free (ret a).
Proof. intros c r c' H d. unfold ret in *. injection H as <- _. reflexivity. Qed.

Lemma counter_free_undefined {A} : counter_free (@undefined A).
Proof. intros c r c' H. discriminate. Qed.

Lemma counter_free_defined {A} (o : option A) : counter_free (defined o).
Proof.
  destruct o; cbn [defined]; [apply counter_free_ret | apply counter_free_undefined].
Qed.

Lemma counter_free_long (z : Z) : counter_free (long z).
Proof.
  unfold long. destruct (Double.fits _ _ z);
    [apply counter_free_ret | apply counter_free_undefined].
Qed.

Lemma counter_free_int (z : Z) : counter_free (int z).
Proof.
  unfold int. destruct (Double.fits _ _ z);
    [apply counter_free_ret | apply counter_free_undefined].
Qed.

Lemma counter_free_bind {A B} (m : M A) (k : A -> M B) :
  counter_free m -> (forall a, counter_free (k a)) -> counter_free (bind m k).
Proof.
  intros Hm Hk c r c' H d. apply bind_ret in H as (a & c1 & Ha & H).
  unfold bind. rewrite (Hm _ _ _ Ha d). exact (Hk a _ _ _ H d).
Qed.

Lemma counter_free_mMap (value lower upper newlower newupper : Z) :
  counter_free (mMap value lower upper newlower newupper).
Proof.
  unfold mMap.
  repeat (apply counter_free_bind; [try apply counter_free_long | intros ?]).
  - destruct (_ =? 0); [apply counter_free_undefined | apply counter_free_long].
  - apply counter_free_long.
Qed.

Lemma counter_free_pixelToX (g : Grapher) (i : Z) : counter_free (pixelToX g i).
Proof.
  unfold pixelToX.
  apply counter_free_bind; [apply counter_free_int | intros ?].
  apply counter_free_bind; [apply counter_free_defined | intros ?].
  apply counter_free_bind; [apply counter_free_defined | intros ?].
  apply counter_free_bind; [apply counter_free_mMap | intros ?].
  apply counter_free_ret.
Qed.

Lemma counter_free_yToPixel (g : Grapher) (val : float) : counter_free (yToPixel g val).
Proof.
  unfold yToPixel.
  apply counter_free_bind; [apply counter_free_defined | intros ?].
  apply counter_free_bind; [apply counter_free_defined | intros ?].
  apply counter_free_bind; [apply counter_free_defined | intros ?].
  apply counter_free_bind; [apply counter_free_mMap | intros ?].
  apply counter_free_ret.
Qed.

Lemma poke_bounds (g : Grapher) (s s' : screen) (row col : Z) (ch : ascii) (c c' : N) :
  poke g s row col ch c = Ret s' c' ->
  0 <= row < mTermHeight g /\ 0 <= col < mTermWidth g.
Proof.
  unfold poke, Double.fits. destruct (_ && _) eqn:E; [ | discriminate]. intros _.
  apply andb_prop in E as [E1 E2].
  apply andb_prop in E1 as [E1 E1']. apply andb_prop in E2 as [E2 E2'].
  apply Z.leb_le in E1, E1', E2, E2'. lia.
Qed.

Lemma poke_pixel (g : Grapher) (s s' : screen) (row col : Z) (ch : ascii) (c c' : N) :
  poke g s row col ch c = Ret s' c' -> well_sized g s ->
  well_sized g s'
  /\ forall r k, 0 <= r -> 0 <= k ->
       pixel s' r k = if (r =? row) && (k =? col) then ch else pixel s r k.
Proof.
  intros H Hs. pose proof (poke_bounds _ _ _ _ _ _ _ _ H) as [Hrow Hcol].
  split; [exact (proj1 (poke_well_sized _ _ _ _ _ _ _ _ H Hs)) | ].
  apply poke_ret in H as [_ ->]. intros r k Hr Hk.
  apply (pixel_poke g); assumption.
Qed.

(** The interpolation loop stores into its column only. *)
Lemma fill_other_columns (g : Grapher) (step i : Z) (ch : ascii) (n : nat) :
  forall j s c s' c',
    fill g n j step i ch s c = Ret s' c' -> well_sized g s ->
    forall r k, 0 <= r -> 0 <= k -> k <> i -> pixel s' r k = pixel s r k.
Proof.
  induction n as [| n IH]; intros j s c s' c' H Hs r k Hr Hk Hne; cbn [fill] in H.
  - unfold ret in H. injection H as <- _. reflexivity.
  - apply bind_ret in H as (s1 & c1 & H1 & H).
    destruct (poke_pixel _ _ _ _ _ _ _ _ H1 Hs) as [Hs1 Hpix].
    rewrite (IH _ _ _ _ _ H Hs1 r k Hr Hk Hne), (Hpix r k Hr Hk).
    replace (k =? i) with false by (symmetry; apply Z.eqb_neq; exact Hne).
    rewrite andb_false_r. reflexivity.
Qed.

(** One column of one function: the other columns are left as they are,
    and the row of the sample, when the sample is in the range, holds the
    character of the function. *)
Lemma plot_column_marks (g : Grapher) (p : Func * ascii) (i : Z)
    (st st' : screen * Z) (c c' : N) :
  plot_column g p i st c = Ret st' c' -> well_sized g (fst st) ->
  well_sized g (fst st')
  /\ (forall r k, 0 <= r -> 0 <= k -> k <> i -> pixel (fst st') r k = pixel (fst st) r k)
  /\ (forall x py cx cx' cy cy',
         pixelToX g i cx = Ret x cx' ->
         ((fst p x <? fst (mYrange g)) || (snd (mYrange g) <? fst p x))%float = false ->
         yToPixel g (fst p x) cy = Ret py cy' ->
         0 <= i /\ 0 <= py /\ pixel (fst st') py i = snd p).
Proof.
  destruct st as [s last]. unfold plot_column. cbn [fst]. intros H Hs.
  apply bind_ret in H as (x & c1 & Hx & H).
  pose proof (pixelToX_calls _ _ _ _ _ Hx) as ->.
  apply bind_ret in H as (y & c2 & Hy & H).
  unfold call in Hy. injection Hy as <- <-.
  destruct (_ || _)%float eqn:Erange.
  - unfold ret in H. injection H as <- _. cbn [fst].
    split; [exact Hs | split; [reflexivity | ]].
    intros x' py cx cx' cy cy' Hx' Hin _.
    rewrite (counter_free_pixelToX g i _ _ _ Hx' c) in Hx. injection Hx as ->.
    rewrite Erange in Hin. discriminate.
  - apply bind_ret in H as (py & c3 & Hpy & H).
    apply bind_ret in H as (s1 & c4 & Hs1 & H).
    assert (H1 : well_sized g s1
                 /\ forall r k, 0 <= r -> 0 <= k -> k <> i -> pixel s1 r k = pixel s r k).
    { destruct (_ && _).
      - split; [exact (proj1 (fill_well_sized _ _ _ _ _ _ _ _ _ _ Hs1 Hs)) | ].
        exact (fill_other_columns _ _ _ _ _ _ _ _ _ _ Hs1 Hs).
      - unfold ret in Hs1. injection Hs1 as <- _. split; [exact Hs | reflexivity]. }
    destruct H1 as [Hs1' Hother].
    apply bind_ret in H as (s2 & c5 & Hs2 & H).
    pose proof (poke_bounds _ _ _ _ _ _ _ _ Hs2) as [Hrow Hcol].
    destruct (poke_pixel _ _ _ _ _ _ _ _ Hs2 Hs1') as [Hs2' Hpix].
    unfold ret in H. injection H as <- _. cbn [fst].
    split; [exact Hs2' | split].
    + intros r k Hr Hk Hne. rewrite (Hpix r k Hr Hk).
      replace (k =? i) with false by (symmetry; apply Z.eqb_neq; exact Hne).
      rewrite andb_false_r. apply Hother; assumption.
    + intros x' py' cx cx' cy cy' Hx' _ Hpy'.
      rewrite (counter_free_pixelToX g i _ _ _ Hx' c) in Hx. injection Hx as ->.
      rewrite (counter_free_yToPixel g _ _ _ _ Hpy' (N.succ c)) in Hpy.
      injection Hpy as -> _.
      split; [lia | split; [lia | ]].
      rewrite (Hpix py i) by lia. rewrite !Z.eqb_refl. reflexivity.
Qed.

(** The loop over the columns, from column [i0] on. *)
Lemma for_upto_marks (g : Grapher) (p : Func * ascii) (n : nat) :
  forall i0 st st' c c',
    for_upto n i0 (plot_column g p) st c = Ret st' c' ->
    well_sized g (fst st) -> 0 <= i0 ->
    well_sized g (fst st')
    /\ (forall r k, 0 <= r -> 0 <= k -> k < i0 -> pixel (fst st') r k = pixel (fst st) r k)
    /\ (forall i x py cx cx' cy cy',
           i0 <= i < i0 + Z.of_nat n ->
           pixelToX g i cx = Ret x cx' ->
           ((fst p x <? fst (mYrange g)) || (snd (mYrange g) <? fst p x))%float = false ->
           yToPixel g (fst p x) cy = Ret py cy' ->
           pixel (fst st') py i = snd p).
Proof.
  induction n as [| n IH]; intros i0 st st' c c' H Hs Hi0; cbn [for_upto] in H.
  - unfold ret in H. injection H as <- _.
    split; [exact Hs | split; [reflexivity | ]]. intros; lia.
  - apply bind_ret in H as (st1 & c1 & H1 & H).
    destruct (plot_column_marks _ _ _ _ _ _ _ H1 Hs) as (Hs1 & Hother & Hmark).
    destruct (IH _ _ _ _ _ H Hs1 ltac:(lia)) as (Hs' & Hbefore & Hmarks).
    split; [exact Hs' | split].
    + intros r k Hr Hk Hlt. rewrite Hbefore by lia. apply Hother; lia.
    + intros i x py cx cx' cy cy' Hi Hx Hin Hpy.
      destruct (Z.eq_dec i i0) as [-> | Hne].
      * destruct (Hmark _ _ _ _ _ _ Hx Hin Hpy) as (_ & Hpy0 & Hpix).
        rewrite Hbefore by lia. exact Hpix.
      * apply (Hmarks i x py cx cx' cy cy'); [lia | assumption ..].
Qed.

Lemma plot_functions_app (g : Grapher) (fs : list (Func * ascii)) (p : Func * ascii) :
  forall s c,
    plot_functions g (fs ++ [p]) s c
    = (s' <- plot_functions g fs s ;; plot_function g s' p) c.
Proof.
  induction fs as [| q fs IH]; intros s c; cbn [app plot_functions].
  - unfold bind, ret. destruct (plot_function g s p c); reflexivity.
  - unfold bind.
    destruct (plot_function g s q c) as [s1 c1 | |]; [ | reflexivity | reflexivity].
    rewrite IH. reflexivity.
Qed.

(** The function registered last keeps its marks. *)
Lemma display_marks_last (g : Grapher) (fs : list (Func * ascii))
    (fx : Func) (ch : ascii) (c c' : N) (text : string) :
  mFunctions g = fs ++ [(fx, ch)] ->
  display g c = Ret text c' ->
  exists rows : screen,
    text = serialize rows
    /\ well_sized g rows
    /\ forall (i : Z) (x : float) (py : Z) (cx cx' cy cy' : N),
         0 <= i < mTermWidth g ->
         pixelToX g i cx = Ret x cx' ->
         ((fx x <? fst (mYrange g)) || (snd (mYrange g) <? fx x))%float = false ->
         yToPixel g (fx x) cy = Ret py cy' ->
         pixel rows py i = ch.
Proof.
  intros Hlast Hret. unfold display in Hret.
  apply bind_ret in Hret as (s0 & c0 & H0 & Hret).
  assert (Hs0 : well_sized g s0).
  { destruct (_ || _); [discriminate | ]. unfold ret in H0. injection H0 as <- _.
    apply blank_well_sized. }
  apply bind_ret in Hret as (xaxis & c1 & Hx & Hret).
  apply bind_ret in Hret as (yaxis & c2 & Hy & Hret).
  apply bind_ret in Hret as (s1 & c3 & H1 & Hret).
  assert (Hs1 : well_sized g s1).
  { destruct ((0 <=? yaxis) && (yaxis <? mTermWidth g)).
    - apply (for_upto_invariant (well_sized g) 0) in H1; [exact (proj1 H1) | | exact Hs0].
      intros i s a s' a' Hp Hs. destruct (poke_well_sized _ _ _ _ _ _ _ _ Hp Hs) as [? ->].
      split; [assumption | lia].
    - unfold ret in H1. injection H1 as <- _. exact Hs0. }
  apply bind_ret in Hret as (s2 & c4 & H2 & Hret).
  assert (Hs2 : well_sized g s2).
  { destruct ((0 <=? xaxis) && (xaxis <? mTermHeight g)).
    - apply (for_upto_invariant (well_sized g) 0) in H2; [exact (proj1 H2) | | exact Hs1].
      intros i s a s' a' Hp Hs. destruct (poke_well_sized _ _ _ _ _ _ _ _ Hp Hs) as [? ->].
      split; [assumption | lia].
    - unfold ret in H2. injection H2 as <- _. exact Hs1. }
  apply bind_ret in Hret as (s3 & c5 & H3 & Hret).
  unfold ret in Hret. injection Hret as <- _.
  rewrite Hlast, plot_functions_app in H3.
  apply bind_ret in H3 as (s' & c6 & Hfs & Hp).
  destruct (plot_functions_well_sized _ _ _ _ _ _ Hfs Hs2) as [Hs' _].
  unfold plot_function in Hp. apply bind_ret in Hp as (st & c7 & Hst & Hp).
  unfold ret in Hp. injection Hp as <- _.
  destruct (for_upto_marks _ _ _ _ _ _ _ _ Hst Hs' ltac:(lia)) as (Hst' & _ & Hmarks).
  exists (fst st). split; [reflexivity | split; [exact Hst' | ]].
  intros i x py cx cx' cy cy' Hi Hpx Hin Hpy.
  apply (Hmarks i x py cx cx' cy cy'); [lia | assumption ..].
Qed.

(** The interpolation loop stays on the screen when the rows it walks
    through do. *)
Lemma fill_defined (g : Grapher) (step i : Z) (ch : ascii) (n : nat) :
  0 <= i < mTermWidth g ->
  forall j s c,
    well_sized g s ->
    (step = 1 /\ 0 <= j /\ j + Z.of_nat n <= mTermHeight g)
    \/ (step = -1 /\ j < mTermHeight g /\ 0 <= j - Z.of_nat n + 1) ->
    exists s', fill g n j step i ch s c = Ret s' c /\ well_sized g s'.
Proof.
  intros Hi. induction n as [| n IH]; intros j s c Hs Hj; cbn [fill].
  - exists s. split; [reflexivity | exact Hs].
  - unfold bind. rewrite poke_in_bounds by lia.
    apply IH.
    + apply (poke_well_sized g s _ j i ch c c); [apply poke_in_bounds; lia | exact Hs].
    + destruct Hj as [(-> & H1 & H2) | (-> & H1 & H2)]; [left | right]; lia.
Qed.

Section PlotDefined.

Variable g : Grapher.
Variable c : N.
Variable p : Func * ascii.

Hypothesis columns_defined :
  forall i, 0 <= i < mTermWidth g -> exists x, pixelToX g i c = Ret x c.

Hypothesis rows_on_screen :
  forall i x, 0 <= i < mTermWidth g -> pixelToX g i c = Ret x c ->
    ((fst p x <? fst (mYrange g)) || (snd (mYrange g) <? fst p x))%float = false ->
    exists py, yToPixel g (fst p x) c = Ret py c /\ 0 <= py < mTermHeight g.

Lemma plot_column_defined (i : Z) (s : screen) (last : Z) (c0 : N) :
  0 <= i < mTermWidth g -> well_sized g s ->
  last = Double.INT32_MAX \/ 0 <= last < mTermHeight g ->
  exists s' last',
    plot_column g p i (s, last) c0 = Ret (s', last') (c0 + 1)%N
    /\ well_sized g s'
    /\ (last' = Double.INT32_MAX \/ 0 <= last' < mTermHeight g).
Proof.
  intros Hi Hs Hlast. unfold plot_column.
  destruct (columns_defined i Hi) as [x Hx].
  unfold bind at 1. rewrite (counter_free_pixelToX g i _ _ _ Hx c0).
  unfold bind at 1. unfold call.
  replace (N.succ c0) with (c0 + 1)%N by lia.
  destruct (_ || _)%float eqn:Erange.
  - exists s, last. split; [reflexivity | split; assumption].
  - destruct (rows_on_screen i x Hi Hx Erange) as (py & Hpy & Hrow).
    unfold bind at 1. rewrite (counter_free_yToPixel g _ _ _ _ Hpy (c0 + 1)%N).
    assert (H1 : exists s1,
               (if ((py <? last) || (last <? py)) && negb (last =? Double.INT32_MAX)
                then fill g (Z.to_nat (Z.abs (py - last))) last
                          (if py <? last then -1 else 1) i (snd p) s
                else ret s) (c0 + 1)%N = Ret s1 (c0 + 1)%N
               /\ well_sized g s1).
    { destruct (((py <? last) || (last <? py)) && negb (last =? Double.INT32_MAX)) eqn:E.
      - apply andb_prop in E as [_ E]. apply negb_true_iff, Z.eqb_neq in E.
        destruct Hlast as [Hlast | Hlast]; [contradiction | ].
        apply fill_defined; [exact Hi | exact Hs | ].
        destruct (Z.ltb_spec py last); [right | left]; lia.
      - exists s. split; [reflexivity | exact Hs]. }
    destruct H1 as (s1 & Hrun1 & Hs1).
    unfold bind at 1. rewrite Hrun1.
    unfold bind at 1. rewrite poke_in_bounds by lia.
    eexists. exists py. split; [reflexivity | split; [ | right; exact Hrow]].
    apply (poke_well_sized g s1 _ py i (snd p) c0 c0); [apply poke_in_bounds; lia | exact Hs1].
Qed.

Lemma for_upto_plot_defined (n : nat) :
  forall i0 s last c0,
    0 <= i0 -> i0 + Z.of_nat n <= mTermWidth g -> well_sized g s ->
    last = Double.INT32_MAX \/ 0 <= last < mTermHeight g ->
    exists st',
      for_upto n i0 (plot_column g p) (s, last) c0 = Ret st' (c0 + N.of_nat n)%N
      /\ well_sized g (fst st').
Proof.
  induction n as [| n IH]; intros i0 s last c0 Hi0 Hn Hs Hlast; cbn [for_upto].
  - exists (s, last). split; [unfold ret; f_equal; lia | exact Hs].
  - destruct (plot_column_defined i0 s last c0 ltac:(lia) Hs Hlast)
      as (s1 & last1 & Hrun & Hs1 & Hlast1).
    unfold bind. rewrite Hrun.
    destruct (IH (i0 + 1) s1 last1 (c0 + 1)%N ltac:(lia) ltac:(lia) Hs1 Hlast1)
      as (st' & Hrun' & Hs').
    exists st'. split; [rewrite Hrun'; f_equal; lia | exact Hs'].
Qed.

Lemma plot_function_defined (s : screen) (c0 : N) :
  0 <= mTermWidth g -> well_sized g s ->
  exists s', plot_function g s p c0 = Ret s' (c0 + Z.to_N (mTermWidth g))%N
             /\ well_sized g s'.
Proof.
  intros Hwidth Hs. unfold plot_function, bind.
  destruct (for_upto_plot_defined (Z.to_nat (mTermWidth g)) 0 s Double.INT32_MAX c0
              ltac:(lia) ltac:(lia) Hs (or_introl eq_refl)) as (st' & Hrun & Hs').
  rewrite Hrun. exists (fst st'). split; [unfold ret; f_equal; lia | exact Hs'].
Qed.

End PlotDefined.

Lemma plot_functions_defined (g : Grapher) (c : N) (fs : list (Func * ascii)) :
  0 <= mTermWidth g ->
  (forall i, 0 <= i < mTermWidth g -> exists x, pixelToX g i c = Ret x c) ->
  (forall p i x, In p fs -> 0 <= i < mTermWidth g -> pixelToX g i c = Ret x c ->
     ((fst p x <? fst (mYrange g)) || (snd (mYrange g) <? fst p x))%float = false ->
     exists py, yToPixel g (fst p x) c = Ret py c /\ 0 <= py < mTermHeight g) ->
  forall s c0, well_sized g s ->
    exists s', plot_functions g fs s c0
               = Ret s' (c0 + N.of_nat (List.length fs) * Z.to_N (mTermWidth g))%N
               /\ well_sized g s'.
Proof.
  intros Hwidth Hcols. induction fs as [| p fs IH]; intros Hrows s c0 Hs;
    cbn [plot_functions List.length].
  - exists s. split; [unfold ret; f_equal; lia | exact Hs].
  - destruct (plot_function_defined g c p Hcols
                (fun i x => Hrows p i x (or_introl eq_refl)) s c0 Hwidth Hs)
      as (s1 & Hrun & Hs1).
    unfold bind. rewrite Hrun.
    destruct (IH (fun q i x Hq => Hrows q i x (or_intror Hq)) s1
                (c0 + Z.to_N (mTermWidth g))%N Hs1) as (s' & Hrun' & Hs').
    exists s'. split; [rewrite Hrun'; f_equal; lia | exact Hs'].
Qed.

(** ** Further statements

    Properties of the code beside those above: edge cases of the engine,
    and what [display] puts on the screen. *)

(** *** round *)

(** X1: for [places <= 9], [round] returns an infinity or NaN as it is:
    [round(+inf) == +inf], [round(-inf) == -inf], [round(NaN)] is NaN. *)
Theorem round_keeps_non_finite (x : float) (places : N) (c : N)
    (Hplaces : (places <= 9)%N)
    (Hx : is_finite x = false) :
  round x places c = Ret x c.
Proof.
  rewrite round_run by exact Hplaces. f_equal.
  apply round_value_not_finite; assumption.
Qed.

Lemma round_keeps_non_finite_witness :
  (3 <= 9)%N /\ is_finite neg_infinity = false
  /\ round neg_infinity 3 0%N = Ret neg_infinity 0%N.
Proof.
  split; [lia | ]. split; [vm_compute; reflexivity | ].
  apply (round_keeps_non_finite neg_infinity 3 0%N); [lia | vm_compute; reflexivity].
Defined.

(** X2: [round] leaves a whole number as it is: for [places <= 9] and an
    integer [n] with [|n| * 10^places <= 2^50], [round(n, places) == n]. *)
Theorem round_whole_number (n : Z) (places : N) (c : N)
    (Hplaces : (places <= 9)%N)
    (Hbound : Z.abs n * 10 ^ Z.of_N places <= 2 ^ 50) :
  round (Double.of_Z n) places c = Ret (Double.of_Z n) c.
Proof.
  rewrite round_run by exact Hplaces. f_equal.
  apply round_value_whole; assumption.
Qed.

Lemma round_whole_number_witness :
  (5 <= 9)%N /\ Z.abs (-1234567) * 10 ^ Z.of_N 5 <= 2 ^ 50
  /\ round (-1234567) 5 0%N = Ret (-1234567)%float 0%N.
Proof.
  split; [lia | ]. split; [vm_compute; discriminate | ].
  apply (round_whole_number (-1234567) 5 0%N); [lia | vm_compute; discriminate].
Defined.

(** *** derivative and roots *)

(** X3: the [derivative] of a constant function with a finite value is
    exactly [0] at every point, [NaN] and the infinities included, when
    [LARGE] is finite. *)
Theorem derivative_of_constant (LARGE : float) (ACCURACY : N) (k x : float) (c : N)
    (HACC : (ACCURACY <= 9)%N)
    (HLARGE : is_finite LARGE = true)
    (Hk : is_finite k = true) :
  derivative LARGE ACCURACY (fun _ => k) x c = Ret 0%float (2 + c)%N.
Proof.
  rewrite derivative_run by exact HACC. f_equal.
  apply derivative_value_constant; assumption.
Qed.

Lemma derivative_of_constant_witness :
  (CalculusTop.ACCURACY <= 9)%N /\ is_finite CalculusTop.LARGE = true
  /\ is_finite 7 = true
  /\ derivative CalculusTop.LARGE CalculusTop.ACCURACY (fun _ => 7%float) 2 0%N
     = Ret 0%float (2 + 0)%N.
Proof.
  split; [unfold CalculusTop.ACCURACY; lia | ].
  split; [vm_compute; reflexivity | ]. split; [vm_compute; reflexivity | ].
  apply (derivative_of_constant CalculusTop.LARGE CalculusTop.ACCURACY 7 2 0%N);
    [unfold CalculusTop.ACCURACY; lia | vm_compute; reflexivity | vm_compute; reflexivity].
Defined.

(** X4: on a constant function with a finite value, zero included, [roots]
    with at least one iteration returns an infinity or NaN, from every
    initial guess: the slope is [0] and the first Newton step divides by
    it. *)
Theorem roots_of_constant_not_finite (LARGE : float) (ACCURACY : N) (k initial : float)
    (iter : nat) (c : N)
    (HACC : (ACCURACY <= 9)%N)
    (HLARGE : is_finite LARGE = true)
    (Hk : is_finite k = true)
    (Hiter : (0 < iter)%nat) :
  exists r, roots LARGE ACCURACY (fun _ => k) initial iter c
            = Ret r (3 * N.of_nat iter + c)%N
            /\ is_finite r = false.
Proof.
  eexists. split; [apply roots_run; exact HACC | ].
  destruct iter as [| n]; [lia | ].
  rewrite Nat.iter_succ_r. apply newton_not_finite.
  apply newton_step_constant; assumption.
Qed.

Lemma roots_of_constant_not_finite_witness :
  (CalculusInclude.ACCURACY <= 9)%N /\ is_finite CalculusInclude.LARGE = true
  /\ is_finite 0 = true /\ (0 < 2)%nat
  /\ exists r, roots CalculusInclude.LARGE CalculusInclude.ACCURACY (fun _ => 0%float)
                 1 2%nat 0%N = Ret r (3 * N.of_nat 2 + 0)%N
               /\ is_finite r = false.
Proof.
  split; [unfold CalculusInclude.ACCURACY; lia | ].
  split; [vm_compute; reflexivity | ]. split; [vm_compute; reflexivity | ].
  split; [lia | ].
  apply (roots_of_constant_not_finite CalculusInclude.LARGE CalculusInclude.ACCURACY
           0 1 2%nat 0%N);
    [unfold CalculusInclude.ACCURACY; lia | vm_compute; reflexivity
     | vm_compute; reflexivity | lia].
Defined.

(** X5: [roots] started at a root stays there.  When [fx(initial)] is a
    zero and [derivative(fx)(initial)] is a number other than zero, every
    Newton step returns [initial] itself, so [roots] returns [initial] after
    any number of iterations.  The guess is any double but the negative
    zero, which a step may turn into the positive one. *)
Theorem roots_stays_at_root (LARGE : float) (ACCURACY : N) (fx : Func)
    (initial d : float) (iter : nat) (c cd : N)
    (HACC : (ACCURACY <= 9)%N)
    (Hroot : (fx initial =? 0)%float = true)
    (Hd : derivative LARGE ACCURACY fx initial 0%N = Ret d cd)
    (Hslope : (d =? 0)%float = false)
    (Hnumber : (d =? d)%float = true)
    (Hguess : (initial =? 0)%float = false \/ initial = 0%float) :
  roots LARGE ACCURACY fx initial iter c = Ret initial (3 * N.of_nat iter + c)%N.
Proof.
  rewrite derivative_run in Hd by exact HACC. injection Hd as Hdv _. subst d.
  rewrite roots_run by exact HACC. f_equal.
  apply newton_iter_at_root. apply newton_step_at_root; assumption.
Qed.

Lemma roots_stays_at_root_witness :
  (CalculusInclude.ACCURACY <= 9)%N
  /\ ((fun x => x - 5) 5 =? 0)%float = true
  /\ derivative CalculusInclude.LARGE CalculusInclude.ACCURACY (fun x => x - 5)%float 5 0%N
     = Ret 1%float 2%N
  /\ (1 =? 0)%float = false /\ (1 =? 1)%float = true
  /\ roots CalculusInclude.LARGE CalculusInclude.ACCURACY (fun x => x - 5)%float 5 10%nat 0%N
     = Ret 5%float (3 * N.of_nat 10 + 0)%N.
Proof.
  split; [unfold CalculusInclude.ACCURACY; lia | ].
  split; [vm_compute; reflexivity | ]. split; [vm_compute; reflexivity | ].
  split; [vm_compute; reflexivity | ]. split; [vm_compute; reflexivity | ].
  apply (roots_stays_at_root CalculusInclude.LARGE CalculusInclude.ACCURACY
           (fun x => x - 5)%float 5 1 10%nat 0%N 2%N);
    [unfold CalculusInclude.ACCURACY; lia | vm_compute; reflexivity
     | vm_compute; reflexivity | vm_compute; reflexivity | vm_compute; reflexivity
     | left; vm_compute; reflexivity].
Defined.

(** X6: the iterations of [roots] can be split: [m + n] iterations from
    [initial] are [n] iterations from the result of [m] iterations, results,
    evaluations of [fx] and undefined behaviour included. *)
Theorem roots_resume (LARGE : float) (ACCURACY : N) (fx : Func) (m n : nat) :
  forall (initial : float) (c : N),
    roots LARGE ACCURACY fx initial (m + n) c
    = (x <- roots LARGE ACCURACY fx initial m ;; roots LARGE ACCURACY fx x n) c.
Proof.
  induction m as [| m IH]; intros initial c.
  - reflexivity.
  - cbn [Nat.add roots]. unfold bind, call.
    destruct (derivative LARGE ACCURACY fx initial (N.succ c)) as [d c' | |];
      [ | reflexivity | reflexivity].
    rewrite IH. reflexivity.
Qed.

(** *** lambertW *)

(** X7: [lambertW(0)] is [0], after the 450 evaluations of
    [x * exp(x) - 0] that 150 Newton iterations make, for every
    exponential whose value at [0] is finite and for which the
    [derivative] of that function at [0] is a number other than zero. *)
Theorem lambertW_of_zero (LARGE : float) (ACCURACY : N) (exp : float -> float)
    (d : float) (c cd : N)
    (HACC : (ACCURACY <= 9)%N)
    (Hexp : is_finite (exp 0%float) = true)
    (Hd : derivative LARGE ACCURACY (fun x => x * exp x - 0)%float 0 0%N = Ret d cd)
    (Hslope : (d =? 0)%float = false)
    (Hnumber : (d =? d)%float = true) :
  lambertW LARGE ACCURACY exp 0 c = Ret 0%float (450 + c)%N.
Proof.
  rewrite derivative_run in Hd by exact HACC. injection Hd as Hdv _. subst d.
  unfold lambertW. rewrite roots_run by exact HACC. f_equal.
  apply newton_iter_at_root. apply newton_step_at_root;
    [ | exact Hslope | exact Hnumber | right; reflexivity].
  apply zero_sub_zero. apply zero_mul_finite; [reflexivity | exact Hexp].
Qed.

Lemma lambertW_of_zero_witness :
  (CalculusInclude.ACCURACY <= 9)%N
  /\ is_finite ((fun x => 1 + x + x * x / 2)%float 0%float) = true
  /\ derivative CalculusInclude.LARGE CalculusInclude.ACCURACY
       (fun x => x * (fun x => 1 + x + x * x / 2) x - 0)%float 0 0%N = Ret 1%float 2%N
  /\ (1 =? 0)%float = false /\ (1 =? 1)%float = true
  /\ lambertW CalculusInclude.LARGE CalculusInclude.ACCURACY
       (fun x => 1 + x + x * x / 2)%float 0 0%N = Ret 0%float (450 + 0)%N.
Proof.
  split; [unfold CalculusInclude.ACCURACY; lia | ].
  split; [vm_compute; reflexivity | ]. split; [vm_compute; reflexivity | ].
  split; [vm_compute; reflexivity | ]. split; [vm_compute; reflexivity | ].
  apply (lambertW_of_zero CalculusInclude.LARGE CalculusInclude.ACCURACY
           (fun x => 1 + x + x * x / 2)%float 1 0%N 2%N);
    [unfold CalculusInclude.ACCURACY; lia | vm_compute; reflexivity
     | vm_compute; reflexivity | vm_compute; reflexivity | vm_compute; reflexivity].
Defined.

(** X8: [lambertW] of an infinity or of NaN returns an infinity or NaN,
    whatever the exponential: the value is the initial guess, and no Newton
    step leads from a guess that is not finite to a finite one. *)
Theorem lambertW_not_finite (LARGE : float) (ACCURACY : N) (exp : float -> float)
    (value : float) (c : N)
    (HACC : (ACCURACY <= 9)%N)
    (Hvalue : is_finite value = false) :
  exists r, lambertW LARGE ACCURACY exp value c = Ret r (450 + c)%N
            /\ is_finite r = false.
Proof.
  eexists. split; [unfold lambertW; apply roots_run; exact HACC | ].
  apply newton_not_finite. exact Hvalue.
Qed.

Lemma lambertW_not_finite_witness :
  (CalculusTop.ACCURACY <= 9)%N /\ is_finite infinity = false
  /\ exists r, lambertW CalculusTop.LARGE CalculusTop.ACCURACY (fun x => 1 + x)%float
                 infinity 0%N = Ret r (450 + 0)%N
               /\ is_finite r = false.
Proof.
  split; [unfold CalculusTop.ACCURACY; lia | ]. split; [vm_compute; reflexivity | ].
  apply (lambertW_not_finite CalculusTop.LARGE CalculusTop.ACCURACY (fun x => 1 + x)%float
           infinity 0%N); [unfold CalculusTop.ACCURACY; lia | vm_compute; reflexivity].
Defined.

(** *** integral_definite and integral *)

(** X9: when [lower] is above [|upper|], or one of them is NaN, the loop of
    [integral_definite] does not run: the result is [0] and [fx] is not
    evaluated.  The bounds are not swapped: the integral from [5] to [3] is
    [0], and so is [integral(fx, 5)], applied to [3].  The same holds in
    the top-level header when [lower] is above [upper]. *)
Theorem integral_definite_reversed_bounds (LARGE : float) (ACCURACY : N) (fuel : nat)
    (fx : Func) (lower upper : float) (c : N)
    (HACC : (ACCURACY <= 9)%N) :
  ((lower <=? abs upper)%float = false ->
   integral_definite LARGE ACCURACY (S fuel) fx lower upper c = Ret 0%float c
   /\ integral LARGE ACCURACY (S fuel) fx lower upper c = Ret 0%float c)
  /\ ((lower <=? upper)%float = false ->
      integral_definite_plain LARGE ACCURACY (S fuel) fx lower upper c = Ret 0%float c
      /\ integral_plain LARGE ACCURACY (S fuel) fx lower upper c = Ret 0%float c).
Proof.
  split; intros Hrev.
  - assert (H : integral_definite LARGE ACCURACY (S fuel) fx lower upper c
                = Ret 0%float c).
    { unfold integral_definite. cbn [riemann_loop]. rewrite Hrev.
      unfold bind, ret. apply round_signed_zero; [exact HACC | reflexivity]. }
    split; exact H.
  - assert (H : integral_definite_plain LARGE ACCURACY (S fuel) fx lower upper c
                = Ret 0%float c).
    { unfold integral_definite_plain. cbn [riemann_loop]. rewrite Hrev.
      unfold bind, ret. rewrite round_run by exact HACC. f_equal.
      apply round_value_zero; [exact HACC | reflexivity]. }
    split; exact H.
Qed.

Lemma integral_definite_reversed_bounds_witness :
  (CalculusInclude.ACCURACY <= 9)%N
  /\ (5 <=? abs 3)%float = false /\ (5 <=? 3)%float = false
  /\ integral_definite CalculusInclude.LARGE CalculusInclude.ACCURACY 1
       (fun x => x) 5 3 0%N = Ret 0%float 0%N
  /\ integral_definite_plain CalculusInclude.LARGE CalculusInclude.ACCURACY 1
       (fun x => x) 5 3 0%N = Ret 0%float 0%N.
Proof.
  split; [unfold CalculusInclude.ACCURACY; lia | ].
  split; [vm_compute; reflexivity | ]. split; [vm_compute; reflexivity | ].
  destruct (integral_definite_reversed_bounds CalculusInclude.LARGE
              CalculusInclude.ACCURACY 0 (fun x => x) 5 3 0%N) as [H1 H2];
    [unfold CalculusInclude.ACCURACY; lia | ].
  split; [apply H1 | apply H2]; vm_compute; reflexivity.
Defined.

(** X10: when [lower] is within [|upper|] and so large that adding [SMALL]
    leaves it as it is, the loop variable never advances and
    [integral_definite] does not return, whatever [fx] is. *)
Theorem integral_definite_step_absorbed (LARGE : float) (ACCURACY : N) (fx : Func)
    (lower upper : float)
    (Hin : (lower <=? abs upper)%float = true)
    (Habsorbed : (lower + SMALL LARGE)%float = lower) :
  forall (fuel : nat) (c : N),
    integral_definite LARGE ACCURACY fuel fx lower upper c = OutOfFuel.
Proof.
  intros fuel c. rewrite integral_definite_grid.
  rewrite (grid_absorbed LARGE lower (abs upper) fuel Hin Habsorbed). reflexivity.
Qed.

Lemma integral_definite_step_absorbed_witness :
  (1e20 <=? abs 1e30)%float = true
  /\ (1e20 + SMALL CalculusInclude.LARGE)%float = 1e20%float
  /\ integral_definite CalculusInclude.LARGE CalculusInclude.ACCURACY 1000
       (fun x => x) 1e20 1e30 0%N = OutOfFuel.
Proof.
  split; [vm_compute; reflexivity | ]. split; [vm_compute; reflexivity | ].
  apply (integral_definite_step_absorbed CalculusInclude.LARGE CalculusInclude.ACCURACY
           (fun x => x) 1e20 1e30); vm_compute; reflexivity.
Defined.

(** X11: the integral of a function that is zero everywhere is exactly [0]
    on every interval whose grid ends, for either sign of [upper], when
    [SMALL] is finite; [fx] is still evaluated once per grid point. *)
Theorem integral_definite_of_zero (LARGE : float) (ACCURACY : N) (fuel : nat)
    (fx : Func) (lower upper : float) (c : N)
    (HACC : (ACCURACY <= 9)%N)
    (HSMALL : is_finite (SMALL LARGE) = true)
    (Hzero : forall x, (fx x =? 0)%float = true) :
  integral_definite LARGE ACCURACY fuel fx lower upper c
  = match grid LARGE fuel lower (abs upper) with
    | Some g => Ret 0%float (N.of_nat (List.length g) + c)%N
    | None => OutOfFuel
    end.
Proof.
  rewrite integral_definite_grid.
  destruct (grid LARGE fuel lower (abs upper)) as [g |]; [ | reflexivity].
  rewrite (riemann_sum_of_zero LARGE fx g HSMALL Hzero).
  apply round_signed_zero; [exact HACC | reflexivity].
Qed.

Lemma integral_definite_of_zero_witness :
  (CalculusInclude.ACCURACY <= 9)%N
  /\ is_finite (SMALL CalculusInclude.LARGE) = true
  /\ (forall x : float, ((fun _ => 0) x =? 0)%float = true)
  /\ integral_definite CalculusInclude.LARGE CalculusInclude.ACCURACY 40
       (fun _ => 0%float) 0 (-0.001) 0%N = Ret 0%float 10%N.
Proof.
  split; [unfold CalculusInclude.ACCURACY; lia | ]. split; [vm_compute; reflexivity | ].
  split; [intros x; vm_compute; reflexivity | ].
  rewrite (integral_definite_of_zero CalculusInclude.LARGE CalculusInclude.ACCURACY 40
             (fun _ => 0%float) 0 (-0.001) 0%N);
    [vm_compute; reflexivity | unfold CalculusInclude.ACCURACY; lia
     | vm_compute; reflexivity | intros x; vm_compute; reflexivity].
Defined.

(** X12: the two headers agree on every upper bound that is not negative:
    there [|upper|] is [upper] and the sign is [1], and the
    [integral_definite] of [include/Calculus.h] returns what the one of the
    top-level [Calculus.h] returns, for the same [LARGE] and [ACCURACY]. *)
Theorem integral_definite_headers_agree (LARGE : float) (ACCURACY : N) (fuel : nat)
    (fx : Func) (lower upper : float) (c : N)
    (Hupper : (0 <=? upper)%float = true) :
  integral_definite LARGE ACCURACY fuel fx lower upper c
  = integral_definite_plain LARGE ACCURACY fuel fx lower upper c.
Proof.
  rewrite integral_definite_grid, integral_definite_plain_grid.
  rewrite (grid_abs LARGE upper fuel Hupper), (ltb_zero_nonneg upper Hupper).
  destruct (grid LARGE fuel lower upper) as [g |]; [ | reflexivity].
  rewrite (mul_sign _ false). reflexivity.
Qed.

Lemma integral_definite_headers_agree_witness :
  (0 <=? 0.002)%float = true
  /\ integral_definite CalculusInclude.LARGE CalculusInclude.ACCURACY 30
       (fun x => x + 1)%float 0 0.002 0%N
     = integral_definite_plain CalculusInclude.LARGE CalculusInclude.ACCURACY 30
         (fun x => x + 1)%float 0 0.002 0%N.
Proof.
  split; [vm_compute; reflexivity | ].
  apply (integral_definite_headers_agree CalculusInclude.LARGE CalculusInclude.ACCURACY 30
           (fun x => x + 1)%float 0 0.002 0%N).
  vm_compute; reflexivity.
Defined.

(** *** iterate and iterated *)

(** X13: [iterate] with a count that is NaN or plus infinity never returns:
    the count is not [<= 0], and subtracting [1] leaves it as it is. *)
Theorem iterate_non_finite_times_diverges (fx : Func) (times value : float)
    (Hnot_finite : is_finite times = false)
    (Hpositive : (times <=? 0)%float = false) :
  forall (fuel : nat) (c : N), iterate fuel fx times value c = OutOfFuel.
Proof.
  intros fuel c. apply iterate_stuck; [exact Hpositive | ].
  apply sub_one_not_finite. exact Hnot_finite.
Qed.

Lemma iterate_non_finite_times_diverges_witness :
  is_finite nan = false /\ (nan <=? 0)%float = false
  /\ iterate 100 (fun x => x + 1)%float nan 0 0%N = OutOfFuel.
Proof.
  split; [vm_compute; reflexivity | ]. split; [vm_compute; reflexivity | ].
  apply (iterate_non_finite_times_diverges (fun x => x + 1)%float nan 0);
    vm_compute; reflexivity.
Defined.

(** X14: a count with a fraction counts as the next whole number: for a
    finite [times] up to [2^53], [iterate(fx, times, value)] is
    [iterate(fx, n, value)] for the whole number [n = max(0, ceil(times))],
    in result and in evaluations of [fx]. *)
Theorem iterate_fraction_as_ceiling (fx : Func) (times value : float) (fuel : nat) (c : N)
    (Hfinite : is_finite times = true)
    (Hbound : (times <=? 0x1p53)%float = true) :
  let n := Z.max 0 (Double.ceilZ times) in
  iterate (S (Z.to_nat n) + fuel) fx times value c
  = iterate (S (Z.to_nat n) + fuel) fx (Double.of_Z n) value c.
Proof.
  intros n.
  pose proof (ceilZ_le_pow53 times Hfinite Hbound) as Hle.
  assert (Hn : Z.abs n <= 2 ^ 53) by (unfold n; lia).
  destruct (of_Z_exact n Hn) as (_ & Hfin & HR).
  rewrite (iterate_run fx value (Z.to_nat n) times fuel c).
  - symmetry. apply iterate_run.
    + exact Hfin.
    + rewrite HR. apply IZR_le. lia.
    + rewrite (ceilZ_of_Z n Hn). unfold n. lia.
  - exact Hfinite.
  - rewrite <- B2R_pow53. apply leb_true_R; [exact Hfinite | reflexivity | exact Hbound].
  - unfold n. lia.
Qed.

Lemma iterate_fraction_as_ceiling_witness :
  is_finite 2.5 = true /\ (2.5 <=? 0x1p53)%float = true
  /\ iterate (S (Z.to_nat 3) + 0) (fun x => x * 2)%float 2.5 1 0%N
     = iterate (S (Z.to_nat 3) + 0) (fun x => x * 2)%float 3 1 0%N.
Proof.
  split; [vm_compute; reflexivity | ]. split; [vm_compute; reflexivity | ].
  exact (iterate_fraction_as_ceiling (fun x => x * 2)%float 2.5 1 0 0%N eq_refl eq_refl).
Defined.

(** X15: the functions [iterated] of [include/Calculus.h] returns, whose
    closure holds copies of [fx] and of the count, compose by adding their
    counts: for finite counts up to [2^53], applying [iterated(fx, b)] and
    then [iterated(fx, a)] is applying [iterated(fx, t)] whenever the whole
    number of [t] is the sum of those of [a] and [b]; the evaluations of
    [fx] add up as well.  Not so in the top-level [Calculus.h]: there the
    closure refers to the parameters of [iterated], which has returned, and
    every call of it is undefined. *)
Theorem iterated_compose (fx : Func) (a b t value : float) (fuel : nat) (c : N)
    (Ha : is_finite a = true) (Hb : is_finite b = true) (Ht : is_finite t = true)
    (Ha53 : (a <=? 0x1p53)%float = true)
    (Hb53 : (b <=? 0x1p53)%float = true)
    (Ht53 : (t <=? 0x1p53)%float = true)
    (Hsum : Z.max 0 (Double.ceilZ t)
            = Z.max 0 (Double.ceilZ a) + Z.max 0 (Double.ceilZ b)) :
  let n := Z.to_nat (Z.max 0 (Double.ceilZ t)) in
  (v <- iterated (S n + fuel) fx b value ;; iterated (S n + fuel) fx a v) c
  = iterated (S n + fuel) fx t value c
  /\ iterated (S n + fuel) fx t value c = Ret (Nat.iter n fx value) (N.of_nat n + c)%N
  /\ (forall x : float, iterated_plain (S n + fuel) fx t x c = Undefined)
  /\ (v <- iterated_plain (S n + fuel) fx b value ;;
      iterated_plain (S n + fuel) fx a v) c = Undefined.
Proof.
  intros n.
  pose proof (iterate_whole fx t value fuel c Ht Ht53) as Et.
  pose proof (fun v fuel' c' => iterate_whole fx a v fuel' c' Ha Ha53) as Ea.
  pose proof (fun fuel' => iterate_whole fx b value fuel' c Hb Hb53) as Eb.
  cbv zeta in Et, Ea, Eb. fold n in Et.
  split; [ | split; [exact Et | split; reflexivity]].
  unfold iterated, bind.
  remember (Z.to_nat (Z.max 0 (Double.ceilZ a))) as na eqn:Hna.
  remember (Z.to_nat (Z.max 0 (Double.ceilZ b))) as nb eqn:Hnb.
  assert (Hn : n = (na + nb)%nat) by (unfold n; lia).
  rewrite Et.
  replace (S n + fuel)%nat with (S nb + (na + fuel))%nat by lia. rewrite Eb.
  replace (S nb + (na + fuel))%nat with (S na + (nb + fuel))%nat by lia. rewrite Ea.
  rewrite Hn, Nat.iter_add. f_equal. lia.
Qed.

Lemma iterated_compose_witness :
  is_finite 2 = true /\ is_finite 1.5 = true /\ is_finite 4 = true
  /\ (2 <=? 0x1p53)%float = true /\ (1.5 <=? 0x1p53)%float = true
  /\ (4 <=? 0x1p53)%float = true
  /\ Z.max 0 (Double.ceilZ 4) = Z.max 0 (Double.ceilZ 2) + Z.max 0 (Double.ceilZ 1.5)
  /\ (v <- iterated (S 4 + 0) (fun x => x * 3)%float 1.5 1 ;;
      iterated (S 4 + 0) (fun x => x * 3)%float 2 v) 0%N
     = iterated (S 4 + 0) (fun x => x * 3)%float 4 1 0%N
  /\ iterated (S 4 + 0) (fun x => x * 3)%float 4 1 0%N = Ret 81%float 4%N.
Proof.
  do 7 (split; [vm_compute; reflexivity | ]).
  destruct (iterated_compose (fun x => x * 3)%float 2 1.5 4 1 0 0%N
              eq_refl eq_refl eq_refl eq_refl eq_refl eq_refl eq_refl) as (H1 & H2 & _).
  split; [exact H1 | ].
  apply (eq_trans H2). vm_compute. reflexivity.
Defined.

(** *** mMap and the pixel maps *)

(** X16: [mMap] on arguments of magnitude up to [2^30], with
    [lower < upper]: it is defined for every value from [lower] to [upper],
    its result lies between [newlower] and [newupper], in whichever order
    they come, and it sends [lower] to [newlower] and [upper] to
    [newupper]. *)
Theorem mMap_ends_and_range (value lower upper newlower newupper : Z) (c : N)
    (Hlower : Z.abs lower <= 2 ^ 30) (Hupper : Z.abs upper <= 2 ^ 30)
    (Hnewlower : Z.abs newlower <= 2 ^ 30) (Hnewupper : Z.abs newupper <= 2 ^ 30)
    (Horder : lower < upper)
    (Hin : lower <= value <= upper) :
  (exists r, mMap value lower upper newlower newupper c = Ret r c
             /\ Z.min newlower newupper <= r <= Z.max newlower newupper)
  /\ mMap lower lower upper newlower newupper c = Ret newlower c
  /\ mMap upper lower upper newlower newupper c = Ret newupper c.
Proof.
  split; [ | split].
  - eexists. split; [apply mMap_run; lia | ].
    pose proof (quot_scale_range (value - lower) (newupper - newlower) (upper - lower)
                  ltac:(lia) ltac:(lia)).
    lia.
  - rewrite mMap_run by lia. f_equal.
    rewrite Z.sub_diag, Z.mul_0_l, Z.quot_0_l by lia. ring.
  - rewrite mMap_run by lia. f_equal.
    rewrite (Z.mul_comm (upper - lower)), Z.quot_mul by lia. ring.
Qed.

Lemma mMap_ends_and_range_witness :
  Z.abs (-10) <= 2 ^ 30 /\ Z.abs 10 <= 2 ^ 30 /\ Z.abs 24 <= 2 ^ 30 /\ Z.abs 0 <= 2 ^ 30
  /\ -10 < 10 /\ -10 <= 3 <= 10
  /\ mMap 10 (-10) 10 24 0 0%N = Ret 0 0%N.
Proof.
  repeat (split; [lia | ]).
  apply (mMap_ends_and_range 3 (-10) 10 24 0 0%N); lia.
Defined.

(** X17: when the two ends of the range become the same [long], which
    every range within one whole unit does ([0.2] to [0.8], say), the
    division in [mMap] is a division by zero: [yToPixel] is undefined for
    every sample, and so is [display], whatever functions it holds. *)
Theorem yToPixel_narrow_range_undefined (g : Grapher)
    (Hsame : Double.to_long (fst (mYrange g)) = Double.to_long (snd (mYrange g))) :
  (forall (val : float) (c : N), yToPixel g val c = Undefined)
  /\ forall c : N, display g c = Undefined.
Proof.
  assert (H : forall val c, yToPixel g val c = Undefined).
  { intros val c. unfold yToPixel, bind. rewrite Hsame.
    destruct (Double.to_long val) as [v |]; [ | reflexivity].
    destruct (Double.to_long (snd (mYrange g))) as [y |]; [ | reflexivity].
    cbn [defined]. unfold ret. rewrite mMap_degenerate. reflexivity. }
  split; [exact H | ]. intros c. unfold display, bind.
  destruct (_ || _); [reflexivity | ]. unfold ret. rewrite H. reflexivity.
Qed.

Lemma yToPixel_narrow_range_undefined_witness :
  Double.to_long (fst (mYrange (setRange Grapher_default 0.2 0.8)))
  = Double.to_long (snd (mYrange (setRange Grapher_default 0.2 0.8)))
  /\ display (setRange Grapher_default 0.2 0.8) 0%N = Undefined.
Proof.
  split; [vm_compute; reflexivity | ].
  apply (yToPixel_narrow_range_undefined (setRange Grapher_default 0.2 0.8)).
  vm_compute; reflexivity.
Defined.

(** X18: with a single column, [pixelToX] maps from the pixel interval
    [[0, 0]] and divides by zero: it is undefined for every pixel, and so is
    the plot of any function. *)
Theorem pixelToX_single_column_undefined (g : Grapher)
    (Hwidth : mTermWidth g = 1) :
  (forall (i : Z) (c : N), pixelToX g i c = Undefined)
  /\ forall (p : Func * ascii) (s : screen) (c : N), plot_function g s p c = Undefined.
Proof.
  assert (H : forall i c, pixelToX g i c = Undefined).
  { intros i c. unfold pixelToX, bind. rewrite Hwidth. cbn [Z.sub Z.add Z.opp Z.pos_sub].
    change (int 0 c) with (Ret 0 c).
    destruct (Double.to_long (fst (mXrange g))) as [x0 |]; [ | reflexivity].
    destruct (Double.to_long (snd (mXrange g))) as [x1 |]; [ | reflexivity].
    cbn [defined]. unfold ret. rewrite mMap_degenerate. reflexivity. }
  split; [exact H | ]. intros p s c. unfold plot_function. rewrite Hwidth.
  change (Z.to_nat 1) with 1%nat. cbn [for_upto]. unfold bind at 1 2.
  cbv beta iota delta [plot_column]. unfold bind at 1. rewrite H. reflexivity.
Qed.

Lemma pixelToX_single_column_undefined_witness :
  mTermWidth (setOutputDimensions Grapher_default 1 24) = 1
  /\ pixelToX (setOutputDimensions Grapher_default 1 24) 0 0%N = Undefined.
Proof.
  split; [reflexivity | ].
  apply (pixelToX_single_column_undefined (setOutputDimensions Grapher_default 1 24)).
  reflexivity.
Defined.

(** X19: the row of a sample.  With range ends that become the whole
    numbers [y0 < y1] (up to [2^30] in magnitude) and a height up to
    [2^30], a sample that becomes the whole number [v] between [y0] and [y1]
    is sent by [yToPixel] to the row
    [height - (v - y0) * height / (y1 - y0)], with the quotient rounded
    down.  That row lies from [0] to [height], and it is [height], one past
    the last row of the screen, exactly when
    [(v - y0) * height < y1 - y0]: for [v = y0], and for more samples when
    the range is longer than the screen is high. *)
Theorem yToPixel_row (g : Grapher) (val : float) (v y0 y1 : Z) (c : N)
    (Hval : Double.to_long val = Some v)
    (Hy0 : Double.to_long (fst (mYrange g)) = Some y0)
    (Hy1 : Double.to_long (snd (mYrange g)) = Some y1)
    (Hb0 : Z.abs y0 <= 2 ^ 30) (Hb1 : Z.abs y1 <= 2 ^ 30)
    (Hheight : 0 <= mTermHeight g <= 2 ^ 30)
    (Horder : y0 < y1)
    (Hin : y0 <= v <= y1) :
  let row := mTermHeight g - (v - y0) * mTermHeight g / (y1 - y0) in
  yToPixel g val c = Ret row c
  /\ 0 <= row <= mTermHeight g
  /\ (row = mTermHeight g <-> (v - y0) * mTermHeight g < y1 - y0).
Proof.
  intros row.
  assert (Hq : 0 <= (v - y0) * mTermHeight g / (y1 - y0) <= mTermHeight g).
  { split; [apply Z.div_pos; nia | apply Z.div_le_upper_bound; nia]. }
  split; [ | split].
  - unfold yToPixel, bind. rewrite Hval, Hy0, Hy1. cbn [defined]. unfold ret.
    rewrite mMap_run by lia.
    replace ((v - y0) * (0 - mTermHeight g)) with (- ((v - y0) * mTermHeight g)) by ring.
    rewrite Z.quot_opp_l by lia. rewrite Z.quot_div_nonneg by nia.
    rewrite long_to_int_small by lia. f_equal. unfold row. ring.
  - unfold row. lia.
  - unfold row. split; intros H.
    + assert (H0 : (v - y0) * mTermHeight g / (y1 - y0) = 0) by lia.
      apply Z.div_small_iff in H0; lia.
    + rewrite Z.div_small by nia. ring.
Qed.

Lemma yToPixel_row_witness :
  Double.to_long (-47) = Some (-47)
  /\ Double.to_long (fst (mYrange (setRange Grapher_default (-50) 50))) = Some (-50)
  /\ Double.to_long (snd (mYrange (setRange Grapher_default (-50) 50))) = Some 50
  /\ Z.abs (-50) <= 2 ^ 30 /\ Z.abs 50 <= 2 ^ 30
  /\ 0 <= mTermHeight (setRange Grapher_default (-50) 50) <= 2 ^ 30
  /\ -50 < 50 /\ -50 <= -47 <= 50
  /\ yToPixel (setRange Grapher_default (-50) 50) (-47) 0%N = Ret 24 0%N.
Proof.
  split; [vm_compute; reflexivity | ]. split; [vm_compute; reflexivity | ].
  split; [vm_compute; reflexivity | ]. split; [lia | ]. split; [lia | ].
  split; [cbn; lia | ]. split; [lia | ]. split; [lia | ].
  apply (yToPixel_row (setRange Grapher_default (-50) 50) (-47) (-47) (-50) 50 0%N);
    try (vm_compute; reflexivity); try lia; cbn; lia.
Defined.

(** X20: the column of a point of the domain.  With domain ends that
    become the whole numbers [x0 < x1] (up to [2^30] in magnitude) and a
    width up to [2^30], a value that becomes the whole number [v] between
    them is sent by [xToPixel] to the column
    [(v - x0) * width / (x1 - x0)], the quotient rounded down, from [0] to
    [width]; on a screen with columns it is [width], one past the last
    column, exactly for [v = x1]: the column of [0], where the y axis
    goes, is off the screen when the right end of the domain is [0]. *)
Theorem xToPixel_column (g : Grapher) (val : float) (v x0 x1 : Z) (c : N)
    (Hval : Double.to_long val = Some v)
    (Hx0 : Double.to_long (fst (mXrange g)) = Some x0)
    (Hx1 : Double.to_long (snd (mXrange g)) = Some x1)
    (Hb0 : Z.abs x0 <= 2 ^ 30) (Hb1 : Z.abs x1 <= 2 ^ 30)
    (Hwidth : 0 <= mTermWidth g <= 2 ^ 30)
    (Horder : x0 < x1)
    (Hin : x0 <= v <= x1) :
  let col := (v - x0) * mTermWidth g / (x1 - x0) in
  xToPixel g val c = Ret col c
  /\ 0 <= col <= mTermWidth g
  /\ (0 < mTermWidth g -> (col = mTermWidth g <-> v = x1)).
Proof.
  intros col.
  assert (Hq : 0 <= col <= mTermWidth g).
  { unfold col. split; [apply Z.div_pos; nia | apply Z.div_le_upper_bound; nia]. }
  split; [ | split; [exact Hq | ]].
  - unfold xToPixel, bind. rewrite Hval, Hx0, Hx1. cbn [defined]. unfold ret.
    rewrite mMap_run by lia.
    rewrite Z.sub_0_r, Z.add_0_r. rewrite Z.quot_div_nonneg by nia.
    rewrite long_to_int_small by (fold col; lia). reflexivity.
  - intros Hpos. unfold col. split; intros H.
    + destruct (Z.eq_dec v x1) as [E | Hne]; [exact E | exfalso].
      assert ((v - x0) * mTermWidth g / (x1 - x0) < mTermWidth g)
        by (apply Z.div_lt_upper_bound; nia).
      lia.
    + subst v. rewrite (Z.mul_comm (x1 - x0)). apply Z.div_mul. lia.
Qed.

Lemma xToPixel_column_witness :
  Double.to_long (Double.of_Z 0) = Some 0
  /\ Double.to_long (fst (mXrange (setDomain Grapher_default (-10) 0))) = Some (-10)
  /\ Double.to_long (snd (mXrange (setDomain Grapher_default (-10) 0))) = Some 0
  /\ Z.abs (-10) <= 2 ^ 30 /\ Z.abs 0 <= 2 ^ 30
  /\ 0 <= mTermWidth (setDomain Grapher_default (-10) 0) <= 2 ^ 30
  /\ -10 < 0 /\ -10 <= 0 <= 0
  /\ xToPixel (setDomain Grapher_default (-10) 0) (Double.of_Z 0) 0%N = Ret 80 0%N.
Proof.
  split; [vm_compute; reflexivity | ]. split; [vm_compute; reflexivity | ].
  split; [vm_compute; reflexivity | ]. split; [lia | ]. split; [lia | ].
  split; [cbn; lia | ]. split; [lia | ]. split; [lia | ].
  apply (xToPixel_column (setDomain Grapher_default (-10) 0) (Double.of_Z 0) 0 (-10) 0 0%N);
    try (vm_compute; reflexivity); try lia; cbn; lia.
Defined.

(** X21: the sample points.  With domain ends that become the whole
    numbers [x0 <= x1] (up to [2^30] in magnitude) and at least two columns,
    [pixelToX] sends the column [i] to the whole number
    [x0 + i * (x1 - x0) / (width - 1)], the quotient rounded down: a value
    from [x0] to [x1], which is [x0] for the first column and [x1] for the
    last, and which does not decrease from a column to the next. *)
Theorem pixelToX_samples (g : Grapher) (i x0 x1 : Z) (c : N)
    (Hx0 : Double.to_long (fst (mXrange g)) = Some x0)
    (Hx1 : Double.to_long (snd (mXrange g)) = Some x1)
    (Hb0 : Z.abs x0 <= 2 ^ 30) (Hb1 : Z.abs x1 <= 2 ^ 30)
    (Hwidth : 2 <= mTermWidth g <= 2 ^ 30)
    (Horder : x0 <= x1)
    (Hi : 0 <= i < mTermWidth g) :
  let x := fun j => x0 + j * (x1 - x0) / (mTermWidth g - 1) in
  pixelToX g i c = Ret (Double.of_Z (x i)) c
  /\ x0 <= x i <= x1
  /\ x 0 = x0 /\ x (mTermWidth g - 1) = x1
  /\ (i + 1 < mTermWidth g -> x i <= x (i + 1)).
Proof.
  intros x. unfold x. split; [ | split; [ | split; [ | split]]].
  - unfold pixelToX, bind. rewrite int_fits by lia. rewrite Hx0, Hx1.
    cbn [defined]. unfold ret. rewrite mMap_run by lia.
    rewrite !Z.sub_0_r. rewrite Z.quot_div_nonneg by nia. do 2 f_equal. ring.
  - assert (0 <= i * (x1 - x0) / (mTermWidth g - 1)) by (apply Z.div_pos; nia).
    assert (i * (x1 - x0) / (mTermWidth g - 1) <= x1 - x0)
      by (apply Z.div_le_upper_bound; nia).
    lia.
  - rewrite Z.mul_0_l, Z.div_0_l by lia. ring.
  - rewrite Z.mul_comm, Z.div_mul by lia. ring.
  - intros _.
    assert (i * (x1 - x0) / (mTermWidth g - 1) <= (i + 1) * (x1 - x0) / (mTermWidth g - 1))
      by (apply Z.div_le_mono; nia).
    lia.
Qed.

Lemma pixelToX_samples_witness :
  Double.to_long (fst (mXrange (setDomain Grapher_default (-3) 7))) = Some (-3)
  /\ Double.to_long (snd (mXrange (setDomain Grapher_default (-3) 7))) = Some 7
  /\ Z.abs (-3) <= 2 ^ 30 /\ Z.abs 7 <= 2 ^ 30
  /\ 2 <= mTermWidth (setDomain Grapher_default (-3) 7) <= 2 ^ 30
  /\ -3 <= 7 /\ 0 <= 40 < mTermWidth (setDomain Grapher_default (-3) 7)
  /\ pixelToX (setDomain Grapher_default (-3) 7) 40 0%N = Ret 2%float 0%N.
Proof.
  split; [vm_compute; reflexivity | ]. split; [vm_compute; reflexivity | ].
  split; [lia | ]. split; [lia | ]. split; [cbn; lia | ]. split; [lia | ].
  split; [cbn; lia | ].
  destruct (pixelToX_samples (setDomain Grapher_default (-3) 7) 40 (-3) 7 0%N)
    as [H _];
    [vm_compute; reflexivity | vm_compute; reflexivity | lia | lia | cbn; lia | lia
     | cbn; lia | ].
  rewrite H. vm_compute. reflexivity.
Defined.

(** *** display *)

(** X22: the shape of the output.  Whenever [display] returns, its text is
    [height] lines of exactly [width] characters, each followed by a newline,
    [height * (width + 1)] characters in all, and every registered function
    has been evaluated once per column, [width] times. *)
Theorem display_shape (g : Grapher) (c c' : N) (text : string)
    (Hret : display g c = Ret text c') :
  (exists rows : screen,
      text = serialize rows
      /\ List.length rows = Z.to_nat (mTermHeight g)
      /\ Forall (fun row => List.length row = Z.to_nat (mTermWidth g)) rows)
  /\ String.length text
     = (Z.to_nat (mTermHeight g) * (Z.to_nat (mTermWidth g) + 1))%nat
  /\ c' = (c + N.of_nat (List.length (mFunctions g)) * Z.to_N (mTermWidth g))%N.
Proof.
  unfold display in Hret.
  apply bind_ret in Hret as (s0 & c0 & H0 & Hret).
  assert (Hs0 : well_sized g s0 /\ c0 = c).
  { destruct (_ || _); [discriminate | ]. unfold ret in H0. injection H0 as <- <-.
    split; [apply blank_well_sized | reflexivity]. }
  destruct Hs0 as [Hs0 ->].
  apply bind_ret in Hret as (xaxis & c1 & Hx & Hret). apply yToPixel_calls in Hx as ->.
  apply bind_ret in Hret as (yaxis & c2 & Hy & Hret). apply xToPixel_calls in Hy as ->.
  apply bind_ret in Hret as (s1 & c3 & H1 & Hret).
  assert (Hs1 : well_sized g s1 /\ c3 = c).
  { destruct ((0 <=? yaxis) && (yaxis <? mTermWidth g)).
    - apply (for_upto_invariant (well_sized g) 0) in H1.
      + destruct H1 as [H1 ->]. split; [exact H1 | lia].
      + intros i s a s' a' Hp Hs. destruct (poke_well_sized _ _ _ _ _ _ _ _ Hp Hs) as [? ->].
        split; [assumption | lia].
      + exact Hs0.
    - unfold ret in H1. injection H1 as <- <-. split; [exact Hs0 | reflexivity]. }
  destruct Hs1 as [Hs1 ->].
  apply bind_ret in Hret as (s2 & c4 & H2 & Hret).
  assert (Hs2 : well_sized g s2 /\ c4 = c).
  { destruct ((0 <=? xaxis) && (xaxis <? mTermHeight g)).
    - apply (for_upto_invariant (well_sized g) 0) in H2.
      + destruct H2 as [H2 ->]. split; [exact H2 | lia].
      + intros i s a s' a' Hp Hs. destruct (poke_well_sized _ _ _ _ _ _ _ _ Hp Hs) as [? ->].
        split; [assumption | lia].
      + exact Hs1.
    - unfold ret in H2. injection H2 as <- <-. split; [exact Hs1 | reflexivity]. }
  destruct Hs2 as [Hs2 ->].
  apply bind_ret in Hret as (s3 & c5 & H3 & Hret).
  destruct (plot_functions_well_sized _ _ _ _ _ _ H3 Hs2) as [Hs3 ->].
  unfold ret in Hret. injection Hret as <- <-.
  split; [ | split].
  - exists s3. destruct Hs3 as [Hlen Hrows]. repeat split; assumption.
  - apply serialize_length. exact Hs3.
  - reflexivity.
Qed.

Lemma display_shape_witness :
  exists text c',
    display (addFunction (setOutputDimensions Grapher_default 30 10)
               (fun x => x * x / 10)%float "*"%char) 0%N = Ret text c'
    /\ String.length text = (10 * (30 + 1))%nat /\ c' = 30%N.
Proof.
  destruct (display (addFunction (setOutputDimensions Grapher_default 30 10)
                       (fun x => x * x / 10)%float "*"%char) 0%N)
    as [text c' | |] eqn:E; [ | vm_compute in E; discriminate | vm_compute in E; discriminate].
  exists text, c'. split; [reflexivity | ].
  destruct (display_shape _ 0%N c' text E) as (_ & Hlen & Hc).
  split; [exact Hlen | exact Hc].
Defined.

(** X23: the axes.  Without functions, on a screen of at least one row and
    one column, and whenever the pixels of the two axes are defined,
    [display] is defined and takes no evaluation: an axis
    is drawn only when its pixel is on the screen, so no store leaves it.
    The text is that of a screen of [height] rows of [width] characters
    with ['-'] on the row of the x axis, in every column, ['|'] on the rest
    of the column of the y axis, and blanks elsewhere: where the axes
    cross, the character is ['-']. *)
Theorem display_axes (g : Grapher) (xaxis yaxis : Z) (c : N)
    (Hwidth : 0 < mTermWidth g) (Hheight : 0 < mTermHeight g)
    (Hxaxis : yToPixel g (Double.of_Z 0) c = Ret xaxis c)
    (Hyaxis : xToPixel g (Double.of_Z 0) c = Ret yaxis c) :
  exists rows : screen,
    display (clearFunctions g) c = Ret (serialize rows) c
    /\ well_sized g rows
    /\ forall r k, 0 <= r < mTermHeight g -> 0 <= k < mTermWidth g ->
         pixel rows r k
         = if r =? xaxis then "-"%char
           else if k =? yaxis then "|"%char else " "%char.
Proof.
  destruct (display_after_axes (clearFunctions g) xaxis yaxis c Hwidth Hheight
              Hxaxis Hyaxis) as (s2 & Hs2 & Hpix & Hrun).
  exists s2. split; [rewrite Hrun; reflexivity | split; [exact Hs2 | exact Hpix]].
Qed.

Lemma display_axes_witness :
  0 < mTermWidth Grapher_default /\ 0 < mTermHeight Grapher_default
  /\ yToPixel Grapher_default (Double.of_Z 0) 0%N = Ret 12 0%N
  /\ xToPixel Grapher_default (Double.of_Z 0) 0%N = Ret 40 0%N
  /\ exists rows : screen,
       display (clearFunctions Grapher_default) 0%N = Ret (serialize rows) 0%N
       /\ pixel rows 12 40 = "-"%char /\ pixel rows 3 40 = "|"%char
       /\ pixel rows 3 5 = " "%char.
Proof.
  split; [cbn; lia | ]. split; [cbn; lia | ].
  split; [vm_compute; reflexivity | ]. split; [vm_compute; reflexivity | ].
  destruct (display_axes Grapher_default 12 40 0%N) as (rows & Hrun & _ & Hpix);
    [cbn; lia | cbn; lia | vm_compute; reflexivity | vm_compute; reflexivity | ].
  exists rows. split; [exact Hrun | ].
  split; [ | split]; rewrite Hpix by (cbn; lia); reflexivity.
Defined.

(** X24: when [display] is defined.  On a screen of at least one row and
    one column, [display] returns a text, after evaluating every function
    once per column, whenever the pixels of the two axes are defined,
    [pixelToX] is defined on every column, and every sample that is inside
    the range is sent by [yToPixel] to a row of the screen, from [0] to
    [height - 1]: then no store, of a sample or of the line drawn towards
    it from the sample before, leaves the screen. *)
Theorem display_defined (g : Grapher) (xaxis yaxis : Z) (c : N)
    (Hwidth : 0 < mTermWidth g) (Hheight : 0 < mTermHeight g)
    (Hxaxis : yToPixel g (Double.of_Z 0) c = Ret xaxis c)
    (Hyaxis : xToPixel g (Double.of_Z 0) c = Ret yaxis c)
    (Hcolumns : forall i, 0 <= i < mTermWidth g -> exists x, pixelToX g i c = Ret x c)
    (Hrows : forall p i x,
        In p (mFunctions g) -> 0 <= i < mTermWidth g -> pixelToX g i c = Ret x c ->
        ((fst p x <? fst (mYrange g)) || (snd (mYrange g) <? fst p x))%float = false ->
        exists py, yToPixel g (fst p x) c = Ret py c /\ 0 <= py < mTermHeight g) :
  exists text,
    display g c
    = Ret text (c + N.of_nat (List.length (mFunctions g)) * Z.to_N (mTermWidth g))%N.
Proof.
  destruct (display_after_axes g xaxis yaxis c Hwidth Hheight Hxaxis Hyaxis)
    as (s2 & Hs2 & _ & Hrun).
  destruct (plot_functions_defined g c (mFunctions g) (Z.lt_le_incl _ _ Hwidth)
              Hcolumns Hrows s2 c Hs2)
    as (s3 & Hrun3 & _).
  exists (serialize s3). rewrite Hrun. unfold bind. rewrite Hrun3. reflexivity.
Qed.

Lemma display_defined_witness :
  0 < mTermWidth (addFunction (setOutputDimensions Grapher_default 3 5)
                    (fun _ => 1%float) "*"%char)
  /\ 0 < mTermHeight (addFunction (setOutputDimensions Grapher_default 3 5)
                        (fun _ => 1%float) "*"%char)
  /\ yToPixel (addFunction (setOutputDimensions Grapher_default 3 5)
                 (fun _ => 1%float) "*"%char) (Double.of_Z 0) 0%N = Ret 3 0%N
  /\ xToPixel (addFunction (setOutputDimensions Grapher_default 3 5)
                 (fun _ => 1%float) "*"%char) (Double.of_Z 0) 0%N = Ret 1 0%N
  /\ exists text,
       display (addFunction (setOutputDimensions Grapher_default 3 5)
                  (fun _ => 1%float) "*"%char) 0%N = Ret text 3%N.
Proof.
  split; [cbn; lia | ]. split; [cbn; lia | ].
  split; [vm_compute; reflexivity | ]. split; [vm_compute; reflexivity | ].
  apply (display_defined (addFunction (setOutputDimensions Grapher_default 3 5)
                            (fun _ => 1%float) "*"%char) 3 1 0%N).
  - cbn; lia.
  - cbn; lia.
  - vm_compute; reflexivity.
  - vm_compute; reflexivity.
  - intros i Hi. cbn in Hi.
    assert (H : i = 0 \/ i = 1 \/ i = 2) by lia.
    destruct H as [-> | [-> | ->]]; eexists; vm_compute; reflexivity.
  - intros p i x [<- | []] _ _ _. exists 3. split; [vm_compute; reflexivity | cbn; lia].
Defined.

(** X25: a function is visible at each of its samples once it is added.
    Whenever [display] returns after [addFunction(fx, ch)], its text is
    that of a screen of [height] rows of [width] characters on which, in
    every column whose sample [fx(pixelToX(column))] is inside the range,
    the character [ch] is on the row [yToPixel] gives for that sample: the
    function added last is drawn last, and no later store overwrites
    it. *)
Theorem display_marks_added_function (g : Grapher) (fx : Func) (ch : ascii)
    (c c' : N) (text : string)
    (Hret : display (addFunction g fx ch) c = Ret text c') :
  exists rows : screen,
    text = serialize rows
    /\ well_sized g rows
    /\ forall (i : Z) (x : float) (py : Z) (cx cx' cy cy' : N),
         0 <= i < mTermWidth g ->
         pixelToX g i cx = Ret x cx' ->
         ((fx x <? fst (mYrange g)) || (snd (mYrange g) <? fx x))%float = false ->
         yToPixel g (fx x) cy = Ret py cy' ->
         pixel rows py i = ch.
Proof.
  exact (display_marks_last (addFunction g fx ch) (mFunctions g) fx ch c c' text
           eq_refl Hret).
Qed.

Lemma display_marks_added_function_witness :
  exists text c' rows,
    display (addFunction (addFunction Grapher_default (fun x => x / 2)%float "a"%char)
               (fun _ => 0)%float "b"%char) 0%N = Ret text c'
    /\ text = serialize rows
    /\ pixel rows 12 40 = "b"%char.
Proof.
  destruct (display (addFunction (addFunction Grapher_default (fun x => x / 2)%float "a"%char)
                       (fun _ => 0)%float "b"%char) 0%N)
    as [text c' | |] eqn:E; [ | vm_compute in E; discriminate | vm_compute in E; discriminate].
  destruct (display_marks_added_function
              (addFunction Grapher_default (fun x => x / 2)%float "a"%char)
              (fun _ => 0)%float "b"%char 0%N c' text E) as (rows & Ht & _ & Hpix).
  exists text, c', rows. split; [reflexivity | ]. split; [exact Ht | ].
  apply (Hpix 40 0%float 12 0%N 0%N 0%N 0%N);
    [cbn; lia | vm_compute; reflexivity | vm_compute; reflexivity | vm_compute; reflexivity].
Defined.

(** X26: functions whose samples all fall outside the range leave no
    mark: when every registered function is below the range or above it
    at every point and [display] returns a text, that text is the one
    [display] returns after [clearFunctions()], the axes alone, which
    takes no evaluation. *)
Theorem display_out_of_range_functions (g : Grapher) (c c' : N) (text : string)
    (Hout : forall p, In p (mFunctions g) -> forall x,
        ((fst p x <? fst (mYrange g)) || (snd (mYrange g) <? fst p x))%float = true)
    (Hret : display g c = Ret text c') :
  display (clearFunctions g) c = Ret text c.
Proof.
  unfold display in Hret.
  apply bind_ret in Hret as (s0 & c0 & H0 & Hret).
  assert (c0 = c) as ->.
  { destruct (_ || _); [discriminate | ]. unfold ret in H0. injection H0 as _ <-.
    reflexivity. }
  apply bind_ret in Hret as (xaxis & c1 & Hx & Hret).
  pose proof (yToPixel_calls _ _ _ _ _ Hx) as ->.
  apply bind_ret in Hret as (yaxis & c2 & Hy & Hret).
  pose proof (xToPixel_calls _ _ _ _ _ Hy) as ->.
  apply bind_ret in Hret as (s1 & c3 & H1 & Hret).
  assert (c3 = c) as ->.
  { destruct ((0 <=? yaxis) && (yaxis <? mTermWidth g)).
    - apply (for_upto_invariant (fun _ => True) 0) in H1 as [_ ->]; [lia | | exact I].
      intros i s a s' a' Hp _. apply poke_ret in Hp as [-> _]. split; [exact I | lia].
    - unfold ret in H1. injection H1 as _ <-. reflexivity. }
  apply bind_ret in Hret as (s2 & c4 & H2 & Hret).
  assert (c4 = c) as ->.
  { destruct ((0 <=? xaxis) && (xaxis <? mTermHeight g)).
    - apply (for_upto_invariant (fun _ => True) 0) in H2 as [_ ->]; [lia | | exact I].
      intros i s a s' a' Hp _. apply poke_ret in Hp as [-> _]. split; [exact I | lia].
    - unfold ret in H2. injection H2 as _ <-. reflexivity. }
  apply bind_ret in Hret as (s3 & c5 & H3 & Hret).
  apply (plot_functions_out_of_range g _ Hout) in H3. subst s3.
  unfold ret in Hret. injection Hret as <- _.
  unfold display, bind.
  change (mTermHeight (clearFunctions g)) with (mTermHeight g).
  change (mTermWidth (clearFunctions g)) with (mTermWidth g).
  rewrite H0.
  change (yToPixel (clearFunctions g)) with (yToPixel g). rewrite Hx.
  change (xToPixel (clearFunctions g)) with (xToPixel g). rewrite Hy.
  change (poke (clearFunctions g)) with (poke g).
  rewrite H1, H2. reflexivity.
Qed.

Lemma display_out_of_range_functions_witness :
  exists text c',
    display (addFunction (setOutputDimensions Grapher_default 20 8)
               (fun _ => 11%float) "#"%char) 0%N = Ret text c'
    /\ display (clearFunctions (addFunction (setOutputDimensions Grapher_default 20 8)
                                  (fun _ => 11%float) "#"%char)) 0%N = Ret text 0%N.
Proof.
  destruct (display (addFunction (setOutputDimensions Grapher_default 20 8)
                       (fun _ => 11%float) "#"%char) 0%N)
    as [text c' | |] eqn:E; [ | vm_compute in E; discriminate | vm_compute in E; discriminate].
  exists text, c'. split; [reflexivity | ].
  apply (display_out_of_range_functions _ 0%N c' text); [ | exact E].
  intros p [<- | []] x. vm_compute. reflexivity.
Defined.
